(** * Prologue/epilogue insertion (lib/CodeGen/PrologEpilogInserter.cpp)

    A shallow embedding of the stack-layout stage of the LLVM code
    generator: call-frame pseudo scanning, callee-saved register
    selection, restore insertion, frame offset assignment and
    frame-index replacement with the depth-first stack-pointer
    adjustment tracking.  Offsets are [int64_t] in the source; they are
    modelled as [Z] (a frame never approaches 2^63 bytes).  A frame
    index that is outside the object table is an assertion failure of
    MachineFrameInfo; the model reads a zero-sized, 1-aligned object
    there and ignores writes to it. *)

From Stdlib Require Import ZArith Lia Bool List Btauto.
From stdpp Require Import base list.
Import ListNotations.
Open Scope Z_scope.

(* ------------------------------------------------------------------ *)
(** ** Frame model (llvm/CodeGen/MachineFrameInfo.h) *)

(** Modelled from the spec: MachineFrameInfo's StackObject (its header is
    not under src/).  A dead object is excluded from layout. *)
Record StackObject := mkStackObject {
  SPOffset : Z;
  Size : Z;
  Alignment : Z;
  isImmutable : bool;
  isSpillSlot : bool;
  PreAllocated : bool;
  isDead : bool
}.

Record CalleeSavedInfo := mkCalleeSavedInfo {
  CSReg : Z;
  CSFrameIdx : Z
}.

(** Modelled from the spec: the MachineFrameInfo fields this pass reads
    and writes.  Fixed objects come first in [Objects]: frame index [i]
    lives at position [i + NumFixedObjects]. *)
Record MachineFrameInfo := mkMFI {
  Objects : list StackObject;
  NumFixedObjects : nat;
  MaxAlignment : Z;
  StackProtectorIdx : Z;
  UseLocalStackAllocationBlock : bool;
  LocalFrameMaxAlign : Z;
  LocalFrameObjects : list (Z * Z);
  LocalFrameSize : Z;
  AdjustsStackFlag : bool;
  MaxCallFrameSizeVal : Z;
  HasVarSizedObjects : bool;
  StackSizeVal : Z;
  CSInfo : list CalleeSavedInfo
}.

Definition set_SPOffset (o : StackObject) (v : Z) : StackObject :=
  mkStackObject v (Size o) (Alignment o) (isImmutable o) (isSpillSlot o)
    (PreAllocated o) (isDead o).

Definition set_Objects (m : MachineFrameInfo) (os : list StackObject) (nf : nat)
  (maxalign : Z) : MachineFrameInfo :=
  mkMFI os nf maxalign (StackProtectorIdx m) (UseLocalStackAllocationBlock m)
    (LocalFrameMaxAlign m) (LocalFrameObjects m) (LocalFrameSize m)
    (AdjustsStackFlag m) (MaxCallFrameSizeVal m) (HasVarSizedObjects m)
    (StackSizeVal m) (CSInfo m).

Definition setStackSize (m : MachineFrameInfo) (v : Z) : MachineFrameInfo :=
  mkMFI (Objects m) (NumFixedObjects m) (MaxAlignment m) (StackProtectorIdx m)
    (UseLocalStackAllocationBlock m) (LocalFrameMaxAlign m)
    (LocalFrameObjects m) (LocalFrameSize m) (AdjustsStackFlag m)
    (MaxCallFrameSizeVal m) (HasVarSizedObjects m) v (CSInfo m).

Definition setCallsInfo (m : MachineFrameInfo) (adj : bool) (mcfs : Z)
  : MachineFrameInfo :=
  mkMFI (Objects m) (NumFixedObjects m) (MaxAlignment m) (StackProtectorIdx m)
    (UseLocalStackAllocationBlock m) (LocalFrameMaxAlign m)
    (LocalFrameObjects m) (LocalFrameSize m) adj mcfs
    (HasVarSizedObjects m) (StackSizeVal m) (CSInfo m).

Definition setCalleeSavedInfo (m : MachineFrameInfo) (csi : list CalleeSavedInfo)
  : MachineFrameInfo :=
  mkMFI (Objects m) (NumFixedObjects m) (MaxAlignment m) (StackProtectorIdx m)
    (UseLocalStackAllocationBlock m) (LocalFrameMaxAlign m)
    (LocalFrameObjects m) (LocalFrameSize m) (AdjustsStackFlag m)
    (MaxCallFrameSizeVal m) (HasVarSizedObjects m) (StackSizeVal m) csi.

Definition obj_pos (m : MachineFrameInfo) (i : Z) : option nat :=
  if 0 <=? i + Z.of_nat (NumFixedObjects m)
  then Some (Z.to_nat (i + Z.of_nat (NumFixedObjects m))) else None.

Definition getObject (m : MachineFrameInfo) (i : Z) : option StackObject :=
  match obj_pos m i with Some p => Objects m !! p | None => None end.

Definition getObjectSize (m : MachineFrameInfo) (i : Z) : Z :=
  match getObject m i with Some o => Size o | None => 0 end.
Definition getObjectAlignment (m : MachineFrameInfo) (i : Z) : Z :=
  match getObject m i with Some o => Alignment o | None => 1 end.
Definition getObjectOffset (m : MachineFrameInfo) (i : Z) : Z :=
  match getObject m i with Some o => SPOffset o | None => 0 end.
Definition isDeadObjectIndex (m : MachineFrameInfo) (i : Z) : bool :=
  match getObject m i with Some o => isDead o | None => false end.
Definition isObjectPreAllocated (m : MachineFrameInfo) (i : Z) : bool :=
  match getObject m i with Some o => PreAllocated o | None => false end.

Definition getObjectIndexBegin (m : MachineFrameInfo) : Z :=
  - Z.of_nat (NumFixedObjects m).
Definition getObjectIndexEnd (m : MachineFrameInfo) : Z :=
  Z.of_nat (length (Objects m)) - Z.of_nat (NumFixedObjects m).
Definition hasStackObjects (m : MachineFrameInfo) : bool :=
  negb (Nat.eqb (length (Objects m)) 0).

Definition setObjectOffset (m : MachineFrameInfo) (i v : Z) : MachineFrameInfo :=
  match obj_pos m i with
  | Some p => set_Objects m (alter (fun o => set_SPOffset o v) p (Objects m))
                (NumFixedObjects m) (MaxAlignment m)
  | None => m
  end.

(** [for (i = a; i != a + n; ++i)] *)
Fixpoint zrange (a : Z) (n : nat) : list Z :=
  match n with O => [] | S k => a :: zrange (a + 1) k end.

(* ------------------------------------------------------------------ *)
(** ** Target and pass inputs *)

(** The answers of TargetFrameLowering / TargetRegisterInfo for the
    function being compiled. *)
Record TargetInfo := mkTarget {
  StackGrowsDown : bool;
  StackAlignment : Z;
  TransientStackAlignment : Z;
  OffsetOfLocalArea : Z;
  targetHandlesStackFrameRounding : bool;
  hasReservedCallFrame : bool;
  hasFP : bool;
  isFPCloseToIncomingSP : bool;
  useFPForScavengingIndex : bool;
  needsStackRealignment : bool
}.

Inductive SSPLayoutKind :=
  SSPLK_None | SSPLK_LargeArray | SSPLK_SmallArray | SSPLK_AddrOf.

(** The PEI members read by calculateFrameObjectOffsets; [RS] is the
    register scavenger, given by its scavenging frame indices. *)
Record PEIState := mkPEI {
  MinCSFrameIndex : Z;
  MaxCSFrameIndex : Z;
  RS : option (list Z)
}.

Definition INT_MAX : Z := 2147483647.

(* ------------------------------------------------------------------ *)
(** ** calculateFrameObjectOffsets *)

(** [Offset] and [MaxAlign], passed by reference, with the frame. *)
Record LayoutState := mkLS { ls_mfi : MachineFrameInfo; ls_Offset : Z; ls_MaxAlign : Z }.

(** [(Offset + Align - 1) / Align * Align] with C++'s truncating division. *)
Definition align_to (Offset Align : Z) : Z := Z.quot (Offset + Align - 1) Align * Align.

Definition AdjustStackOffset (StackGrowsDown : bool) (s : LayoutState) (FrameIdx : Z)
  : LayoutState :=
  let MFI := ls_mfi s in
  let Offset1 := if StackGrowsDown then ls_Offset s + getObjectSize MFI FrameIdx
                 else ls_Offset s in
  let Align := getObjectAlignment MFI FrameIdx in
  let MaxAlign := Z.max (ls_MaxAlign s) Align in
  let Offset2 := align_to Offset1 Align in
  if StackGrowsDown
  then mkLS (setObjectOffset MFI FrameIdx (- Offset2)) Offset2 MaxAlign
  else mkLS (setObjectOffset MFI FrameIdx Offset2)
         (Offset2 + getObjectSize MFI FrameIdx) MaxAlign.

Definition AdjustStackOffsets (down : bool) (s : LayoutState) (fis : list Z) : LayoutState :=
  fold_left (AdjustStackOffset down) fis s.

(** Pushing [Offset] past the fixed objects. *)
Definition fixed_step (down : bool) (MFI : MachineFrameInfo) (Offset : Z) (i : Z) : Z :=
  let FixedOff := if down then - getObjectOffset MFI i
                  else getObjectOffset MFI i + getObjectSize MFI i in
  if Offset <? FixedOff then FixedOff else Offset.

(** One callee-saved slot (no MaxAlign update in the source). *)
Definition csr_step (down : bool) (s : LayoutState) (i : Z) : LayoutState :=
  let MFI := ls_mfi s in
  let Align := getObjectAlignment MFI i in
  if down then
    let Offset := align_to (ls_Offset s + getObjectSize MFI i) Align in
    mkLS (setObjectOffset MFI i (- Offset)) Offset (ls_MaxAlign s)
  else
    let Offset := align_to (ls_Offset s) Align in
    mkLS (setObjectOffset MFI i Offset) (Offset + getObjectSize MFI i) (ls_MaxAlign s).

(** [for (i = MinCS; i <= MaxCS; ++i)] going down, the reverse going up. *)
Definition csr_indices (P : PEIState) : list Z :=
  zrange (MinCSFrameIndex P) (Z.to_nat (MaxCSFrameIndex P - MinCSFrameIndex P + 1)).

Definition csr_order (down : bool) (P : PEIState) : list Z :=
  if down then csr_indices P else rev (csr_indices P).

Definition isScavengingFrameIndex (P : PEIState) (i : Z) : bool :=
  match RS P with Some sfis => existsb (Z.eqb i) sfis | None => false end.

Definition EarlyScavengingSlots (T : TargetInfo) : bool :=
  hasFP T && isFPCloseToIncomingSP T && useFPForScavengingIndex T
  && negb (needsStackRealignment T).

Definition scavenging_slots (T : TargetInfo) (P : PEIState) (early : bool)
  (s : LayoutState) : LayoutState :=
  match RS P with
  | Some sfis => if Bool.eqb (EarlyScavengingSlots T) early
                 then AdjustStackOffsets (StackGrowsDown T) s sfis else s
  | None => s
  end.

Definition local_block (down : bool) (s : LayoutState) : LayoutState :=
  let MFI := ls_mfi s in
  if UseLocalStackAllocationBlock MFI then
    let Align := LocalFrameMaxAlign MFI in
    let Offset := align_to (ls_Offset s) Align in
    let MFI' := fold_left (fun m (e : Z * Z) =>
                  setObjectOffset m (fst e) ((if down then - Offset else Offset) + snd e))
                  (LocalFrameObjects MFI) MFI in
    mkLS MFI' (Offset + LocalFrameSize MFI) (Z.max Align (ls_MaxAlign s))
  else s.

(** The [continue] tests shared by the two loops over the objects. *)
Definition skipped_object (P : PEIState) (MFI : MachineFrameInfo) (i : Z) : bool :=
  (isObjectPreAllocated MFI i && UseLocalStackAllocationBlock MFI)
  || ((MinCSFrameIndex P <=? i) && (i <=? MaxCSFrameIndex P))
  || isScavengingFrameIndex P i
  || isDeadObjectIndex MFI i
  || (StackProtectorIdx MFI =? i).

Definition is_large_array (k : SSPLayoutKind) : bool :=
  match k with SSPLK_LargeArray => true | _ => false end.

(** The stack protector slot, then the large arrays; returns ProtectedObjs. *)
Definition protector_phase (down : bool) (P : PEIState) (SSPLayout : Z -> SSPLayoutKind)
  (s : LayoutState) : LayoutState * list Z :=
  let MFI := ls_mfi s in
  if 0 <=? StackProtectorIdx MFI then
    let s1 := AdjustStackOffset down s (StackProtectorIdx MFI) in
    let LargeArrayObjs :=
      List.filter (fun i => negb (skipped_object P (ls_mfi s1) i) && is_large_array (SSPLayout i))
        (zrange 0 (Z.to_nat (getObjectIndexEnd (ls_mfi s1)))) in
    (AdjustStackOffsets down s1 LargeArrayObjs, LargeArrayObjs)
  else (s, []).

Definition main_step (down : bool) (P : PEIState) (ProtectedObjs : list Z)
  (s : LayoutState) (i : Z) : LayoutState :=
  if skipped_object P (ls_mfi s) i || existsb (Z.eqb i) ProtectedObjs then s
  else AdjustStackOffset down s i.

Definition main_phase (down : bool) (P : PEIState) (ProtectedObjs : list Z)
  (s : LayoutState) : LayoutState :=
  fold_left (main_step down P ProtectedObjs) (zrange 0 (Z.to_nat (getObjectIndexEnd (ls_mfi s)))) s.

(** Everything up to the final rounding; [None] is the failed assertion
    on the local area offset. *)
Definition calc_layout (T : TargetInfo) (P : PEIState) (SSPLayout : Z -> SSPLayoutKind)
  (MFI : MachineFrameInfo) : option (LayoutState * Z) :=
  let down := StackGrowsDown T in
  let LocalAreaOffset := if down then - OffsetOfLocalArea T else OffsetOfLocalArea T in
  if LocalAreaOffset <? 0 then None else
  let Offset0 := fold_left (fixed_step down MFI)
                   (zrange (getObjectIndexBegin MFI) (NumFixedObjects MFI)) LocalAreaOffset in
  let s1 := fold_left (csr_step down) (csr_order down P) (mkLS MFI Offset0 0) in
  let s2 := mkLS (ls_mfi s1) (ls_Offset s1) (MaxAlignment (ls_mfi s1)) in
  let s3 := scavenging_slots T P true s2 in
  let s4 := local_block down s3 in
  let '(s5, ProtectedObjs) := protector_phase down P SSPLayout s4 in
  let s6 := main_phase down P ProtectedObjs s5 in
  let s7 := scavenging_slots T P false s6 in
  Some (s7, LocalAreaOffset).

Definition resolved_stack_align (T : TargetInfo) (s : LayoutState) : Z :=
  let MFI := ls_mfi s in
  let StackAlign :=
    if AdjustsStackFlag MFI || HasVarSizedObjects MFI
       || (needsStackRealignment T && negb (getObjectIndexEnd MFI =? 0))
    then StackAlignment T else TransientStackAlignment T in
  Z.max StackAlign (ls_MaxAlign s).

Definition final_offset (T : TargetInfo) (s : LayoutState) : Z :=
  let MFI := ls_mfi s in
  if targetHandlesStackFrameRounding T then ls_Offset s else
  let Offset := if AdjustsStackFlag MFI && hasReservedCallFrame T
                then ls_Offset s + MaxCallFrameSizeVal MFI else ls_Offset s in
  let AlignMask := (resolved_stack_align T s - 1) mod 2 ^ 32 in
  Z.land (Offset + AlignMask) (Z.lnot AlignMask).

Definition calculateFrameObjectOffsets (T : TargetInfo) (P : PEIState)
  (SSPLayout : Z -> SSPLayoutKind) (MFI : MachineFrameInfo) : option MachineFrameInfo :=
  match calc_layout T P SSPLayout MFI with
  | None => None
  | Some (s, LocalAreaOffset) =>
      Some (setStackSize (ls_mfi s) (final_offset T s - LocalAreaOffset))
  end.

(* ------------------------------------------------------------------ *)
(** ** The faults of calculateFrameObjectOffsets *)

(** The assertion on the local area offset; the negation of an [int]
    local area offset of -2^31; MachineFrameInfo's assertions on a frame
    index (out of range, or the offset of a dead object read or written);
    and the division [(Offset + Align - 1) / Align] at alignment 0.  The
    [int64_t] offsets themselves are taken not to overflow. *)
Inductive PEIFault :=
| LocalAreaOffsetFault
| NegationOverflow
| InvalidObjectIdx (i : Z)
| DeadObjectOffset (i : Z)
| DivisionByZero.

Definition bind_fault {A B} (r : PEIFault + A) (k : A -> PEIFault + B) : PEIFault + B :=
  match r with inl e => inl e | inr a => k a end.

Notation "'let*' x := r 'in' k" := (bind_fault r (fun x => k))
  (at level 200, x name, r at level 100, k at level 200).

(** A loop whose body may fault: [flt] is the fault of one iteration, if
    any, and [g] the iteration itself. *)
Fixpoint fold_checked {A B} (flt : A -> B -> option PEIFault) (g : A -> B -> A)
  (l : list B) (a : A) : PEIFault + A :=
  match l with
  | [] => inr a
  | x :: l' => match flt a x with
               | Some e => inl e
               | None => fold_checked flt g l' (g a x)
               end
  end.

(** getObjectOffset / setObjectOffset: a valid index and a live object. *)
Definition offset_fault (m : MachineFrameInfo) (i : Z) : option PEIFault :=
  match getObject m i with
  | None => Some (InvalidObjectIdx i)
  | Some o => if isDead o then Some (DeadObjectOffset i) else None
  end.

(** Placing object [i] (the callee-saved loops and AdjustStackOffset):
    its size and alignment are read, the offset is rounded up to the
    alignment, and the object's offset is set. *)
Definition place_fault (m : MachineFrameInfo) (i : Z) : option PEIFault :=
  match getObject m i with
  | None => Some (InvalidObjectIdx i)
  | Some o => if Alignment o =? 0 then Some DivisionByZero
              else if isDead o then Some (DeadObjectOffset i) else None
  end.

Definition adjust_fault (s : LayoutState) (i : Z) : option PEIFault :=
  place_fault (ls_mfi s) i.

Definition scavenging_slots_checked (T : TargetInfo) (P : PEIState) (early : bool)
  (s : LayoutState) : PEIFault + LayoutState :=
  match RS P with
  | Some sfis => if Bool.eqb (EarlyScavengingSlots T) early
                 then fold_checked adjust_fault (AdjustStackOffset (StackGrowsDown T)) sfis s
                 else inr s
  | None => inr s
  end.

Definition local_block_checked (down : bool) (s : LayoutState) : PEIFault + LayoutState :=
  let MFI := ls_mfi s in
  if UseLocalStackAllocationBlock MFI then
    let Align := LocalFrameMaxAlign MFI in
    if Align =? 0 then inl DivisionByZero else
    let Offset := align_to (ls_Offset s) Align in
    let* MFI' := fold_checked (fun m (e : Z * Z) => offset_fault m (fst e))
                   (fun m (e : Z * Z) =>
                      setObjectOffset m (fst e) ((if down then - Offset else Offset) + snd e))
                   (LocalFrameObjects MFI) MFI in
    inr (mkLS MFI' (Offset + LocalFrameSize MFI) (Z.max Align (ls_MaxAlign s)))
  else inr s.

Definition protector_phase_checked (down : bool) (P : PEIState)
  (SSPLayout : Z -> SSPLayoutKind) (s : LayoutState) : PEIFault + (LayoutState * list Z) :=
  let MFI := ls_mfi s in
  if 0 <=? StackProtectorIdx MFI then
    match adjust_fault s (StackProtectorIdx MFI) with
    | Some e => inl e
    | None =>
        let s1 := AdjustStackOffset down s (StackProtectorIdx MFI) in
        let LargeArrayObjs :=
          List.filter (fun i => negb (skipped_object P (ls_mfi s1) i) && is_large_array (SSPLayout i))
            (zrange 0 (Z.to_nat (getObjectIndexEnd (ls_mfi s1)))) in
        let* s2 := fold_checked adjust_fault (AdjustStackOffset down) LargeArrayObjs s1 in
        inr (s2, LargeArrayObjs)
    end
  else inr (s, []).

Definition main_fault (P : PEIState) (ProtectedObjs : list Z) (s : LayoutState) (i : Z)
  : option PEIFault :=
  if skipped_object P (ls_mfi s) i || existsb (Z.eqb i) ProtectedObjs then None
  else adjust_fault s i.

Definition main_phase_checked (down : bool) (P : PEIState) (ProtectedObjs : list Z)
  (s : LayoutState) : PEIFault + LayoutState :=
  fold_checked (main_fault P ProtectedObjs) (main_step down P ProtectedObjs)
    (zrange 0 (Z.to_nat (getObjectIndexEnd (ls_mfi s)))) s.

(** calc_layout with its faults. *)
Definition calc_layout_checked (T : TargetInfo) (P : PEIState)
  (SSPLayout : Z -> SSPLayoutKind) (MFI : MachineFrameInfo) : PEIFault + (LayoutState * Z) :=
  let down := StackGrowsDown T in
  if down && (OffsetOfLocalArea T =? - 2 ^ 31) then inl NegationOverflow else
  let LocalAreaOffset := if down then - OffsetOfLocalArea T else OffsetOfLocalArea T in
  if LocalAreaOffset <? 0 then inl LocalAreaOffsetFault else
  let* Offset0 := fold_checked (fun _ i => offset_fault MFI i) (fixed_step down MFI)
                    (zrange (getObjectIndexBegin MFI) (NumFixedObjects MFI)) LocalAreaOffset in
  let* s1 := fold_checked adjust_fault (csr_step down) (csr_order down P) (mkLS MFI Offset0 0) in
  let s2 := mkLS (ls_mfi s1) (ls_Offset s1) (MaxAlignment (ls_mfi s1)) in
  let* s3 := scavenging_slots_checked T P true s2 in
  let* s4 := local_block_checked down s3 in
  let* r5 := protector_phase_checked down P SSPLayout s4 in
  let* s6 := main_phase_checked down P (snd r5) (fst r5) in
  let* s7 := scavenging_slots_checked T P false s6 in
  inr (s7, LocalAreaOffset).

Definition calculateFrameObjectOffsets_checked (T : TargetInfo) (P : PEIState)
  (SSPLayout : Z -> SSPLayoutKind) (MFI : MachineFrameInfo) : PEIFault + MachineFrameInfo :=
  let* r := calc_layout_checked T P SSPLayout MFI in
  inr (setStackSize (ls_mfi (fst r)) (final_offset T (fst r) - snd r)).

(* ------------------------------------------------------------------ *)
(** ** Machine instructions and functions *)

Inductive MachineOperand :=
| MO_Immediate (v : Z)
| MO_FrameIndex (fi : Z)
| MO_Register (r : Z).

Record MachineInstr := mkMI {
  opcode : Z;
  operands : list MachineOperand;
  isTerminator : bool;
  isReturn : bool
}.

(** TargetOpcode::INLINEASM, InlineAsm::MIOp_ExtraInfo, InlineAsm::Extra_IsAlignStack. *)
Definition INLINEASM : Z := 1.
Definition MIOp_ExtraInfo : nat := 1.
Definition Extra_IsAlignStack : Z := 2.

(** TargetOpcode::DBG_VALUE, STACKMAP and PATCHPOINT. *)
Definition DBG_VALUE : Z := 11.
Definition STACKMAP : Z := 17.
Definition PATCHPOINT : Z := 18.

Definition getImm (mi : MachineInstr) (n : nat) : Z :=
  match operands mi !! n with Some (MO_Immediate v) => v | _ => 0 end.

Definition isInlineAsm (mi : MachineInstr) : bool := opcode mi =? INLINEASM.

Definition fi_operands (mi : MachineInstr) : list Z :=
  flat_map (fun mo => match mo with MO_FrameIndex fi => [fi] | _ => [] end) (operands mi).

Record MachineBasicBlock := mkMBB {
  Insts : list MachineInstr;
  Succs : list nat
}.

(** Blocks in layout order; a block's number is its position, the entry
    block is block 0. *)
Definition MachineFunction := list MachineBasicBlock.

Definition getBlock (Fn : MachineFunction) (b : nat) : MachineBasicBlock :=
  default (mkMBB [] []) (Fn !! b).

Definition setBlockInsts (Fn : MachineFunction) (b : nat) (l : list MachineInstr)
  : MachineFunction :=
  alter (fun bb => mkMBB l (Succs bb)) b Fn.

(** Unsigned and signed 32-bit views of a 64-bit immediate. *)
Definition to_unsigned32 (z : Z) : Z := z mod 2 ^ 32.
Definition to_int32 (z : Z) : Z := (z + 2 ^ 31) mod 2 ^ 32 - 2 ^ 31.

(** The TargetInstrInfo / TargetFrameLowering / TargetRegisterInfo hooks;
    each rewriting hook returns the instructions that replace the one it
    is given. *)
Record TargetHooks := mkHooks {
  FrameSetupOpcode : Z;
  FrameDestroyOpcode : Z;
  canSimplifyCallFramePseudos : bool;
  eliminateCallFramePseudoInstr : MachineInstr -> list MachineInstr;
  eliminateFrameIndex : MachineInstr -> Z -> list MachineInstr;
  getFrameIndexReference : Z -> Z * Z   (** the offset, and the base register *)
}.

Definition is_frame_pseudo (H : TargetHooks) (mi : MachineInstr) : bool :=
  (opcode mi =? FrameSetupOpcode H) || (opcode mi =? FrameDestroyOpcode H).

(* ------------------------------------------------------------------ *)
(** ** calculateCallsInformation *)

Definition calls_step (H : TargetHooks) (acc : Z * bool) (mi : MachineInstr) : Z * bool :=
  let '(MaxCallFrameSize, AdjustsStack) := acc in
  if is_frame_pseudo H mi then
    let Size := to_unsigned32 (getImm mi 0) in
    (if MaxCallFrameSize <? Size then Size else MaxCallFrameSize, true)
  else if isInlineAsm mi then
    let ExtraInfo := to_unsigned32 (getImm mi MIOp_ExtraInfo) in
    (MaxCallFrameSize,
     if negb (Z.land ExtraInfo Extra_IsAlignStack =? 0) then true else AdjustsStack)
  else acc.

Definition calculateCallsInformation (H : TargetHooks) (Fn : MachineFunction)
  (MFI : MachineFrameInfo) : MachineFunction * MachineFrameInfo :=
  if (FrameSetupOpcode H =? -1) && (FrameDestroyOpcode H =? -1) then (Fn, MFI) else
  let '(MaxCallFrameSize, AdjustsStack) :=
    fold_left (calls_step H) (concat (map Insts Fn)) (0, AdjustsStackFlag MFI) in
  let MFI' := setCallsInfo MFI AdjustsStack MaxCallFrameSize in
  let Fn' :=
    if canSimplifyCallFramePseudos H then
      map (fun bb => mkMBB (flat_map (fun mi => if is_frame_pseudo H mi
                                                then eliminateCallFramePseudoInstr H mi
                                                else [mi]) (Insts bb)) (Succs bb)) Fn
    else Fn in
  (Fn', MFI').

(* ------------------------------------------------------------------ *)
(** ** calculateCalleeSavedRegisters *)

(** What the target and the function report: the callee-saved list (the
    registers before the 0 terminator), register use, the hooks for
    reserved and fixed spill slots, and the register class geometry. *)
Record CSRTarget := mkCSRTarget {
  CSRegs : list Z;
  isPhysRegUsed : Z -> bool;
  callsUnwindInit : bool;
  isNaked : bool;
  hasReservedSpillSlot : Z -> option Z;
  FixedSpillSlots : list (Z * Z);
  RegClassSize : Z -> Z;
  RegClassAlignment : Z -> Z;
  CSRStackAlignment : Z
}.

(** Modelled from the spec: MachineFrameInfo::CreateStackObject appends an
    object and returns its index. *)
Definition CreateStackObject (m : MachineFrameInfo) (size align : Z) (isSS : bool)
  : MachineFrameInfo * Z :=
  (set_Objects m (Objects m ++ [mkStackObject 0 size align false isSS false false])
     (NumFixedObjects m) (Z.max (MaxAlignment m) align),
   getObjectIndexEnd m).

(** llvm/Support/MathExtras.h: [MinAlign(A, B) = (A | B) & (1 + ~(A | B))]
    on uint64_t, the largest power of two dividing both. *)
Definition MinAlign (A B : Z) : Z :=
  let x := Z.lor A B in Z.land x ((1 + Z.lnot x) mod 2 ^ 64).

(** Modelled from the spec: MachineFrameInfo::CreateFixedObject adds a
    fixed object at the given offset, in front of the table; its alignment
    is what the offset implies on a stack aligned to StackAlign,
    [unsigned Align = MinAlign(SPOffset, StackAlign)]. *)
Definition CreateFixedObject (m : MachineFrameInfo) (size offset : Z) (immutable : bool)
  (StackAlign : Z) : MachineFrameInfo * Z :=
  let Align := MinAlign (offset mod 2 ^ 64) StackAlign mod 2 ^ 32 in
  (set_Objects m (mkStackObject offset size Align immutable false false false :: Objects m)
     (S (NumFixedObjects m)) (MaxAlignment m),
   - Z.of_nat (S (NumFixedObjects m))).

Definition csr_selected (C : CSRTarget) (Reg : Z) : bool :=
  isPhysRegUsed C Reg || callsUnwindInit C.

Definition assign_slot (C : CSRTarget) (st : MachineFrameInfo * Z * Z) (Reg : Z)
  : (MachineFrameInfo * Z * Z) * CalleeSavedInfo :=
  let '(m, MinCS, MaxCS) := st in
  match hasReservedSpillSlot C Reg with
  | Some FrameIdx => (st, mkCalleeSavedInfo Reg FrameIdx)
  | None =>
      match find (fun fs => fst fs =? Reg) (FixedSpillSlots C) with
      | None =>
          let Align := Z.min (RegClassAlignment C Reg) (CSRStackAlignment C) in
          let '(m', FrameIdx) := CreateStackObject m (RegClassSize C Reg) Align true in
          ((m', if FrameIdx <? MinCS then FrameIdx else MinCS,
                if MaxCS <? FrameIdx then FrameIdx else MaxCS),
           mkCalleeSavedInfo Reg FrameIdx)
      | Some fs =>
          let '(m', FrameIdx) := CreateFixedObject m (RegClassSize C Reg) (snd fs) true
                                 (CSRStackAlignment C) in
          ((m', MinCS, MaxCS), mkCalleeSavedInfo Reg FrameIdx)
      end
  end.

Fixpoint assign_slots (C : CSRTarget) (st : MachineFrameInfo * Z * Z) (regs : list Z)
  : (MachineFrameInfo * Z * Z) * list CalleeSavedInfo :=
  match regs with
  | [] => (st, [])
  | r :: rs => let '(st1, ci) := assign_slot C st r in
               let '(st2, cis) := assign_slots C st1 rs in (st2, ci :: cis)
  end.

(** Returns the frame with MinCSFrameIndex and MaxCSFrameIndex. *)
Definition calculateCalleeSavedRegisters (C : CSRTarget) (m : MachineFrameInfo)
  : MachineFrameInfo * Z * Z :=
  match CSRegs C with
  | [] => (m, INT_MAX, 0)
  | _ =>
    if isNaked C then (m, INT_MAX, 0) else
    match List.filter (csr_selected C) (CSRegs C) with
    | [] => (m, INT_MAX, 0)
    | CSI =>
        let '(st, infos) := assign_slots C (m, INT_MAX, 0) CSI in
        let '(m', MinCS, MaxCS) := st in
        (setCalleeSavedInfo m' infos, MinCS, MaxCS)
    end
  end.

(* ------------------------------------------------------------------ *)
(** ** calculateSets and insertCSRSpillsAndRestores *)

Definition isReturnBlock (bb : MachineBasicBlock) : bool :=
  match last (Insts bb) with Some mi => isReturn mi | None => false end.

Definition ReturnBlocks (Fn : MachineFunction) : list nat :=
  List.filter (fun b => isReturnBlock (getBlock Fn b)) (seq 0 (length Fn)).

(** The spill and restore hooks: a bulk hook answers [Some code] when it
    handled the registers (inserting [code]) and [None] when it declines. *)
Record CSRHooks := mkCSRHooks {
  spillCalleeSavedRegisters : option (list MachineInstr);
  restoreCalleeSavedRegisters : option (list MachineInstr);
  storeRegToStackSlot : Z -> Z -> list MachineInstr;
  loadRegFromStackSlot : Z -> Z -> list MachineInstr
}.

(** Insertion before the instruction at position [k]. *)
Definition insert_before {A} (k : nat) (xs l : list A) : list A :=
  take k l ++ xs ++ drop k l.

(** [while (I2 != begin && (--I2)->isTerminator()) I = I2;] *)
Fixpoint walk_back (l : list MachineInstr) (I2 I : nat) : nat :=
  match I2 with
  | O => I
  | S J => match l !! J with
           | Some mi => if isTerminator mi then walk_back l J J else I
           | None => I
           end
  end.

Definition restore_point (l : list MachineInstr) : nat :=
  let I := (length l - 1)%nat in walk_back l I I.

Definition restore_block (R : CSRHooks) (CSI : list CalleeSavedInfo)
  (l : list MachineInstr) : list MachineInstr :=
  let I := restore_point l in
  let AtStart := Nat.eqb I 0 in
  let BeforeI := (I - 1)%nat in
  match restoreCalleeSavedRegisters R with
  | Some code => insert_before I code l
  | None =>
      fst (fold_left (fun (st : list MachineInstr * nat) ci =>
             let '(l', I') := st in
             (insert_before I' (loadRegFromStackSlot R (CSReg ci) (CSFrameIdx ci)) l',
              if AtStart then O else S BeforeI)) CSI (l, I))
  end.

Definition spill_block (R : CSRHooks) (CSI : list CalleeSavedInfo)
  (l : list MachineInstr) : list MachineInstr :=
  match spillCalleeSavedRegisters R with
  | Some code => code ++ l
  | None =>
      fst (fold_left (fun (st : list MachineInstr * nat) ci =>
             let '(l', Ip) := st in
             let code := storeRegToStackSlot R (CSReg ci) (CSFrameIdx ci) in
             (insert_before Ip code l', (Ip + length code)%nat)) CSI (l, O))
  end.

Definition insertCSRSpillsAndRestores (R : CSRHooks) (MFI : MachineFrameInfo)
  (Fn : MachineFunction) : MachineFunction :=
  let CSI := CSInfo MFI in
  match CSI with
  | [] => Fn
  | _ =>
      let Fn1 := setBlockInsts Fn 0 (spill_block R CSI (Insts (getBlock Fn 0))) in
      fold_left (fun F b => setBlockInsts F b (restore_block R CSI (Insts (getBlock F b))))
        (ReturnBlocks Fn) Fn1
  end.

(* ------------------------------------------------------------------ *)
(** ** replaceFrameIndices *)

(** Frame indices in DBG_VALUE, STACKMAP and PATCHPOINT are resolved in
    place: for a frame-index operand at position [i], the immediate at
    [i+1] gets getFrameIndexReference's offset added and the operand
    becomes its register.  (MachineOperand asserts that operand [i+1] is
    an immediate; the model leaves any other operand as it is.) *)
Definition resolve_fi_operand (H : TargetHooks) (ops : list MachineOperand) (i : nat)
  : list MachineOperand :=
  match ops !! i with
  | Some (MO_FrameIndex fi) =>
      let '(Off, Reg) := getFrameIndexReference H fi in
      let ops' := match ops !! S i with
                  | Some (MO_Immediate v) => <[S i := MO_Immediate (v + Off)]> ops
                  | _ => ops
                  end in
      <[i := MO_Register Reg]> ops'
  | _ => ops
  end.

(** [for (i = 0, e = MI->getNumOperands(); i != e; ++i)] over such an instruction. *)
Definition resolve_frame_indices (H : TargetHooks) (mi : MachineInstr) : MachineInstr :=
  mkMI (opcode mi)
    (fold_left (resolve_fi_operand H) (seq 0 (length (operands mi))) (operands mi))
    (isTerminator mi) (isReturn mi).

Definition resolves_fi_directly (mi : MachineInstr) : bool :=
  (opcode mi =? DBG_VALUE) || (opcode mi =? STACKMAP) || (opcode mi =? PATCHPOINT).

(** One instruction of [replaceFrameIndices(MBB, Fn, SPAdj)]: the output
    so far, SPAdj, and the (frame index, SPAdj) of every frame-index
    operand handed to eliminateFrameIndex.  The instructions a hook
    inserts are target instructions without frame-index operands or
    call-frame pseudos, so the loop's revisit leaves them as they are.
    SPAdj is an [int]; it is kept in Z, which follows the runs where the
    sum does not overflow (signed overflow is undefined in C++). *)
Definition bb_step (H : TargetHooks) (down : bool)
  (acc : list MachineInstr * Z * list (Z * Z)) (mi : MachineInstr)
  : list MachineInstr * Z * list (Z * Z) :=
  let '(out, SPAdj, refs) := acc in
  if is_frame_pseudo H mi then
    let Size0 := to_int32 (getImm mi 0) in
    let Size := if (negb down && (opcode mi =? FrameSetupOpcode H))
                   || (down && (opcode mi =? FrameDestroyOpcode H))
                then - Size0 else Size0 in
    (out ++ eliminateCallFramePseudoInstr H mi, SPAdj + Size, refs)
  else
    match fi_operands mi with
    | [] => (out ++ [mi], SPAdj, refs)
    | fis =>
        if resolves_fi_directly mi then (out ++ [resolve_frame_indices H mi], SPAdj, refs)
        else (out ++ eliminateFrameIndex H mi SPAdj, SPAdj,
              refs ++ map (fun fi => (fi, SPAdj)) fis)
    end.

Definition replaceFrameIndicesBB (H : TargetHooks) (down : bool)
  (l : list MachineInstr) (SPAdj : Z) : list MachineInstr * Z * list (Z * Z) :=
  fold_left (bb_step H down) l ([], SPAdj, []).

Record BlockVisit := mkVisit {
  v_block : nat;
  v_path : list nat;       (** the DFS stack, entry first, this block last *)
  v_SPAdjIn : Z;
  v_SPAdjOut : Z;
  v_frameRefs : list (Z * Z)
}.

Definition upd (f : nat -> Z) (b : nat) (v : Z) : nat -> Z :=
  fun x => if Nat.eqb x b then v else f x.

(** The df_ext_iterator stack: top first, each node with the children it
    still has to try. *)
Definition dfs_path (stack : list (nat * list nat)) : list nat := rev (map fst stack).

(** The body of the DFS loop for the block on top of [stack]. *)
Definition visit_block (H : TargetHooks) (down : bool) (Fn : MachineFunction)
  (SPState : nat -> Z) (stack : list (nat * list nat)) (b : nat)
  : MachineFunction * (nat -> Z) * BlockVisit :=
  let SPAdj := match stack with
               | _ :: (StackPred, _) :: _ => SPState StackPred
               | _ => 0
               end in
  let '(l', out, refs) := replaceFrameIndicesBB H down (Insts (getBlock Fn b)) SPAdj in
  (setBlockInsts Fn b l', upd SPState b out, mkVisit b (dfs_path stack) SPAdj out refs).

Fixpoint dfs_walk (H : TargetHooks) (down : bool) (fuel : nat) (Fn : MachineFunction)
  (stack : list (nat * list nat)) (Reachable : list nat) (SPState : nat -> Z)
  (log : list BlockVisit) : MachineFunction * list nat * list BlockVisit :=
  match fuel with
  | O => (Fn, Reachable, log)
  | S fuel' =>
    match stack with
    | [] => (Fn, Reachable, log)
    | (n, []) :: rest => dfs_walk H down fuel' Fn rest Reachable SPState log
    | (n, c :: cs) :: rest =>
        if existsb (Nat.eqb c) Reachable
        then dfs_walk H down fuel' Fn ((n, cs) :: rest) Reachable SPState log
        else
          let stack' := (c, Succs (getBlock Fn c)) :: (n, cs) :: rest in
          let '(Fn', SPState', v) := visit_block H down Fn SPState stack' c in
          dfs_walk H down fuel' Fn' stack' (c :: Reachable) SPState' (log ++ [v])
    end
  end.

(** Every step of the walk pushes a new block, drops a child or pops. *)
Definition dfs_fuel (Fn : MachineFunction) : nat :=
  S (2 * length Fn + list_sum (map (fun bb => length (Succs bb)) Fn)).

Definition unreachable_step (H : TargetHooks) (down : bool) (Reachable : list nat)
  (acc : MachineFunction * list BlockVisit) (b : nat) : MachineFunction * list BlockVisit :=
  let '(Fn, log) := acc in
  if existsb (Nat.eqb b) Reachable then acc
  else
    let '(l', out, refs) := replaceFrameIndicesBB H down (Insts (getBlock Fn b)) 0 in
    (setBlockInsts Fn b l', log ++ [mkVisit b [] 0 out refs]).

(** Returns the rewritten function, the DFS visits and the visits of the
    unreachable blocks. *)
Definition replaceFrameIndices (H : TargetHooks) (down : bool) (MFI : MachineFrameInfo)
  (Fn : MachineFunction) : MachineFunction * list BlockVisit * list BlockVisit :=
  if negb (hasStackObjects MFI) then (Fn, [], []) else
  match Fn with
  | [] => (Fn, [], [])
  | _ =>
    let stack0 := [(0%nat, Succs (getBlock Fn 0))] in
    let '(Fn1, SPState1, v0) := visit_block H down Fn (fun _ => 0) stack0 0 in
    let '(Fn2, Reachable, log) :=
      dfs_walk H down (dfs_fuel Fn) Fn1 stack0 [0%nat] SPState1 [v0] in
    let '(Fn3, log2) :=
      fold_left (unreachable_step H down Reachable) (seq 0 (length Fn)) (Fn2, []) in
    (Fn3, log, log2)
  end.

(* ------------------------------------------------------------------ *)
(** ** Statements of the specification *)

(** Round [x] up to the least multiple of [a] not below it. *)
Definition spec_round_up (x a : Z) : Z := x + (a - x mod a) mod a.

(** The spec's "place one object". *)
Definition spec_place (down : bool) (s : LayoutState) (fi : Z) : LayoutState :=
  let m := ls_mfi s in
  let size := getObjectSize m fi in
  let align := getObjectAlignment m fi in
  let MaxAlign := Z.max (ls_MaxAlign s) align in
  if down then
    let r := spec_round_up (ls_Offset s + size) align in
    mkLS (setObjectOffset m fi (- r)) r MaxAlign
  else
    let r := spec_round_up (ls_Offset s) align in
    mkLS (setObjectOffset m fi r) (r + size) MaxAlign.

(** All instructions of a function, in layout order. *)
Definition all_insts (Fn : MachineFunction) : list MachineInstr := concat (map Insts Fn).

Definition max_list (l : list Z) : Z := fold_right Z.max 0 l.

(** Bit 1 of the inline-asm extra-info operand: "requires stack alignment". *)
Definition requires_stack_alignment (mi : MachineInstr) : bool :=
  Z.testbit (getImm mi MIOp_ExtraInfo) 1.

(** The length of the longest suffix made of terminators. *)
Fixpoint trailing_terminators (l : list MachineInstr) : nat :=
  match l with
  | [] => 0
  | _ :: r => if forallb isTerminator l then length l else trailing_terminators r
  end.

(** *** Frame layout *)

(** A frame with every object offset and the stack size cleared: the part
    of a frame that offset assignment reads besides the fixed offsets. *)
Definition erase_obj (o : StackObject) : StackObject := set_SPOffset o 0.

Definition erase (m : MachineFrameInfo) : MachineFrameInfo :=
  mkMFI (map erase_obj (Objects m)) (NumFixedObjects m) (MaxAlignment m)
    (StackProtectorIdx m) (UseLocalStackAllocationBlock m) (LocalFrameMaxAlign m)
    (LocalFrameObjects m) (LocalFrameSize m) (AdjustsStackFlag m)
    (MaxCallFrameSizeVal m) (HasVarSizedObjects m) 0 (CSInfo m).

(** A live, non-fixed object of positive size. *)
Definition relevant (m : MachineFrameInfo) (j : Z) : Prop :=
  0 <= j < getObjectIndexEnd m /\ isDeadObjectIndex m j = false /\ 0 < getObjectSize m j.

(** The byte ranges [[a, a+sa)] and [[b, b+sb)] do not overlap. *)
Definition disjoint (a sa b sb : Z) : Prop := a + sa <= b \/ b + sb <= a.

(** Sizes are non-negative, alignments positive. *)
Definition objects_wf (m : MachineFrameInfo) : Prop :=
  forall o, In o (Objects m) -> 0 <= Size o /\ 1 <= Alignment o.

(** What LocalStackSlotAllocation leaves for this pass when it made a
    local block: the entries fit the block, relevant entries do not overlap,
    and every relevant pre-allocated object has an entry. *)
Definition local_block_wf (down : bool) (m : MachineFrameInfo) : Prop :=
  UseLocalStackAllocationBlock m = true ->
  1 <= LocalFrameMaxAlign m /\ 0 <= LocalFrameSize m /\
  (forall j e, In (j, e) (LocalFrameObjects m) -> relevant m j ->
     if down then - LocalFrameSize m <= e /\ e + getObjectSize m j <= 0
     else 0 <= e /\ e + getObjectSize m j <= LocalFrameSize m) /\
  (forall j e j' e', In (j, e) (LocalFrameObjects m) -> In (j', e') (LocalFrameObjects m) ->
     j <> j' -> relevant m j -> relevant m j' ->
     disjoint e (getObjectSize m j) e' (getObjectSize m j')) /\
  (forall j, relevant m j -> isObjectPreAllocated m j = true ->
     exists e, In (j, e) (LocalFrameObjects m)).

(** An alignment as LLVM has them: a power of two below 2^32. *)
Definition good_align (a : Z) : Prop := exists k, 0 <= k <= 31 /\ a = 2 ^ k.

Definition align_wf (T : TargetInfo) (m : MachineFrameInfo) : Prop :=
  (forall o, In o (Objects m) -> 0 <= Size o /\ good_align (Alignment o)) /\
  (MaxAlignment m = 0 \/ good_align (MaxAlignment m)) /\
  good_align (StackAlignment T) /\ good_align (TransientStackAlignment T) /\
  (UseLocalStackAllocationBlock m = true ->
     0 <= LocalFrameSize m /\ good_align (LocalFrameMaxAlign m)) /\
  0 <= MaxCallFrameSizeVal m.

(** The ranges MachineFrameInfo keeps its fields in: sizes are unsigned,
    the alignments the rounding divides by are non-zero, the local block
    has a non-zero alignment and a non-negative size, and the maximum
    call-frame size is unsigned. *)
Definition ranges_wf (m : MachineFrameInfo) : Prop :=
  objects_wf m /\
  (UseLocalStackAllocationBlock m = true ->
     1 <= LocalFrameMaxAlign m /\ 0 <= LocalFrameSize m) /\
  0 <= MaxCallFrameSizeVal m.

(** Frame index [i] is in range and its object is live. *)
Definition live_index (m : MachineFrameInfo) (i : Z) : Prop :=
  exists o, getObject m i = Some o /\ isDead o = false.

(** ... and its alignment is not 0. *)
Definition placeable (m : MachineFrameInfo) (i : Z) : Prop :=
  exists o, getObject m i = Some o /\ isDead o = false /\ Alignment o <> 0.

(** What the frame must satisfy for offset assignment to run without a
    fault: the local area offset can be negated, the fixed objects whose
    offsets are read are live, the callee-saved and scavenging slots and
    the stack protector slot can be placed, the local block has a
    non-zero alignment and its entries are live, and every live ordinary
    object has a non-zero alignment. *)
Definition layout_inputs_ok (T : TargetInfo) (P : PEIState) (m : MachineFrameInfo) : Prop :=
  (StackGrowsDown T = true -> OffsetOfLocalArea T <> - 2 ^ 31) /\
  (forall i, In i (zrange (getObjectIndexBegin m) (NumFixedObjects m)) -> live_index m i) /\
  (forall i, In i (csr_order (StackGrowsDown T) P) -> placeable m i) /\
  (forall sfis, RS P = Some sfis -> forall i, In i sfis -> placeable m i) /\
  (0 <= StackProtectorIdx m -> placeable m (StackProtectorIdx m)) /\
  (UseLocalStackAllocationBlock m = true ->
     LocalFrameMaxAlign m <> 0 /\ forall e, In e (LocalFrameObjects m) -> live_index m (fst e)) /\
  (forall i o, 0 <= i -> getObject m i = Some o -> isDead o = false -> Alignment o <> 0).

(** [LocalAreaOffset] after its sign adjustment. *)
Definition local_area_offset (T : TargetInfo) : Z :=
  if StackGrowsDown T then - OffsetOfLocalArea T else OffsetOfLocalArea T.

(** The [StackAlign] of the final rounding. *)
Definition resolved_alignment (T : TargetInfo) (P : PEIState)
  (SSPLayout : Z -> SSPLayoutKind) (MFI : MachineFrameInfo) : Z :=
  match calc_layout T P SSPLayout MFI with
  | Some (s, _) => resolved_stack_align T s
  | None => 1
  end.

(** Invariants of the layout phases. *)
Definition frontier (down : bool) (O off sz : Z) : Prop :=
  if down then - O <= off else off + sz <= O.

Definition layout_inv (down : bool) (m0 : MachineFrameInfo) (placed : Z -> Prop)
  (s : LayoutState) : Prop :=
  erase (ls_mfi s) = erase m0 /\ 0 <= ls_Offset s /\
  (forall j, relevant m0 j -> placed j ->
     frontier down (ls_Offset s) (getObjectOffset (ls_mfi s) j) (getObjectSize m0 j)) /\
  (forall j k, j <> k -> relevant m0 j -> relevant m0 k -> placed j -> placed k ->
     disjoint (getObjectOffset (ls_mfi s) j) (getObjectSize m0 j)
              (getObjectOffset (ls_mfi s) k) (getObjectSize m0 k)).

Definition mono_inv (m0 : MachineFrameInfo) (Omin : Z) (s : LayoutState) : Prop :=
  erase (ls_mfi s) = erase m0 /\ Omin <= ls_Offset s /\
  (good_align (ls_MaxAlign s) \/ ls_MaxAlign s = 0).

(** The layout keeps the frame's shape and has not gone below [L]. *)
Definition grow_inv (m0 : MachineFrameInfo) (L : Z) (s : LayoutState) : Prop :=
  erase (ls_mfi s) = erase m0 /\ L <= ls_Offset s.

(** Two runs in lock step: every offset of the second run equals the first
    run's, or both are still the ones they started from; the first run
    leaves the fixed objects alone. *)
Definition sim (a0 b0 : MachineFrameInfo) (s t : LayoutState) : Prop :=
  ls_Offset s = ls_Offset t /\ ls_MaxAlign s = ls_MaxAlign t /\
  erase (ls_mfi s) = erase a0 /\ erase (ls_mfi t) = erase a0 /\
  (forall i, getObjectOffset (ls_mfi t) i = getObjectOffset (ls_mfi s) i \/
     (getObjectOffset (ls_mfi s) i = getObjectOffset a0 i /\
      getObjectOffset (ls_mfi t) i = getObjectOffset b0 i)) /\
  (forall i, i < 0 -> getObjectOffset (ls_mfi s) i = getObjectOffset a0 i).


(** *** Frame-index replacement *)

(** Blocks reachable from the entry block along successor edges. *)
Inductive cfg_reachable (Fn : MachineFunction) : nat -> Prop :=
| reach_entry : cfg_reachable Fn 0
| reach_succ (a b : nat) :
    cfg_reachable Fn a -> In b (Succs (getBlock Fn a)) -> cfg_reachable Fn b.

(** The [k]-th visit [v] of the depth-first walk: its path ends at the
    block; an empty path prefix is the entry block, entered with adjustment
    0; otherwise the block before it on the path is a predecessor in the
    CFG, visited earlier, whose recorded exit adjustment is the one the
    block is entered with. *)
Definition dfs_visit_ok (Fn : MachineFunction) (log : list BlockVisit) (k : nat)
  (v : BlockVisit) : Prop :=
  exists pre, v_path v = pre ++ [v_block v] /\
  (pre = [] -> v_block v = 0%nat /\ v_SPAdjIn v = 0) /\
  (forall pre' p, pre = pre' ++ [p] ->
     exists k' w, (k' < k)%nat /\ log !! k' = Some w /\ v_block w = p /\
       In (v_block v) (Succs (getBlock Fn p)) /\ v_SPAdjIn v = v_SPAdjOut w).

(** Invariant of the walk: successor lists of the original function [Fn0]
    are kept; the log lists the reached blocks in order, once each, with
    their recorded exit adjustments; every stacked node is reached and its
    pending children are among its successors. *)
Definition dfs_inv (Fn0 F : MachineFunction) (stack : list (nat * list nat))
  (R : list nat) (SP : nat -> Z) (log : list BlockVisit) : Prop :=
  (forall c, Succs (getBlock F c) = Succs (getBlock Fn0 c)) /\
  map v_block log = rev R /\ List.NoDup R /\
  (forall v, In v log -> SP (v_block v) = v_SPAdjOut v) /\
  (forall k v, log !! k = Some v -> dfs_visit_ok Fn0 log k v) /\
  (forall b, In b R -> cfg_reachable Fn0 b) /\
  (forall n cs, In (n, cs) stack ->
     In n R /\ forall c, In c cs -> In c (Succs (getBlock Fn0 n))).

(** *** Callee-saved slots *)

(** The slot a callee-saved record names, by the case of
    calculateCalleeSavedRegisters that made it: a reserved slot, the
    target's fixed slot for the register, or a fresh spill slot. *)
Definition csr_slot_ok (C : CSRTarget) (m : MachineFrameInfo) (ci : CalleeSavedInfo) : Prop :=
  let Reg := CSReg ci in
  match hasReservedSpillSlot C Reg with
  | Some FrameIdx => CSFrameIdx ci = FrameIdx
  | None =>
      match find (fun fs => fst fs =? Reg) (FixedSpillSlots C) with
      | Some fs => CSFrameIdx ci < 0 /\
          getObject m (CSFrameIdx ci)
          = Some (mkStackObject (snd fs) (RegClassSize C Reg)
                    (MinAlign (snd fs mod 2 ^ 64) (CSRStackAlignment C) mod 2 ^ 32)
                    true false false false)
      | None =>
          getObject m (CSFrameIdx ci)
          = Some (mkStackObject 0 (RegClassSize C Reg)
                    (Z.min (RegClassAlignment C Reg) (CSRStackAlignment C)) false true false false)
      end
  end.

(** The callee-saved range while slots are created from index [E0] on:
    empty (INT_MAX, 0) or exactly the new indices, all spill slots. *)
Definition cs_range (E0 : Z) (m : MachineFrameInfo) (MinCS MaxCS : Z) : Prop :=
  E0 <= getObjectIndexEnd m /\
  ((getObjectIndexEnd m = E0 /\ MinCS = INT_MAX /\ MaxCS = 0) \/
   (E0 < getObjectIndexEnd m /\ MinCS = E0 /\ MaxCS = getObjectIndexEnd m - 1)) /\
  (forall i, E0 <= i < getObjectIndexEnd m ->
     exists o, getObject m i = Some o /\ isSpillSlot o = true).

(** Object [j] at offset [off] is on the far side of the stack protector
    slot, placed at [vsp], from the incoming stack pointer. *)
Definition below_protector (down : bool) (m0 : MachineFrameInfo) (vsp off j : Z) : Prop :=
  if down then off + getObjectSize m0 j <= vsp
  else vsp + getObjectSize m0 (StackProtectorIdx m0) <= off.

(** Layout after the stack protector slot has been placed at [vsp]:
    the slot stays there, [Offset] is past it, and the objects of [B]
    placed since are beyond it. *)
Definition prot_inv (down : bool) (m0 : MachineFrameInfo) (vsp : Z) (B : Z -> Prop)
  (s : LayoutState) : Prop :=
  erase (ls_mfi s) = erase m0 /\
  getObjectOffset (ls_mfi s) (StackProtectorIdx m0) = vsp /\
  (if down then - vsp <= ls_Offset s
   else vsp + getObjectSize m0 (StackProtectorIdx m0) <= ls_Offset s) /\
  (forall j, B j -> j <> StackProtectorIdx m0 ->
     0 <= j + Z.of_nat (NumFixedObjects m0) < Z.of_nat (length (Objects m0)) ->
     below_protector down m0 vsp (getObjectOffset (ls_mfi s) j) j).

(** The objects of [B] (within the table) sit at multiples of their
    alignment. *)
Definition aligned_inv (m0 : MachineFrameInfo) (B : Z -> Prop) (s : LayoutState) : Prop :=
  erase (ls_mfi s) = erase m0 /\
  (forall j, B j ->
     0 <= j + Z.of_nat (NumFixedObjects m0) < Z.of_nat (length (Objects m0)) ->
     getObjectOffset (ls_mfi s) j mod getObjectAlignment m0 j = 0).

(** The adjustment a call-frame pseudo contributes to SPAdj in
    [replaceFrameIndices(MBB, Fn, SPAdj)]. *)
Definition pseudo_adjust (H : TargetHooks) (down : bool) (mi : MachineInstr) : Z :=
  let Size0 := to_int32 (getImm mi 0) in
  if (negb down && (opcode mi =? FrameSetupOpcode H))
     || (down && (opcode mi =? FrameDestroyOpcode H))
  then - Size0 else Size0.

(** Frame-index replacement so far: the function keeps its blocks, the
    visits name distinct blocks, a block not visited yet is untouched,
    and a visited block holds the rewrite of its original instructions
    with the visit's entry adjustment, which also gave the visit's exit
    adjustment and frame references. *)
Definition rewrite_inv (H : TargetHooks) (down : bool) (Fn0 F : MachineFunction)
  (vs : list BlockVisit) : Prop :=
  (length F = length Fn0)%nat /\
  (forall b, Succs (getBlock F b) = Succs (getBlock Fn0 b)) /\
  List.NoDup (map v_block vs) /\
  (forall b, ~ In b (map v_block vs) -> getBlock F b = getBlock Fn0 b) /\
  (forall v, In v vs -> (v_block v < length Fn0)%nat /\
     replaceFrameIndicesBB H down (Insts (getBlock Fn0 (v_block v))) (v_SPAdjIn v)
     = (Insts (getBlock F (v_block v)), v_SPAdjOut v, v_frameRefs v)).

Definition mk_obj (size align : Z) : StackObject :=
  mkStackObject 0 size align false false false false.

Definition empty_mfi (os : list StackObject) : MachineFrameInfo :=
  mkMFI os 0 1 (-1) false 0 [] 0 false 0 false 0 [].

Definition down16 (lao : Z) : TargetInfo :=
  mkTarget true 16 16 lao false true false false false false.

Definition two_objects : MachineFrameInfo := empty_mfi [mk_obj 4 4; mk_obj 8 8].

Definition no_csr : PEIState := mkPEI INT_MAX 0 None.

Definition test_hooks : TargetHooks :=
  mkHooks 100 101 false (fun _ => [mkMI 7 [] false false]) (fun mi _ => [mi])
    (fun fi => (8 * fi, 6)).

Definition two_blocks : MachineFunction :=
  [ mkMBB [mkMI 100 [MO_Immediate 16] false false; mkMI 9 [] true false] [1%nat];
    mkMBB [mkMI 20 [MO_FrameIndex 0] false false; mkMI 101 [MO_Immediate 16] false false;
           mkMI 30 [] true true] [] ].

(** Entry, a middle block with a frame reference, and a return block. *)
Definition three_blocks : MachineFunction :=
  [ mkMBB [mkMI 100 [MO_Immediate 16] false false; mkMI 9 [] true false] [1%nat];
    mkMBB [mkMI 20 [MO_FrameIndex 0] false false; mkMI 9 [] true false] [2%nat];
    mkMBB [mkMI 101 [MO_Immediate 16] false false; mkMI 30 [] true true] [] ].

Definition calls_test_fn : MachineFunction :=
  [ mkMBB [mkMI 100 [MO_Immediate 16] false false; mkMI 101 [MO_Immediate 16] false false;
           mkMI 100 [MO_Immediate 32] false false] [] ].

Definition csr_test_hooks : CSRHooks :=
  mkCSRHooks None None (fun r _ => [mkMI 50 [MO_Register r] false false])
                       (fun r _ => [mkMI 60 [MO_Register r] false false]).

Definition csr_test_mfi : MachineFrameInfo :=
  setCalleeSavedInfo (empty_mfi []) [mkCalleeSavedInfo 5 0; mkCalleeSavedInfo 6 1].

(** A frame with one fixed object (index -1, at SP-8) and one local. *)
Definition fixed_mfi : MachineFrameInfo :=
  mkMFI [mkStackObject (-8) 8 8 false false false false; mk_obj 4 4] 1 8 (-1) false 0 [] 0
    false 0 false 0 [].

(** A frame with a stack protector slot (index 0) and a 16-byte local. *)
Definition protected_mfi : MachineFrameInfo :=
  mkMFI [mk_obj 8 8; mk_obj 16 4] 0 8 0 false 0 [] 0 false 0 false 0 [].

(** MachineFrameInfo as it is created: no objects, no alignment recorded. *)
Definition bare_mfi : MachineFrameInfo :=
  mkMFI [] 0 0 (-1) false 0 [] 0 false 0 false 0 [].

(** A frame whose function has calls with 24 bytes of outgoing arguments. *)
Definition calls_mfi : MachineFrameInfo :=
  mkMFI [mk_obj 4 4] 0 4 (-1) false 0 [] 0 true 24 false 0 [].

(** A target with callee-saved registers 1, 2, 3, of which 1 and 3 are
    written; register 3 has a fixed slot at SP-16. *)
Definition csr_target : CSRTarget :=
  mkCSRTarget [1; 2; 3] (fun r => (r =? 1) || (r =? 3)) false false (fun _ => None)
    [(3, -16)] (fun _ => 8) (fun _ => 8) 16.

Example roundtrip_single_local :
  option_map (fun m => (StackSizeVal m, getObjectOffset m 0))
    (calculateFrameObjectOffsets (down16 0) no_csr (fun _ => SSPLK_None)
       (empty_mfi [mk_obj 4 4]))
  = Some (16, -4).
Proof. reflexivity. Qed.

Example dfs_two_blocks :
  let '(_, log, log2) := replaceFrameIndices test_hooks true (empty_mfi [mk_obj 4 4]) two_blocks in
  (map v_SPAdjIn log, map v_frameRefs log, map v_SPAdjOut log, log2) =
  ([0; 16], [[]; [(0, 16)]], [16; 0], []).
Proof. reflexivity. Qed.

(* ------------------------------------------------------------------ *)
(** ** Rounding *)

Lemma align_to_spec (x a : Z) : 0 <= x -> 0 < a -> align_to x a = spec_round_up x a.
Proof.
  intros Hx Ha. unfold align_to, spec_round_up.
  rewrite Z.quot_div_nonneg by lia.
  pose proof (Z.div_mod x a ltac:(lia)) as Hd.
  pose proof (Z.mod_pos_bound x a Ha) as Hb.
  set (q := x / a) in *. set (r := x mod a) in *.
  destruct (Z.eq_dec r 0) as [E|E].
  - rewrite E, Z.sub_0_r, Z_mod_same_full.
    assert (Hq : (x + a - 1) / a = q).
    { symmetry. apply (Z.div_unique _ _ _ (a - 1)); lia. }
    rewrite Hq. lia.
  - assert (Hq : (x + a - 1) / a = q + 1).
    { symmetry. apply (Z.div_unique _ _ _ (r - 1)); lia. }
    rewrite Hq, (Z.mod_small (a - r) a) by lia. lia.
Qed.

Lemma align_to_ge (x a : Z) : 0 <= x -> 1 <= a -> x <= align_to x a.
Proof.
  intros Hx Ha. rewrite align_to_spec by lia. unfold spec_round_up.
  pose proof (Z.mod_pos_bound (a - x mod a) a ltac:(lia)). lia.
Qed.

Lemma align_to_mod (x a : Z) : 0 <= x -> 1 <= a -> align_to x a mod a = 0.
Proof.
  intros Hx Ha. unfold align_to. apply Z.mod_mul. lia.
Qed.

(* ------------------------------------------------------------------ *)
(** ** C2: the placement helper *)

(** C2: AdjustStackOffset is the spec's "place one object": going down it
    adds the size, rounds up to the alignment and records the negated
    value; going up it rounds up, records the value and adds the size;
    MaxAlign becomes the maximum of itself and the alignment.  The
    running offset is non-negative at every call (it starts at the
    asserted non-negative local area offset and only grows). *)
Theorem AdjustStackOffset_as_specified (down : bool) (s : LayoutState) (fi : Z) :
  0 <= ls_Offset s ->
  0 <= getObjectSize (ls_mfi s) fi ->
  1 <= getObjectAlignment (ls_mfi s) fi ->
  AdjustStackOffset down s fi = spec_place down s fi.
Proof.
  intros Ho Hs Ha. unfold AdjustStackOffset, spec_place.
  destruct down; rewrite align_to_spec by lia; reflexivity.
Qed.

Lemma AdjustStackOffset_as_specified_witness :
  AdjustStackOffset true (mkLS (empty_mfi [mk_obj 4 4]) 6 1) 0
  = spec_place true (mkLS (empty_mfi [mk_obj 4 4]) 6 1) 0.
Proof.
  apply AdjustStackOffset_as_specified; vm_compute; congruence.
Defined.

(* ------------------------------------------------------------------ *)
(** ** C10: no stack objects *)

(** C10: without stack objects, frame-index replacement returns at once:
    the function is unchanged (its call-frame pseudos are neither
    counted nor eliminated) and no block is processed. *)
Theorem replaceFrameIndices_no_objects (H : TargetHooks) (down : bool)
  (MFI : MachineFrameInfo) (Fn : MachineFunction) :
  hasStackObjects MFI = false ->
  replaceFrameIndices H down MFI Fn = (Fn, [], []).
Proof. intros Hn. unfold replaceFrameIndices. rewrite Hn. reflexivity. Qed.

Lemma replaceFrameIndices_no_objects_witness :
  hasStackObjects (empty_mfi []) = false /\
  replaceFrameIndices test_hooks true (empty_mfi []) two_blocks = (two_blocks, [], []).
Proof. split; [reflexivity | apply replaceFrameIndices_no_objects; reflexivity]. Defined.

(* ------------------------------------------------------------------ *)
(** ** C5: call-frame information *)

Lemma land_2_testbit (x : Z) : (Z.land x Extra_IsAlignStack =? 0) = negb (Z.testbit x 1).
Proof.
  assert (E : Z.land x 2 = if Z.testbit x 1 then 2 else 0).
  { apply Z.bits_inj'. intros n Hn. rewrite Z.land_spec.
    destruct (Z.testbit x 1) eqn:Eb; [|rewrite Z.bits_0];
      change 2 with (2 ^ 1); rewrite ?Z.pow2_bits_eqb by lia;
      (destruct (Z.eqb_spec 1 n); [subst; rewrite Eb; reflexivity | apply andb_false_r]). }
  unfold Extra_IsAlignStack. rewrite E. destruct (Z.testbit x 1); reflexivity.
Qed.

Lemma requires_stack_alignment_unsigned (mi : MachineInstr) :
  (Z.land (to_unsigned32 (getImm mi MIOp_ExtraInfo)) Extra_IsAlignStack =? 0)
  = negb (requires_stack_alignment mi).
Proof.
  rewrite land_2_testbit. unfold to_unsigned32, requires_stack_alignment.
  rewrite Z.mod_pow2_bits_low by lia. reflexivity.
Qed.

Lemma max_list_nonneg (l : list Z) : 0 <= max_list l.
Proof. induction l; simpl; lia. Qed.

Lemma calls_fold (H : TargetHooks) (l : list MachineInstr) (mx : Z) (adj : bool) :
  0 <= mx ->
  (forall mi, In mi l -> is_frame_pseudo H mi = true -> 0 <= getImm mi 0 < 2 ^ 32) ->
  fold_left (calls_step H) l (mx, adj) =
  (Z.max mx (max_list (map (fun mi => getImm mi 0) (List.filter (is_frame_pseudo H) l))),
   adj || existsb (is_frame_pseudo H) l
       || existsb (fun mi => isInlineAsm mi && requires_stack_alignment mi) l).
Proof.
  revert mx adj. induction l as [|mi l IH]; intros mx adj Hmx Himm.
  - simpl. f_equal; [lia | destruct adj; reflexivity].
  - cbn [fold_left List.filter map existsb]. unfold calls_step at 2.
    destruct (is_frame_pseudo H mi) eqn:Ep.
    + assert (Hr : to_unsigned32 (getImm mi 0) = getImm mi 0).
      { unfold to_unsigned32. apply Z.mod_small. apply Himm; [left|]; auto. }
      rewrite Hr, IH.
      * simpl. f_equal; [|btauto].
        destruct (Z.ltb_spec mx (getImm mi 0)); lia.
      * pose proof (Himm mi (or_introl eq_refl) Ep).
        destruct (Z.ltb_spec mx (getImm mi 0)); lia.
      * intros mi' Hin. apply Himm. right. exact Hin.
    + destruct (isInlineAsm mi) eqn:Ea.
      * rewrite requires_stack_alignment_unsigned, IH;
          [| lia | intros mi' Hin; apply Himm; right; exact Hin].
        f_equal; destruct (requires_stack_alignment mi); simpl; btauto.
      * rewrite IH; [| lia | intros mi' Hin; apply Himm; right; exact Hin].
        f_equal; simpl; btauto.
Qed.

(** C5: when the target has a call-frame setup or destroy opcode,
    MaxCallFrameSize becomes the largest byte count of the call-frame
    pseudos (0 if there are none) and AdjustsStack becomes its old value
    or-ed with the existence of a call-frame pseudo and of an inline-asm
    instruction marked as requiring stack alignment.  The byte counts are
    the unsigned 32-bit operands of the pseudos. *)
Theorem calculateCallsInformation_summary (H : TargetHooks) (Fn : MachineFunction)
  (MFI : MachineFrameInfo) :
  (FrameSetupOpcode H <> -1 \/ FrameDestroyOpcode H <> -1) ->
  (forall mi, In mi (all_insts Fn) -> is_frame_pseudo H mi = true ->
              0 <= getImm mi 0 < 2 ^ 32) ->
  MaxCallFrameSizeVal (snd (calculateCallsInformation H Fn MFI))
    = max_list (map (fun mi => getImm mi 0) (List.filter (is_frame_pseudo H) (all_insts Fn))) /\
  AdjustsStackFlag (snd (calculateCallsInformation H Fn MFI))
    = AdjustsStackFlag MFI || existsb (is_frame_pseudo H) (all_insts Fn)
      || existsb (fun mi => isInlineAsm mi && requires_stack_alignment mi) (all_insts Fn).
Proof.
  intros Hop Himm. unfold calculateCallsInformation.
  replace ((FrameSetupOpcode H =? -1) && (FrameDestroyOpcode H =? -1)) with false
    by (destruct Hop as [E|E]; apply Z.eqb_neq in E; rewrite E;
        [reflexivity | symmetry; apply andb_false_r]).
  fold (all_insts Fn). rewrite calls_fold by (auto; lia).
  simpl. split; [|reflexivity].
  pose proof (max_list_nonneg (map (fun mi => getImm mi 0)
                                 (List.filter (is_frame_pseudo H) (all_insts Fn)))). lia.
Qed.

Lemma calculateCallsInformation_summary_witness :
  MaxCallFrameSizeVal (snd (calculateCallsInformation test_hooks calls_test_fn (empty_mfi [])))
    = 32 /\
  (MaxCallFrameSizeVal (snd (calculateCallsInformation test_hooks calls_test_fn (empty_mfi [])))
    = max_list (map (fun mi => getImm mi 0)
                  (List.filter (is_frame_pseudo test_hooks) (all_insts calls_test_fn))) /\
   AdjustsStackFlag (snd (calculateCallsInformation test_hooks calls_test_fn (empty_mfi [])))
    = AdjustsStackFlag (empty_mfi []) || existsb (is_frame_pseudo test_hooks) (all_insts calls_test_fn)
      || existsb (fun mi => isInlineAsm mi && requires_stack_alignment mi) (all_insts calls_test_fn)).
Proof.
  split; [reflexivity|].
  apply calculateCallsInformation_summary.
  - left. vm_compute. congruence.
  - intros mi Hin _. vm_compute in Hin.
    destruct Hin as [<-|[<-|[<-|[]]]]; vm_compute; split; congruence.
Defined.

(* ------------------------------------------------------------------ *)
(** ** C6: callee-saved register selection *)

Lemma assign_slots_regs (C : CSRTarget) (st : MachineFrameInfo * Z * Z) (regs : list Z) :
  map CSReg (snd (assign_slots C st regs)) = regs.
Proof.
  revert st. induction regs as [|r rs IH]; intros st; [reflexivity|].
  simpl. destruct (assign_slot C st r) as [st1 ci] eqn:E1.
  destruct (assign_slots C st1 rs) as [st2 cis] eqn:E2. simpl.
  specialize (IH st1). rewrite E2 in IH. simpl in IH. rewrite IH. f_equal.
  unfold assign_slot in E1. destruct st as [[m mn] mx].
  destruct (hasReservedSpillSlot C r); [inversion E1; reflexivity|].
  destruct (find _ _) as [fs|].
  - destruct (CreateFixedObject _ _ _ _ _); inversion E1; reflexivity.
  - destruct (CreateStackObject _ _ _ _); inversion E1; reflexivity.
Qed.

(** C6: for a function that is not naked, the callee-saved records are
    one per register of the target's list (in its order) that is written
    or, when the function calls the unwind initializer, one per listed
    register; when no register qualifies nothing is created.  For a naked
    function the frame is left as it is: no record and no object. *)
Theorem calculateCalleeSavedRegisters_records (C : CSRTarget) (m : MachineFrameInfo) :
  let '(m', _, _) := calculateCalleeSavedRegisters C m in
  (isNaked C = true -> m' = m) /\
  (isNaked C = false ->
   let selected := List.filter (fun r => isPhysRegUsed C r || callsUnwindInit C) (CSRegs C) in
   (selected <> [] /\ map CSReg (CSInfo m') = selected) \/ (selected = [] /\ m' = m)).
Proof.
  unfold calculateCalleeSavedRegisters.
  change (fun r => isPhysRegUsed C r || callsUnwindInit C) with (csr_selected C).
  destruct (CSRegs C) as [|r0 rs] eqn:Eregs.
  - simpl. split; [auto|]. intros _. right. split; reflexivity.
  - destruct (isNaked C) eqn:En.
    + simpl. split; [auto | discriminate].
    + destruct (List.filter (csr_selected C) (r0 :: rs)) as [|c cs] eqn:Ef.
      * simpl. split; [discriminate|]. intros _. right. split; reflexivity.
      * destruct (assign_slots C (m, INT_MAX, 0) (c :: cs)) as [st infos] eqn:Ea.
        destruct st as [[m' mn] mx]. simpl. split; [discriminate|]. intros _.
        left. split; [discriminate|].
        pose proof (assign_slots_regs C (m, INT_MAX, 0) (c :: cs)) as Hr.
        rewrite Ea in Hr. exact Hr.
Qed.

(* ------------------------------------------------------------------ *)
(** ** Restore insertion *)

Lemma trailing_terminators_le (l : list MachineInstr) :
  (trailing_terminators l <= length l)%nat.
Proof.
  induction l as [|x r IH]; simpl; [lia|].
  destruct (isTerminator x && forallb isTerminator r); simpl; lia.
Qed.

Lemma trailing_terminators_all (l : list MachineInstr) :
  trailing_terminators l = length l -> forallb isTerminator l = true.
Proof.
  destruct l as [|x r]; [reflexivity|]. simpl.
  destruct (isTerminator x && forallb isTerminator r) eqn:E; [reflexivity|].
  pose proof (trailing_terminators_le r). simpl in *; lia.
Qed.

Lemma trailing_terminators_suffix (l : list MachineInstr) (p : nat) :
  (length l - trailing_terminators l <= p < length l)%nat ->
  exists mi, l !! p = Some mi /\ isTerminator mi = true.
Proof.
  revert p; induction l as [|x r IH]; intros p Hp; simpl in *; [lia|].
  destruct (isTerminator x && forallb isTerminator r) eqn:E.
  - apply andb_true_iff in E as [Ex Er].
    destruct p as [|p]; simpl; [eauto|].
    destruct (r !! p) as [mi|] eqn:Ep.
    + exists mi; split; [reflexivity|].
      apply list_elem_of_lookup_2 in Ep.
      rewrite forallb_forall in Er. apply Er.
      now apply list_elem_of_In.
    + apply lookup_ge_None in Ep. simpl in Hp. lia.
  - pose proof (trailing_terminators_le r).
    destruct p as [|p]; [lia|]. simpl. apply IH. lia.
Qed.

Lemma trailing_terminators_boundary (l : list MachineInstr) :
  (trailing_terminators l < length l)%nat ->
  exists mi, l !! (length l - trailing_terminators l - 1)%nat = Some mi /\
             isTerminator mi = false.
Proof.
  induction l as [|x r IH]; intros H; simpl in *; [lia|].
  destruct (isTerminator x && forallb isTerminator r) eqn:E; simpl in H; [lia|].
  pose proof (trailing_terminators_le r).
  destruct (Nat.eq_dec (trailing_terminators r) (length r)) as [Eq|Ne].
  - apply trailing_terminators_all in Eq as Ea. rewrite Ea, andb_true_r in E.
    replace (S (length r) - trailing_terminators r - 1)%nat with O by lia.
    simpl. eauto.
  - destruct IH as [mi [Hl Ht]]; [lia|].
    replace (S (length r) - trailing_terminators r - 1)%nat
      with (S (length r - trailing_terminators r - 1)) by lia.
    simpl. eauto.
Qed.

Lemma walk_back_trailing (l : list MachineInstr) (J : nat) :
  (length l - trailing_terminators l <= J < length l)%nat ->
  walk_back l J J = (length l - trailing_terminators l)%nat.
Proof.
  induction J as [|J IH]; intros HJ; simpl; [lia|].
  destruct (Nat.le_gt_cases (length l - trailing_terminators l) J) as [Hle|Hgt].
  - destruct (trailing_terminators_suffix l J) as [mi [Hl Ht]]; [lia|].
    rewrite Hl, Ht. apply IH. lia.
  - assert (J = (length l - trailing_terminators l - 1)%nat) as -> by lia.
    destruct (trailing_terminators_boundary l) as [mi [Hl Ht]]; [lia|].
    rewrite Hl, Ht. lia.
Qed.

Lemma restore_point_trailing (l : list MachineInstr) (mi : MachineInstr) :
  last l = Some mi -> isTerminator mi = true ->
  restore_point l = (length l - trailing_terminators l)%nat /\
  (1 <= trailing_terminators l)%nat.
Proof.
  intros Hlast Ht.
  rewrite last_lookup in Hlast.
  assert (Hlen : (0 < length l)%nat)
    by (destruct l; [discriminate | simpl; lia]).
  assert (Hone : (1 <= trailing_terminators l)%nat).
  { destruct (Nat.le_gt_cases (trailing_terminators l) 0) as [H0|]; [|lia].
    destruct (trailing_terminators_boundary l) as [mi' [Hl Ht']]; [lia|].
    replace (length l - trailing_terminators l - 1)%nat with (pred (length l)) in Hl by lia.
    congruence. }
  split; [|exact Hone].
  unfold restore_point. pose proof (trailing_terminators_le l).
  apply walk_back_trailing. lia.
Qed.

Lemma insert_before_nil {A} (k : nat) (l : list A) : insert_before k [] l = l.
Proof. unfold insert_before. simpl. apply take_drop. Qed.

Lemma insert_before_twice {A} (k : nat) (xs ys l : list A) :
  (k <= length l)%nat ->
  insert_before k xs (insert_before k ys l) = insert_before k (xs ++ ys) l.
Proof.
  intros Hk. unfold insert_before.
  assert (Ht : length (take k l) = k) by (apply length_take_le; exact Hk).
  rewrite take_app_length' by (symmetry; exact Ht).
  rewrite drop_app_length' by (symmetry; exact Ht).
  rewrite <- app_assoc. reflexivity.
Qed.

Lemma restore_fold (R : CSRHooks) (CSI : list CalleeSavedInfo) (l acc : list MachineInstr)
  (k : nat) (J : nat) :
  (k <= length l)%nat -> J = k ->
  fold_left (fun (st : list MachineInstr * nat) ci =>
               let '(l', I') := st in
               (insert_before I' (loadRegFromStackSlot R (CSReg ci) (CSFrameIdx ci)) l', J))
            CSI (insert_before k acc l, k)
  = (insert_before k (concat (map (fun ci => loadRegFromStackSlot R (CSReg ci) (CSFrameIdx ci))
                                 (rev CSI)) ++ acc) l, k).
Proof.
  intros Hk ->. revert acc.
  induction CSI as [|ci rest IH]; intros acc; simpl; [reflexivity|].
  rewrite insert_before_twice by exact Hk. rewrite IH.
  rewrite map_app, concat_app. simpl. rewrite app_nil_r, <- app_assoc. reflexivity.
Qed.

Lemma restore_block_loads (R : CSRHooks) (CSI : list CalleeSavedInfo)
  (l : list MachineInstr) (mi : MachineInstr) :
  last l = Some mi -> isTerminator mi = true ->
  restoreCalleeSavedRegisters R = None ->
  let k := (length l - trailing_terminators l)%nat in
  restore_block R CSI l =
  take k l ++ concat (map (fun ci => loadRegFromStackSlot R (CSReg ci) (CSFrameIdx ci))
                          (rev CSI)) ++ drop k l.
Proof.
  intros Hlast Ht Hr k.
  destruct (restore_point_trailing l mi Hlast Ht) as [Hp _].
  unfold restore_block. rewrite Hr, Hp. fold k.
  assert (Hk : (k <= length l)%nat) by (unfold k; lia).
  replace (if Nat.eqb k 0 then O else S (k - 1)) with k
    by (destruct (Nat.eqb_spec k 0); lia).
  rewrite <- (insert_before_nil k l) at 1.
  rewrite restore_fold by (auto; lia).
  rewrite app_nil_r. reflexivity.
Qed.

Lemma spill_block_prefix (R : CSRHooks) (CSI : list CalleeSavedInfo) (l : list MachineInstr) :
  exists pre, spill_block R CSI l = pre ++ l.
Proof.
  unfold spill_block. destruct (spillCalleeSavedRegisters R) as [code|]; [eauto|].
  assert (Hgen : forall pre,
    exists pre', fst (fold_left (fun (st : list MachineInstr * nat) ci =>
             let '(l', Ip) := st in
             let code := storeRegToStackSlot R (CSReg ci) (CSFrameIdx ci) in
             (insert_before Ip code l', (Ip + length code)%nat)) CSI (pre ++ l, length pre))
       = pre' ++ l).
  { induction CSI as [|ci rest IH]; intros pre; simpl; [eauto|].
    set (code := storeRegToStackSlot R (CSReg ci) (CSFrameIdx ci)).
    replace (insert_before (length pre) code (pre ++ l)) with ((pre ++ code) ++ l)
      by (unfold insert_before; rewrite take_app_length, drop_app_length, app_assoc;
          reflexivity).
    rewrite <- length_app. apply IH. }
  apply (Hgen []).
Qed.

Lemma getBlock_setBlockInsts_eq (Fn : MachineFunction) (b : nat) (l : list MachineInstr) :
  (b < length Fn)%nat -> Insts (getBlock (setBlockInsts Fn b l) b) = l.
Proof.
  unfold getBlock, setBlockInsts. revert b.
  induction Fn as [|bb Fn IH]; intros [|b] Hb; simpl in *; try lia; [reflexivity|].
  apply IH. lia.
Qed.

Lemma getBlock_setBlockInsts_ne (Fn : MachineFunction) (b c : nat) (l : list MachineInstr) :
  b <> c -> getBlock (setBlockInsts Fn b l) c = getBlock Fn c.
Proof.
  unfold getBlock, setBlockInsts. revert b c.
  induction Fn as [|bb Fn IH]; intros [|b] [|c] Hbc; simpl; try reflexivity; [lia|].
  apply IH. lia.
Qed.

Lemma length_setBlockInsts (Fn : MachineFunction) (b : nat) (l : list MachineInstr) :
  length (setBlockInsts Fn b l) = length Fn.
Proof.
  unfold setBlockInsts. revert b.
  induction Fn as [|bb Fn IH]; intros [|b]; simpl; auto.
  f_equal. apply IH.
Qed.

Lemma restore_sweep (f : list MachineInstr -> list MachineInstr)
  (L : list nat) (F : MachineFunction) (b : nat) :
  NoDup L -> In b L -> (b < length F)%nat ->
  Insts (getBlock (fold_left (fun F c => setBlockInsts F c (f (Insts (getBlock F c)))) L F) b)
  = f (Insts (getBlock F b)).
Proof.
  assert (Hout : forall L F, ~ In b L ->
    getBlock (fold_left (fun F c => setBlockInsts F c (f (Insts (getBlock F c)))) L F) b
    = getBlock F b).
  { induction L0 as [|c L' IH]; intros F0 Hn; simpl; [reflexivity|].
    rewrite IH by (intro; apply Hn; right; assumption).
    apply getBlock_setBlockInsts_ne. intro; apply Hn; left; assumption. }
  revert F. induction L as [|c L' IH]; intros F Hnd Hin Hb; [destruct Hin|].
  inversion Hnd as [|? ? Hc Hnd']; subst. simpl.
  destruct Hin as [->|Hin].
  - rewrite Hout by (intro Hi; apply Hc; apply list_elem_of_In; exact Hi).
    apply getBlock_setBlockInsts_eq. exact Hb.
  - assert (c <> b) by (intros ->; apply Hc; apply list_elem_of_In; exact Hin).
    rewrite IH by (auto; rewrite length_setBlockInsts; exact Hb).
    rewrite getBlock_setBlockInsts_ne by assumption. reflexivity.
Qed.

Lemma ReturnBlocks_NoDup (Fn : MachineFunction) : NoDup (ReturnBlocks Fn).
Proof.
  apply NoDup_ListNoDup. unfold ReturnBlocks.
  apply List.NoDup_filter, seq_NoDup.
Qed.

Lemma ReturnBlocks_In (Fn : MachineFunction) (b : nat) :
  (b < length Fn)%nat -> isReturnBlock (getBlock Fn b) = true -> In b (ReturnBlocks Fn).
Proof.
  intros Hb Hr. unfold ReturnBlocks. apply List.filter_In. split; [|exact Hr].
  apply in_seq. lia.
Qed.

(** C7: when the bulk restore hook declines, every return block ends up with
    one load per callee-saved register, in reverse order of the callee-saved
    list, inserted right before the longest run of terminators that ends the
    block (the walk back past the trailing terminators); that run contains at
    least the return itself.  The block is taken as it stands after the spill
    code has been put into the entry block. *)
Theorem insertCSRSpillsAndRestores_restores (R : CSRHooks) (m : MachineFrameInfo)
  (Fn : MachineFunction) (b : nat)
  (Hcsi : CSInfo m <> [])
  (Hdecline : restoreCalleeSavedRegisters R = None)
  (Hb : (b < length Fn)%nat)
  (Hret : isReturnBlock (getBlock Fn b) = true)
  (Hterm : forall mi, last (Insts (getBlock Fn b)) = Some mi -> isTerminator mi = true) :
  let l := if Nat.eqb b 0 then spill_block R (CSInfo m) (Insts (getBlock Fn 0))
           else Insts (getBlock Fn b) in
  let k := (length l - trailing_terminators l)%nat in
  (1 <= trailing_terminators l)%nat /\
  Insts (getBlock (insertCSRSpillsAndRestores R m Fn) b) =
  take k l ++ concat (map (fun ci => loadRegFromStackSlot R (CSReg ci) (CSFrameIdx ci))
                          (rev (CSInfo m))) ++ drop k l.
Proof.
  intros l k.
  destruct (last (Insts (getBlock Fn b))) as [mi|] eqn:Hlast;
    [|unfold isReturnBlock in Hret; rewrite Hlast in Hret; discriminate].
  assert (Hl : last l = Some mi /\
               Insts (getBlock (setBlockInsts Fn 0 (spill_block R (CSInfo m)
                                  (Insts (getBlock Fn 0)))) b) = l).
  { unfold l. destruct (Nat.eqb_spec b 0) as [->|Hne].
    - split; [|apply getBlock_setBlockInsts_eq; exact Hb].
      destruct (spill_block_prefix R (CSInfo m) (Insts (getBlock Fn 0))) as [pre ->].
      rewrite last_app, Hlast. reflexivity.
    - split; [exact Hlast|]. rewrite getBlock_setBlockInsts_ne by lia. reflexivity. }
  destruct Hl as [Hll HFn1].
  specialize (Hterm mi eq_refl).
  destruct (restore_point_trailing l mi Hll Hterm) as [_ Hone].
  split; [exact Hone|].
  unfold insertCSRSpillsAndRestores.
  destruct (CSInfo m) as [|c cs] eqn:Ec; [contradiction|].
  rewrite <- Ec in *.
  rewrite restore_sweep.
  - rewrite HFn1. apply restore_block_loads with (mi := mi); assumption.
  - apply ReturnBlocks_NoDup.
  - apply ReturnBlocks_In; assumption.
  - rewrite length_setBlockInsts. exact Hb.
Qed.

Lemma insertCSRSpillsAndRestores_restores_witness :
  Insts (getBlock (insertCSRSpillsAndRestores csr_test_hooks csr_test_mfi two_blocks) 1) =
  [mkMI 20 [MO_FrameIndex 0] false false; mkMI 101 [MO_Immediate 16] false false;
   mkMI 60 [MO_Register 6] false false; mkMI 60 [MO_Register 5] false false;
   mkMI 30 [] true true] /\
  (let l := Insts (getBlock two_blocks 1) in
   let k := (length l - trailing_terminators l)%nat in
   (1 <= trailing_terminators l)%nat /\
   Insts (getBlock (insertCSRSpillsAndRestores csr_test_hooks csr_test_mfi two_blocks) 1) =
   take k l ++ concat (map (fun ci => loadRegFromStackSlot csr_test_hooks (CSReg ci) (CSFrameIdx ci))
                           (rev (CSInfo csr_test_mfi))) ++ drop k l).
Proof.
  split; [reflexivity|].
  apply (insertCSRSpillsAndRestores_restores csr_test_hooks csr_test_mfi two_blocks 1).
  - discriminate.
  - reflexivity.
  - simpl; lia.
  - reflexivity.
  - intros mi Hmi. vm_compute in Hmi. injection Hmi as <-. reflexivity.
Defined.

(* ------------------------------------------------------------------ *)
(** ** Frame access *)

Lemma lookup_map_option {A B} (f : A -> B) (l : list A) (p : nat) :
  map f l !! p = option_map f (l !! p).
Proof.
  revert p; induction l as [|x l IH]; intros [|p]; simpl; auto.
Qed.

Lemma lookup_alter_same {A} (f : A -> A) (l : list A) (p : nat) :
  alter f p l !! p = option_map f (l !! p).
Proof.
  revert p; induction l as [|x l IH]; intros [|p]; simpl; auto.
Qed.

Lemma lookup_alter_other {A} (f : A -> A) (l : list A) (p q : nat) :
  p <> q -> alter f p l !! q = l !! q.
Proof.
  revert p q; induction l as [|x l IH]; intros [|p] [|q] Hpq; simpl; auto; [lia|].
  apply IH. lia.
Qed.

Lemma map_alter_invisible {A B} (g : A -> B) (f : A -> A) (l : list A) (p : nat) :
  (forall x, g (f x) = g x) -> map g (alter f p l) = map g l.
Proof.
  intros Hg. revert p; induction l as [|x l IH]; intros [|p]; simpl; auto.
  - rewrite Hg. reflexivity.
  - f_equal. apply IH.
Qed.

Lemma getObject_erase (m : MachineFrameInfo) (i : Z) :
  getObject (erase m) i = option_map erase_obj (getObject m i).
Proof.
  unfold getObject, obj_pos. simpl.
  destruct (0 <=? i + Z.of_nat (NumFixedObjects m)); [|reflexivity].
  apply lookup_map_option.
Qed.

Lemma getObjectSize_erase (m : MachineFrameInfo) (i : Z) :
  getObjectSize (erase m) i = getObjectSize m i.
Proof. unfold getObjectSize. rewrite getObject_erase. destruct (getObject m i); reflexivity. Qed.

Lemma getObjectAlignment_erase (m : MachineFrameInfo) (i : Z) :
  getObjectAlignment (erase m) i = getObjectAlignment m i.
Proof. unfold getObjectAlignment. rewrite getObject_erase. destruct (getObject m i); reflexivity. Qed.

Lemma isDeadObjectIndex_erase (m : MachineFrameInfo) (i : Z) :
  isDeadObjectIndex (erase m) i = isDeadObjectIndex m i.
Proof. unfold isDeadObjectIndex. rewrite getObject_erase. destruct (getObject m i); reflexivity. Qed.

Lemma isObjectPreAllocated_erase (m : MachineFrameInfo) (i : Z) :
  isObjectPreAllocated (erase m) i = isObjectPreAllocated m i.
Proof. unfold isObjectPreAllocated. rewrite getObject_erase. destruct (getObject m i); reflexivity. Qed.

Lemma getObjectIndexEnd_erase (m : MachineFrameInfo) :
  getObjectIndexEnd (erase m) = getObjectIndexEnd m.
Proof. unfold getObjectIndexEnd. simpl. rewrite length_map. reflexivity. Qed.

Section SameShape.
Variables m1 m2 : MachineFrameInfo.
Hypothesis He : erase m1 = erase m2.

Lemma same_size (i : Z) : getObjectSize m1 i = getObjectSize m2 i.
  Proof. rewrite <- getObjectSize_erase, He. apply getObjectSize_erase. Qed.
Lemma same_alignment (i : Z) : getObjectAlignment m1 i = getObjectAlignment m2 i.
  Proof. rewrite <- getObjectAlignment_erase, He. apply getObjectAlignment_erase. Qed.
Lemma same_dead (i : Z) : isDeadObjectIndex m1 i = isDeadObjectIndex m2 i.
  Proof. rewrite <- isDeadObjectIndex_erase, He. apply isDeadObjectIndex_erase. Qed.
Lemma same_prealloc (i : Z) : isObjectPreAllocated m1 i = isObjectPreAllocated m2 i.
  Proof. rewrite <- isObjectPreAllocated_erase, He. apply isObjectPreAllocated_erase. Qed.
Lemma same_end : getObjectIndexEnd m1 = getObjectIndexEnd m2.
  Proof. rewrite <- getObjectIndexEnd_erase, He. apply getObjectIndexEnd_erase. Qed.
Lemma same_field {X} (f : MachineFrameInfo -> X) :
    (forall m, f (erase m) = f m) -> f m1 = f m2.
  Proof. intros Hf. rewrite <- Hf, He. apply Hf. Qed.
Lemma same_nfixed : NumFixedObjects m1 = NumFixedObjects m2.
  Proof. apply same_field. reflexivity. Qed.
Lemma same_spi : StackProtectorIdx m1 = StackProtectorIdx m2.
  Proof. apply same_field. reflexivity. Qed.
Lemma same_uselocal : UseLocalStackAllocationBlock m1 = UseLocalStackAllocationBlock m2.
  Proof. apply same_field. reflexivity. Qed.
Lemma same_lfma : LocalFrameMaxAlign m1 = LocalFrameMaxAlign m2.
  Proof. apply same_field. reflexivity. Qed.
Lemma same_lfo : LocalFrameObjects m1 = LocalFrameObjects m2.
  Proof. apply same_field. reflexivity. Qed.
Lemma same_lfs : LocalFrameSize m1 = LocalFrameSize m2.
  Proof. apply same_field. reflexivity. Qed.
Lemma same_maxalignment : MaxAlignment m1 = MaxAlignment m2.
  Proof. apply same_field. reflexivity. Qed.
Lemma same_adjusts : AdjustsStackFlag m1 = AdjustsStackFlag m2.
  Proof. apply same_field. reflexivity. Qed.
Lemma same_mcfs : MaxCallFrameSizeVal m1 = MaxCallFrameSizeVal m2.
  Proof. apply same_field. reflexivity. Qed.
Lemma same_varsized : HasVarSizedObjects m1 = HasVarSizedObjects m2.
  Proof. apply same_field. reflexivity. Qed.

Lemma same_skipped (P : PEIState) (i : Z) :
    skipped_object P m1 i = skipped_object P m2 i.
  Proof.
    unfold skipped_object. rewrite same_prealloc, same_uselocal, same_dead, same_spi.
    reflexivity.
  Qed.

Lemma same_relevant (j : Z) : relevant m1 j <-> relevant m2 j.
  Proof. unfold relevant. rewrite same_end, same_dead, same_size. tauto. Qed.
End SameShape.

Lemma erase_setObjectOffset (m : MachineFrameInfo) (i v : Z) :
  erase (setObjectOffset m i v) = erase m.
Proof.
  unfold setObjectOffset. destruct (obj_pos m i) as [p|]; [|reflexivity].
  unfold erase, set_Objects. simpl. f_equal.
  apply map_alter_invisible. reflexivity.
Qed.

Lemma erase_setStackSize (m : MachineFrameInfo) (v : Z) :
  erase (setStackSize m v) = erase m.
Proof. reflexivity. Qed.

Lemma getObjectOffset_setStackSize (m : MachineFrameInfo) (v i : Z) :
  getObjectOffset (setStackSize m v) i = getObjectOffset m i.
Proof. reflexivity. Qed.

Lemma getObjectOffset_set_eq (m : MachineFrameInfo) (i v : Z) :
  0 <= i + Z.of_nat (NumFixedObjects m) < Z.of_nat (length (Objects m)) ->
  getObjectOffset (setObjectOffset m i v) i = v.
Proof.
  intros Hi. unfold getObjectOffset, getObject, setObjectOffset, obj_pos.
  destruct (Z.leb_spec 0 (i + Z.of_nat (NumFixedObjects m))) as [_|]; [|lia].
  simpl. destruct (Z.leb_spec 0 (i + Z.of_nat (NumFixedObjects m))) as [_|]; [|lia].
  rewrite lookup_alter_same.
  destruct (Objects m !! Z.to_nat (i + Z.of_nat (NumFixedObjects m))) eqn:E;
    [reflexivity|].
  apply lookup_ge_None in E. lia.
Qed.

Lemma getObjectOffset_set_ne (m : MachineFrameInfo) (i j v : Z) :
  i <> j -> getObjectOffset (setObjectOffset m i v) j = getObjectOffset m j.
Proof.
  intros Hij. unfold getObjectOffset, getObject, setObjectOffset.
  destruct (obj_pos m i) as [p|] eqn:Ep; [|reflexivity].
  unfold obj_pos in *. simpl.
  destruct (Z.leb_spec 0 (i + Z.of_nat (NumFixedObjects m))); [|discriminate].
  injection Ep as <-.
  destruct (Z.leb_spec 0 (j + Z.of_nat (NumFixedObjects m))); [|reflexivity].
  rewrite lookup_alter_other; [reflexivity|].
  intro Heq. apply Z2Nat.inj in Heq; lia.
Qed.

Lemma relevant_in_range (m : MachineFrameInfo) (j : Z) :
  relevant m j -> 0 <= j + Z.of_nat (NumFixedObjects m) < Z.of_nat (length (Objects m)).
Proof. unfold relevant, getObjectIndexEnd. lia. Qed.

Lemma getObject_in (m : MachineFrameInfo) (i : Z) (o : StackObject) :
  getObject m i = Some o -> In o (Objects m).
Proof.
  unfold getObject. destruct (obj_pos m i); [|discriminate].
  intros E. apply list_elem_of_In. eapply list_elem_of_lookup_2. exact E.
Qed.

Lemma objects_wf_size (m : MachineFrameInfo) (i : Z) :
  objects_wf m -> 0 <= getObjectSize m i.
Proof.
  intros Hw. unfold getObjectSize. destruct (getObject m i) eqn:E; [|lia].
  apply (Hw s (getObject_in m i s E)).
Qed.

Lemma objects_wf_alignment (m : MachineFrameInfo) (i : Z) :
  objects_wf m -> 1 <= getObjectAlignment m i.
Proof.
  intros Hw. unfold getObjectAlignment. destruct (getObject m i) eqn:E; [|lia].
  apply (Hw s (getObject_in m i s E)).
Qed.

Lemma fold_left_inv {A B} (Q : A -> Prop) (f : A -> B -> A) (l : list B) :
  (forall a x, In x l -> Q a -> Q (f a x)) -> forall a, Q a -> Q (fold_left f l a).
Proof.
  induction l as [|x l IH]; intros Hf a Ha; simpl; [exact Ha|].
  apply IH; [intros; apply Hf; simpl; auto | apply Hf; simpl; auto].
Qed.

Lemma fold_left_rel {A B} (R : A -> A -> Prop) (f : A -> B -> A) (l : list B) :
  (forall a b x, In x l -> R a b -> R (f a x) (f b x)) ->
  forall a b, R a b -> R (fold_left f l a) (fold_left f l b).
Proof.
  induction l as [|x l IH]; intros Hf a b Hab; simpl; [exact Hab|].
  apply IH; [intros; apply Hf; simpl; auto | apply Hf; simpl; auto].
Qed.

Lemma zrange_In (a : Z) (n : nat) (i : Z) : In i (zrange a n) <-> a <= i < a + Z.of_nat n.
Proof.
  revert a; induction n as [|n IH]; intros a; simpl; [lia|].
  rewrite IH. lia.
Qed.

(* ------------------------------------------------------------------ *)
(** ** Stack size and rounding *)

Lemma good_align_pos (a : Z) : good_align a -> 1 <= a.
Proof.
  intros [k [Hk ->]]. pose proof (Z.pow_pos_nonneg 2 k) as H. lia.
Qed.

Lemma good_align_max (a b : Z) :
  good_align a -> good_align b \/ b = 0 -> good_align (Z.max a b).
Proof.
  intros Ha [Hb | ->].
  - destruct (Z.max_spec a b) as [[_ ->] | [_ ->]]; assumption.
  - pose proof (good_align_pos a Ha). rewrite Z.max_l by lia. exact Ha.
Qed.

Lemma round_mask_pow2 (x k : Z) :
  0 <= x -> 0 <= k <= 31 ->
  Z.land (x + (2 ^ k - 1) mod 2 ^ 32) (Z.lnot ((2 ^ k - 1) mod 2 ^ 32))
  = (x + 2 ^ k - 1) / 2 ^ k * 2 ^ k.
Proof.
  intros Hx Hk.
  assert (Hp : 1 <= 2 ^ k) by (pose proof (Z.pow_pos_nonneg 2 k); lia).
  assert (Hq : 2 ^ k <= 2 ^ 31) by (apply Z.pow_le_mono_r; lia).
  rewrite Z.mod_small by lia.
  replace (2 ^ k - 1) with (Z.ones k) by (rewrite Z.ones_equiv; lia).
  rewrite <- Z.ldiff_land, Z.ldiff_ones_r by lia.
  rewrite Z.shiftl_mul_pow2, Z.shiftr_div_pow2 by lia.
  rewrite Z.ones_equiv. f_equal. f_equal. lia.
Qed.

Lemma round_up_ge (x a : Z) : 1 <= a -> x <= (x + a - 1) / a * a.
Proof.
  intros Ha. pose proof (Z.div_mod (x + a - 1) a) as Hd.
  pose proof (Z.mod_pos_bound (x + a - 1) a) as Hb. nia.
Qed.

Section Monotone.
Variable T : TargetInfo.
Variable m0 : MachineFrameInfo.
Hypothesis Hw : align_wf T m0.
Variable Omin : Z.
Hypothesis HOmin : 0 <= Omin.

Lemma wf_size (m : MachineFrameInfo) (i : Z) :
    erase m = erase m0 -> 0 <= getObjectSize m i.
  Proof.
    intros He. rewrite (same_size m m0 He). unfold getObjectSize.
    destruct (getObject m0 i) eqn:E; [|lia].
    apply (proj1 Hw s (getObject_in m0 i s E)).
  Qed.

Lemma wf_alignment (m : MachineFrameInfo) (i : Z) :
    erase m = erase m0 -> good_align (getObjectAlignment m i).
  Proof.
    intros He. rewrite (same_alignment m m0 He). unfold getObjectAlignment.
    destruct (getObject m0 i) eqn:E; [|exists 0; split; [lia | reflexivity]].
    apply (proj1 Hw s (getObject_in m0 i s E)).
  Qed.

Lemma mono_AdjustStackOffset (down : bool) (s : LayoutState) (i : Z) :
    mono_inv m0 Omin s -> mono_inv m0 Omin (AdjustStackOffset down s i).
  Proof.
    intros [He [Ho Ha]].
    pose proof (wf_size (ls_mfi s) i He) as Hs.
    pose proof (wf_alignment (ls_mfi s) i He) as Hal.
    pose proof (good_align_pos _ Hal) as Hal1.
    unfold mono_inv, AdjustStackOffset.
    destruct down; simpl; rewrite erase_setObjectOffset.
    - pose proof (align_to_ge (ls_Offset s + getObjectSize (ls_mfi s) i)
                    (getObjectAlignment (ls_mfi s) i)).
      split; [exact He | split; [lia|]].
      left. rewrite Z.max_comm. apply good_align_max; assumption.
    - pose proof (align_to_ge (ls_Offset s) (getObjectAlignment (ls_mfi s) i)).
      split; [exact He | split; [lia|]].
      left. rewrite Z.max_comm. apply good_align_max; assumption.
  Qed.

Lemma mono_csr_step (down : bool) (s : LayoutState) (i : Z) :
    mono_inv m0 Omin s -> mono_inv m0 Omin (csr_step down s i).
  Proof.
    intros [He [Ho Ha]].
    pose proof (wf_size (ls_mfi s) i He) as Hs.
    pose proof (good_align_pos _ (wf_alignment (ls_mfi s) i He)) as Hal1.
    unfold mono_inv, csr_step.
    destruct down; simpl; rewrite erase_setObjectOffset.
    - pose proof (align_to_ge (ls_Offset s + getObjectSize (ls_mfi s) i)
                    (getObjectAlignment (ls_mfi s) i)). split; [exact He|]. split; [lia|exact Ha].
    - pose proof (align_to_ge (ls_Offset s) (getObjectAlignment (ls_mfi s) i)).
      split; [exact He|]. split; [lia|exact Ha].
  Qed.

Lemma mono_AdjustStackOffsets (down : bool) (s : LayoutState) (l : list Z) :
    mono_inv m0 Omin s -> mono_inv m0 Omin (AdjustStackOffsets down s l).
  Proof.
    apply fold_left_inv. intros a x _. apply mono_AdjustStackOffset.
  Qed.

Lemma erase_fold_set (es : list (Z * Z)) (g : Z * Z -> Z) (m : MachineFrameInfo) :
    erase (fold_left (fun m (e : Z * Z) => setObjectOffset m (fst e) (g e)) es m) = erase m.
  Proof.
    revert m; induction es as [|e es IH]; intros m; simpl; [reflexivity|].
    rewrite IH. apply erase_setObjectOffset.
  Qed.

Lemma mono_local_block (down : bool) (s : LayoutState) :
    mono_inv m0 Omin s -> mono_inv m0 Omin (local_block down s).
  Proof.
    intros [He [Ho Ha]]. unfold local_block.
    destruct (UseLocalStackAllocationBlock (ls_mfi s)) eqn:Eu; [|split; auto].
    rewrite (same_uselocal _ _ He) in Eu.
    destruct (proj1 (proj2 (proj2 (proj2 (proj2 Hw)))) Eu) as [Hlfs Hlfa].
    rewrite (same_lfs _ _ He), (same_lfma _ _ He).
    pose proof (good_align_pos _ Hlfa).
    pose proof (align_to_ge (ls_Offset s) (LocalFrameMaxAlign m0)).
    unfold mono_inv. simpl.
    rewrite (erase_fold_set (LocalFrameObjects (ls_mfi s))
      (fun e => (if down then - align_to (ls_Offset s) (LocalFrameMaxAlign m0)
                 else align_to (ls_Offset s) (LocalFrameMaxAlign m0)) + snd e)).
    split; [exact He|]. split; [lia|]. left. apply good_align_max; assumption.
  Qed.

Lemma mono_main_phase (down : bool) (P : PEIState) (Prot : list Z) (s : LayoutState) :
    mono_inv m0 Omin s -> mono_inv m0 Omin (main_phase down P Prot s).
  Proof.
    unfold main_phase. apply fold_left_inv. intros a x _ Ha. unfold main_step.
    destruct (_ || _); [exact Ha | apply mono_AdjustStackOffset; exact Ha].
  Qed.

Lemma mono_protector_phase (down : bool) (P : PEIState) (SSP : Z -> SSPLayoutKind)
    (s : LayoutState) :
    mono_inv m0 Omin s -> mono_inv m0 Omin (fst (protector_phase down P SSP s)).
  Proof.
    intros Hs. unfold protector_phase. destruct (0 <=? _); simpl; [|exact Hs].
    apply mono_AdjustStackOffsets, mono_AdjustStackOffset, Hs.
  Qed.

Lemma mono_scavenging (P : PEIState) (early : bool) (s : LayoutState) :
    mono_inv m0 Omin s -> mono_inv m0 Omin (scavenging_slots T P early s).
  Proof.
    intros Hs. unfold scavenging_slots.
    destruct (RS P); [destruct (Bool.eqb _ _)|]; auto using mono_AdjustStackOffsets.
  Qed.
End Monotone.

Lemma fixed_fold_ge (down : bool) (m : MachineFrameInfo) (l : list Z) (O : Z) :
  O <= fold_left (fixed_step down m) l O.
Proof.
  apply (fold_left_inv (fun x => O <= x)); [|lia].
  intros a x _ Ha. unfold fixed_step. destruct (a <? _) eqn:E; [apply Z.ltb_lt in E|]; lia.
Qed.

Lemma calc_layout_mono (T : TargetInfo) (P : PEIState) (SSP : Z -> SSPLayoutKind)
  (m0 : MachineFrameInfo) (s : LayoutState) (L : Z) :
  align_wf T m0 -> calc_layout T P SSP m0 = Some (s, L) ->
  L = local_area_offset T /\ 0 <= L /\ mono_inv m0 L s.
Proof.
  intros Hw Hc. unfold calc_layout in Hc.
  destruct (Z.ltb_spec (if StackGrowsDown T then - OffsetOfLocalArea T else OffsetOfLocalArea T) 0)
    as [|HL]; [discriminate|].
  set (L0 := if StackGrowsDown T then - OffsetOfLocalArea T else OffsetOfLocalArea T) in *.
  set (O0 := fold_left _ _ L0) in Hc.
  set (s1 := fold_left (csr_step (StackGrowsDown T)) (csr_order (StackGrowsDown T) P)
               (mkLS m0 O0 0)) in Hc.
  assert (H1 : mono_inv m0 L0 s1).
  { apply fold_left_inv; [intros a x _; apply (mono_csr_step T); auto|].
    split; [reflexivity|]. split; [apply fixed_fold_ge | right; reflexivity]. }
  set (s2 := mkLS (ls_mfi s1) (ls_Offset s1) (MaxAlignment (ls_mfi s1))) in Hc.
  assert (H2 : mono_inv m0 L0 s2).
  { destruct H1 as [He [Ho _]]. split; [exact He|]. split; [exact Ho|].
    simpl. rewrite (same_maxalignment _ _ He).
    destruct (proj1 (proj2 Hw)) as [->|Hg]; [right; reflexivity | left; exact Hg]. }
  destruct (protector_phase _ _ _ _) as [s5 Prot] eqn:Ep.
  injection Hc as <- <-.
  split; [reflexivity|]. split; [exact HL|].
  apply mono_scavenging; auto. apply (mono_main_phase T); auto.
  replace s5 with (fst (protector_phase (StackGrowsDown T) P SSP
                          (local_block (StackGrowsDown T) (scavenging_slots T P true s2))))
    by (rewrite Ep; reflexivity).
  apply (mono_protector_phase T); auto. apply (mono_local_block T); auto.
  apply mono_scavenging; auto.
Qed.

(* ------------------------------------------------------------------ *)
(** ** Re-running offset assignment *)

Lemma getObjectOffset_set_out (m : MachineFrameInfo) (i v : Z) :
  ~ (0 <= i + Z.of_nat (NumFixedObjects m) < Z.of_nat (length (Objects m))) ->
  getObjectOffset (setObjectOffset m i v) i = getObjectOffset m i.
Proof.
  intros Hi. unfold getObjectOffset, getObject, setObjectOffset.
  destruct (obj_pos m i) as [p|] eqn:Ep; [|rewrite Ep; reflexivity].
  unfold obj_pos in *. simpl.
  destruct (Z.leb_spec 0 (i + Z.of_nat (NumFixedObjects m))); [|discriminate].
  injection Ep as <-. rewrite lookup_alter_same.
  destruct (Objects m !! Z.to_nat (i + Z.of_nat (NumFixedObjects m))) eqn:E; [|reflexivity].
  exfalso. apply Hi. split; [lia|].
  assert (Z.to_nat (i + Z.of_nat (NumFixedObjects m)) < length (Objects m))%nat
    by (apply lookup_lt_is_Some_1; rewrite E; eauto).
  lia.
Qed.

Lemma range_dec (x y : Z) : {0 <= x < y} + {~ (0 <= x < y)}.
Proof.
  destruct (Z_le_dec 0 x), (Z_lt_dec x y); [left; lia | right; lia | right; lia | right; lia].
Defined.

Lemma sim_reframe (a0 b0 : MachineFrameInfo) (s t : LayoutState) (O A : Z) :
  sim a0 b0 s t -> sim a0 b0 (mkLS (ls_mfi s) O A) (mkLS (ls_mfi t) O A).
Proof. unfold sim. simpl. tauto. Qed.

Lemma sim_set (a0 b0 : MachineFrameInfo) (s t : LayoutState) (i v O A : Z) :
  0 <= i -> sim a0 b0 s t ->
  sim a0 b0 (mkLS (setObjectOffset (ls_mfi s) i v) O A)
            (mkLS (setObjectOffset (ls_mfi t) i v) O A).
Proof.
  intros Hi [_ [_ [Hes [Het [Htr Hfx]]]]].
  assert (He : erase (ls_mfi s) = erase (ls_mfi t)) by congruence.
  unfold sim. simpl. rewrite !erase_setObjectOffset.
  split; [reflexivity|]. split; [reflexivity|]. split; [exact Hes|]. split; [exact Het|].
  split.
  - intros j. destruct (Z.eq_dec i j) as [<-|Hij].
    + assert (Hl : length (Objects (ls_mfi t)) = length (Objects (ls_mfi s))).
      { pose proof (f_equal (fun m => length (Objects m)) He) as Hl. simpl in Hl.
        rewrite !length_map in Hl. symmetry; exact Hl. }
      pose proof (same_nfixed _ _ He) as Hn.
      destruct (range_dec (i + Z.of_nat (NumFixedObjects (ls_mfi s)))
                (Z.of_nat (length (Objects (ls_mfi s))))) as [Hr|Hr].
      * assert (Hr' : 0 <= i + Z.of_nat (NumFixedObjects (ls_mfi t))
                        < Z.of_nat (length (Objects (ls_mfi t)))) by (rewrite Hl, <- Hn; exact Hr).
        left. rewrite !getObjectOffset_set_eq by assumption. reflexivity.
      * assert (Hr' : ~ (0 <= i + Z.of_nat (NumFixedObjects (ls_mfi t))
                        < Z.of_nat (length (Objects (ls_mfi t))))) by (rewrite Hl, <- Hn; exact Hr).
        rewrite !getObjectOffset_set_out by assumption. apply Htr.
    + rewrite !getObjectOffset_set_ne by exact Hij. apply Htr.
  - intros j Hj. rewrite getObjectOffset_set_ne by lia. apply Hfx, Hj.
Qed.

Lemma sim_erase (a0 b0 : MachineFrameInfo) (s t : LayoutState) :
  sim a0 b0 s t -> erase (ls_mfi s) = erase (ls_mfi t).
Proof. intros [_ [_ [Hes [Het _]]]]. congruence. Qed.

Lemma fold_left_ext_in {A B} (f g : A -> B -> A) (l : list B) (a : A) :
  (forall a x, In x l -> f a x = g a x) -> fold_left f l a = fold_left g l a.
Proof.
  revert a; induction l as [|x l IH]; intros a Hfg; simpl; [reflexivity|].
  rewrite Hfg by (left; reflexivity). apply IH. intros; apply Hfg; right; assumption.
Qed.

Section Rerun.
Variables a0 b0 : MachineFrameInfo.

Lemma sim_AdjustStackOffset (down : bool) (s t : LayoutState) (i : Z) :
    0 <= i -> sim a0 b0 s t -> sim a0 b0 (AdjustStackOffset down s i) (AdjustStackOffset down t i).
  Proof.
    intros Hi Hs. pose proof (sim_erase _ _ _ _ Hs) as He.
    destruct Hs as [Ho [Ha Hrest]].
    unfold AdjustStackOffset. cbv zeta.
    rewrite <- (same_size _ _ He i), <- (same_alignment _ _ He i), <- Ho, <- Ha.
    destruct down; apply sim_set; auto; split; auto.
  Qed.

Lemma sim_csr_step (down : bool) (s t : LayoutState) (i : Z) :
    0 <= i -> sim a0 b0 s t -> sim a0 b0 (csr_step down s i) (csr_step down t i).
  Proof.
    intros Hi Hs. pose proof (sim_erase _ _ _ _ Hs) as He.
    destruct Hs as [Ho [Ha Hrest]].
    unfold csr_step. cbv zeta.
    rewrite <- (same_size _ _ He i), <- (same_alignment _ _ He i), <- Ho, <- Ha.
    destruct down; apply sim_set; auto; split; auto.
  Qed.

Lemma sim_AdjustStackOffsets (down : bool) (s t : LayoutState) (l : list Z) :
    (forall i, In i l -> 0 <= i) -> sim a0 b0 s t ->
    sim a0 b0 (AdjustStackOffsets down s l) (AdjustStackOffsets down t l).
  Proof.
    intros Hl. apply fold_left_rel. intros a b x Hx. apply sim_AdjustStackOffset, Hl, Hx.
  Qed.

Lemma sim_local_block (down : bool) (s t : LayoutState) :
    (forall j e, In (j, e) (LocalFrameObjects a0) -> 0 <= j) ->
    sim a0 b0 s t -> sim a0 b0 (local_block down s) (local_block down t).
  Proof.
    intros HL Hs. pose proof (sim_erase _ _ _ _ Hs) as He.
    pose proof Hs as [Ho [Ha [Hes _]]].
    unfold local_block. cbv zeta.
    rewrite <- (same_uselocal _ _ He), <- (same_lfma _ _ He), <- (same_lfo _ _ He),
      <- (same_lfs _ _ He), <- Ho, <- Ha.
    destruct (UseLocalStackAllocationBlock (ls_mfi s)); [|exact Hs].
    set (O' := align_to (ls_Offset s) (LocalFrameMaxAlign (ls_mfi s)) + LocalFrameSize (ls_mfi s)).
    set (A' := Z.max (LocalFrameMaxAlign (ls_mfi s)) (ls_MaxAlign s)).
    assert (Hin : forall e, In e (LocalFrameObjects (ls_mfi s)) -> 0 <= fst e).
    { intros [j e] Hj. rewrite (same_lfo _ _ Hes) in Hj. exact (HL j e Hj). }
    revert Hin. generalize (LocalFrameObjects (ls_mfi s)). intros es Hin.
    apply (fold_left_rel (fun a b => sim a0 b0 (mkLS a O' A') (mkLS b O' A'))).
    - intros a b x Hx Hab.
      apply (sim_set a0 b0 (mkLS a O' A') (mkLS b O' A')); [apply Hin, Hx | exact Hab].
    - apply sim_reframe, Hs.
  Qed.

Lemma sim_protector_phase (down : bool) (P : PEIState) (SSP : Z -> SSPLayoutKind)
    (s t : LayoutState) :
    sim a0 b0 s t ->
    snd (protector_phase down P SSP s) = snd (protector_phase down P SSP t) /\
    sim a0 b0 (fst (protector_phase down P SSP s)) (fst (protector_phase down P SSP t)).
  Proof.
    intros Hs. pose proof (sim_erase _ _ _ _ Hs) as He.
    unfold protector_phase. cbv zeta.
    rewrite <- (same_spi _ _ He).
    destruct (Z.leb_spec 0 (StackProtectorIdx (ls_mfi s))) as [Hp|]; [|split; auto].
    pose proof (sim_AdjustStackOffset down s t _ Hp Hs) as H1.
    pose proof (sim_erase _ _ _ _ H1) as He1.
    rewrite <- (same_end _ _ He1).
    rewrite (List.filter_ext
               (fun i => negb (skipped_object P (ls_mfi (AdjustStackOffset down t
                                 (StackProtectorIdx (ls_mfi s)))) i) && is_large_array (SSP i))
               (fun i => negb (skipped_object P (ls_mfi (AdjustStackOffset down s
                                 (StackProtectorIdx (ls_mfi s)))) i) && is_large_array (SSP i)))
      by (intros i; rewrite (same_skipped _ _ He1); reflexivity).
    split; [reflexivity|]. simpl.
    apply sim_AdjustStackOffsets; [|exact H1].
    intros i Hi. apply List.filter_In in Hi as [Hi _]. apply zrange_In in Hi. lia.
  Qed.

Lemma sim_main_phase (down : bool) (P : PEIState) (Prot : list Z) (s t : LayoutState) :
    sim a0 b0 s t -> sim a0 b0 (main_phase down P Prot s) (main_phase down P Prot t).
  Proof.
    intros Hs. pose proof (sim_erase _ _ _ _ Hs) as He.
    unfold main_phase. rewrite <- (same_end _ _ He).
    apply fold_left_rel; [|exact Hs].
    intros a b x Hx Hab. apply zrange_In in Hx.
    unfold main_step. rewrite <- (same_skipped _ _ (sim_erase _ _ _ _ Hab)).
    destruct (_ || _); [exact Hab|]. apply sim_AdjustStackOffset; [lia | exact Hab].
  Qed.

Lemma sim_scavenging (T : TargetInfo) (P : PEIState) (early : bool) (s t : LayoutState) :
    (forall sfis, RS P = Some sfis -> forall i, In i sfis -> 0 <= i) ->
    sim a0 b0 s t -> sim a0 b0 (scavenging_slots T P early s) (scavenging_slots T P early t).
  Proof.
    intros HR Hs. unfold scavenging_slots.
    destruct (RS P) as [sfis|] eqn:E; [|exact Hs].
    destruct (Bool.eqb _ _); [|exact Hs].
    apply sim_AdjustStackOffsets; [apply (HR sfis eq_refl) | exact Hs].
  Qed.
End Rerun.

Lemma csr_order_nonneg (down : bool) (P : PEIState) (i : Z) :
  0 <= MinCSFrameIndex P -> In i (csr_order down P) -> 0 <= i.
Proof.
  intros HP Hi. unfold csr_order, csr_indices in Hi.
  destruct down; [|apply in_rev in Hi]; apply zrange_In in Hi; lia.
Qed.

Lemma calc_layout_sim (T : TargetInfo) (P : PEIState) (SSP : Z -> SSPLayoutKind)
  (m0 m1 : MachineFrameInfo) (s : LayoutState) (L : Z) :
  0 <= MinCSFrameIndex P ->
  (forall sfis, RS P = Some sfis -> forall i, In i sfis -> 0 <= i) ->
  (forall j e, In (j, e) (LocalFrameObjects m0) -> 0 <= j) ->
  erase m1 = erase m0 ->
  (forall i, i < 0 -> getObjectOffset m1 i = getObjectOffset m0 i) ->
  calc_layout T P SSP m0 = Some (s, L) ->
  exists t, calc_layout T P SSP m1 = Some (t, L) /\ sim m0 m1 s t.
Proof.
  intros HCS HRS HLoc He Hfix Hc. unfold calc_layout in *.
  destruct (_ <? 0); [discriminate|].
  set (down := StackGrowsDown T) in *.
  set (L0 := if down then - OffsetOfLocalArea T else OffsetOfLocalArea T) in *.
  assert (HO : fold_left (fixed_step down m1) (zrange (getObjectIndexBegin m1) (NumFixedObjects m1)) L0
             = fold_left (fixed_step down m0) (zrange (getObjectIndexBegin m0) (NumFixedObjects m0)) L0).
  { unfold getObjectIndexBegin. rewrite (same_nfixed _ _ He).
    apply fold_left_ext_in. intros a x Hx. apply zrange_In in Hx.
    unfold fixed_step. rewrite (same_size _ _ He x), Hfix by lia. reflexivity. }
  rewrite HO.
  set (O0 := fold_left (fixed_step down m0) _ L0) in *.
  assert (H0 : sim m0 m1 (mkLS m0 O0 0) (mkLS m1 O0 0)).
  { unfold sim; simpl. split; [reflexivity|]. split; [reflexivity|].
    split; [reflexivity|]. split; [exact He|]. split; [|reflexivity].
    intros i; right; split; reflexivity. }
  assert (H1 : sim m0 m1 (fold_left (csr_step down) (csr_order down P) (mkLS m0 O0 0))
                         (fold_left (csr_step down) (csr_order down P) (mkLS m1 O0 0))).
  { apply fold_left_rel; [|exact H0].
    intros a b x Hx. apply sim_csr_step. eapply csr_order_nonneg; eauto. }
  set (s1 := fold_left (csr_step down) (csr_order down P) (mkLS m0 O0 0)) in *.
  set (t1 := fold_left (csr_step down) (csr_order down P) (mkLS m1 O0 0)) in *.
  assert (H2 : sim m0 m1 (mkLS (ls_mfi s1) (ls_Offset s1) (MaxAlignment (ls_mfi s1)))
                         (mkLS (ls_mfi t1) (ls_Offset t1) (MaxAlignment (ls_mfi t1)))).
  { rewrite <- (same_maxalignment _ _ (sim_erase _ _ _ _ H1)).
    pose proof H1 as [Ho _]. rewrite <- Ho. apply sim_reframe, H1. }
  pose proof (sim_local_block m0 m1 down _ _ HLoc (sim_scavenging m0 m1 T P true _ _ HRS H2)) as H4.
  destruct (sim_protector_phase m0 m1 down P SSP _ _ H4) as [HP H5].
  destruct (protector_phase down P SSP (local_block down (scavenging_slots T P true
              (mkLS (ls_mfi s1) (ls_Offset s1) (MaxAlignment (ls_mfi s1))))))
    as [s5 Prot] eqn:Ep.
  destruct (protector_phase down P SSP (local_block down (scavenging_slots T P true
              (mkLS (ls_mfi t1) (ls_Offset t1) (MaxAlignment (ls_mfi t1))))))
    as [t5 Prot'] eqn:Ep'.
  simpl in HP, H5. subst Prot'.
  injection Hc as <- <-.
  eexists. split; [reflexivity|].
  apply sim_scavenging; [exact HRS|]. apply sim_main_phase. exact H5.
Qed.

Lemma mfi_offsets_ext (a b : MachineFrameInfo) (v : Z) :
  erase a = erase b -> (forall i, getObjectOffset a i = getObjectOffset b i) ->
  setStackSize a v = setStackSize b v.
Proof.
  intros He Ho.
  assert (Hobj : Objects a = Objects b).
  { apply list_eq. intros p.
    pose proof (f_equal (fun m => Objects m !! p) He) as Hp. simpl in Hp.
    rewrite !lookup_map_option in Hp.
    specialize (Ho (Z.of_nat p - Z.of_nat (NumFixedObjects a))).
    unfold getObjectOffset, getObject, obj_pos in Ho.
    rewrite <- (same_nfixed _ _ He) in Ho.
    replace (Z.of_nat p - Z.of_nat (NumFixedObjects a) + Z.of_nat (NumFixedObjects a))
      with (Z.of_nat p) in Ho by lia.
    rewrite Nat2Z.id in Ho.
    destruct (Z.leb_spec 0 (Z.of_nat p)); [|lia].
    destruct (Objects a !! p) as [oa|], (Objects b !! p) as [ob|]; simpl in Hp;
      try discriminate; [|reflexivity].
    injection Hp as Hp. f_equal.
    destruct oa, ob; unfold erase_obj, set_SPOffset in Hp; simpl in *.
    subst. reflexivity. }
  destruct a, b. unfold erase in He. simpl in *. injection He as.
  unfold setStackSize. simpl. subst. reflexivity.
Qed.

Lemma final_offset_sim (T : TargetInfo) (a0 b0 : MachineFrameInfo) (s t : LayoutState) :
  sim a0 b0 s t -> final_offset T s = final_offset T t.
Proof.
  intros Hs. pose proof (sim_erase _ _ _ _ Hs) as He. destruct Hs as [Ho [Ha _]].
  unfold final_offset, resolved_stack_align.
  rewrite (same_adjusts _ _ He), (same_varsized _ _ He), (same_end _ _ He),
    (same_mcfs _ _ He), Ho, Ha. reflexivity.
Qed.

(** C8: running offset assignment again on the frame it produced, with the
    same target, callee-saved range, scavenging slots and protector layout,
    reproduces that frame exactly: every object offset and the stack size.
    The callee-saved range, scavenging slots and local-block entries are
    non-fixed objects, as the passes producing them create them. *)
Theorem calculateFrameObjectOffsets_idempotent (T : TargetInfo) (P : PEIState)
  (SSP : Z -> SSPLayoutKind) (m m' : MachineFrameInfo)
  (HCS : 0 <= MinCSFrameIndex P)
  (HRS : forall sfis, RS P = Some sfis -> forall i, In i sfis -> 0 <= i)
  (HLoc : forall j e, In (j, e) (LocalFrameObjects m) -> 0 <= j)
  (Hrun : calculateFrameObjectOffsets T P SSP m = Some m') :
  calculateFrameObjectOffsets T P SSP m' = Some m'.
Proof.
  unfold calculateFrameObjectOffsets in *.
  destruct (calc_layout T P SSP m) as [[s L]|] eqn:Ec; [|discriminate].
  injection Hrun as <-.
  destruct (calc_layout_sim T P SSP m m s L HCS HRS HLoc eq_refl (fun _ _ => eq_refl) Ec)
    as [s' [Ec' Hself]].
  rewrite Ec in Ec'. injection Ec' as <-.
  destruct Hself as [_ [_ [Hes [_ [_ Hfix]]]]].
  destruct (calc_layout_sim T P SSP m (setStackSize (ls_mfi s) (final_offset T s - L)) s L
              HCS HRS HLoc ltac:(rewrite erase_setStackSize; exact Hes)
              ltac:(intros i Hi; rewrite getObjectOffset_setStackSize; apply Hfix, Hi) Ec)
    as [t [Et Hst]].
  rewrite Et. rewrite <- (final_offset_sim T _ _ _ _ Hst).
  f_equal. apply mfi_offsets_ext.
  - symmetry. apply (sim_erase _ _ _ _ Hst).
  - intros i. destruct Hst as [_ [_ [_ [_ [Htr _]]]]].
    destruct (Htr i) as [E | [_ E]]; rewrite E; [reflexivity|].
    apply getObjectOffset_setStackSize.
Qed.

Lemma calculateFrameObjectOffsets_idempotent_witness :
  exists m', calculateFrameObjectOffsets (down16 0) no_csr (fun _ => SSPLK_None)
               (empty_mfi [mk_obj 4 4; mk_obj 8 8]) = Some m' /\
             calculateFrameObjectOffsets (down16 0) no_csr (fun _ => SSPLK_None) m' = Some m'.
Proof.
  eexists. split; [reflexivity|].
  apply (calculateFrameObjectOffsets_idempotent (down16 0) no_csr (fun _ => SSPLK_None)
           (empty_mfi [mk_obj 4 4; mk_obj 8 8])).
  - unfold no_csr, INT_MAX. simpl. lia.
  - discriminate.
  - intros j e [].
  - reflexivity.
Defined.

(* ------------------------------------------------------------------ *)
(** ** Non-overlapping layout *)

Section Layout.
Variable m0 : MachineFrameInfo.
Hypothesis Hwf : objects_wf m0.

Lemma relevant_range (m : MachineFrameInfo) (j : Z) :
    erase m = erase m0 -> relevant m0 j ->
    0 <= j + Z.of_nat (NumFixedObjects m) < Z.of_nat (length (Objects m)).
  Proof.
    intros He Hr. apply (same_relevant _ _ He) in Hr. apply relevant_in_range, Hr.
  Qed.

Lemma off_set_relevant (m : MachineFrameInfo) (i v j : Z) :
    erase m = erase m0 -> relevant m0 j ->
    getObjectOffset (setObjectOffset m i v) j =
    if Z.eq_dec i j then v else getObjectOffset m j.
  Proof.
    intros He Hr. destruct (Z.eq_dec i j) as [<-|Hij].
    - apply getObjectOffset_set_eq, (relevant_range m i He Hr).
    - apply getObjectOffset_set_ne, Hij.
  Qed.

Lemma li_weaken (down : bool) (p1 p2 : Z -> Prop) (s : LayoutState) :
    (forall j, p2 j -> p1 j) -> layout_inv down m0 p1 s -> layout_inv down m0 p2 s.
  Proof.
    intros Hp [He [HO [Hf Hd]]]. split; [exact He|]. split; [exact HO|].
    split; [intros j Hr Hj; apply Hf; auto|].
    intros j k Hjk Hrj Hrk Hj Hk. apply Hd; auto.
  Qed.

Lemma li_place (down : bool) (placed : Z -> Prop) (s : LayoutState) (i v O' A : Z) :
    layout_inv down m0 placed s -> ls_Offset s <= O' ->
    (if down then - O' <= v /\ v + getObjectSize m0 i <= - ls_Offset s
     else ls_Offset s <= v /\ v + getObjectSize m0 i <= O') ->
    layout_inv down m0 (fun j => placed j \/ j = i)
      (mkLS (setObjectOffset (ls_mfi s) i v) O' A).
  Proof.
    intros [He [HO [Hf Hd]]] HO' Hreg.
    split; [simpl; rewrite erase_setObjectOffset; exact He|].
    split; [simpl; lia|].
    split.
    - intros j Hr Hj. simpl. rewrite (off_set_relevant _ i v j He Hr).
      destruct (Z.eq_dec i j) as [<-|Hij].
      + unfold frontier. destruct down; lia.
      + destruct Hj as [Hj | ->]; [|contradiction].
        specialize (Hf j Hr Hj). unfold frontier in *.
        pose proof (objects_wf_size m0 j Hwf). destruct down; lia.
    - intros j k Hjk Hrj Hrk Hj Hk. simpl.
      rewrite (off_set_relevant _ i v j He Hrj), (off_set_relevant _ i v k He Hrk).
      destruct (Z.eq_dec i j) as [<-|Hij], (Z.eq_dec i k) as [<-|Hik].
      + contradiction.
      + destruct Hk as [Hk | ->]; [|contradiction].
        specialize (Hf k Hrk Hk). unfold frontier, disjoint in *. destruct down; lia.
      + destruct Hj as [Hj | ->]; [|contradiction].
        specialize (Hf j Hrj Hj). unfold frontier, disjoint in *. destruct down; lia.
      + destruct Hj as [Hj | ->]; [|contradiction].
        destruct Hk as [Hk | ->]; [|contradiction].
        apply Hd; auto.
  Qed.

Lemma li_AdjustStackOffset (down : bool) (placed : Z -> Prop) (s : LayoutState) (i : Z) :
    layout_inv down m0 placed s ->
    layout_inv down m0 (fun j => placed j \/ j = i) (AdjustStackOffset down s i).
  Proof.
    intros Hs. pose proof Hs as [He [HO _]].
    pose proof (objects_wf_size m0 i Hwf) as Hsz.
    pose proof (objects_wf_alignment m0 i Hwf) as Hal.
    rewrite <- (same_size _ _ He) in Hsz. rewrite <- (same_alignment _ _ He) in Hal.
    unfold AdjustStackOffset. cbv zeta. destruct down.
    - pose proof (align_to_ge (ls_Offset s + getObjectSize (ls_mfi s) i)
                    (getObjectAlignment (ls_mfi s) i)) as Hg.
      apply li_place; [exact Hs | lia |].
      rewrite <- (same_size _ _ He). lia.
    - pose proof (align_to_ge (ls_Offset s) (getObjectAlignment (ls_mfi s) i)) as Hg.
      apply li_place; [exact Hs | lia |].
      rewrite <- (same_size _ _ He). lia.
  Qed.

Lemma li_csr_step (down : bool) (placed : Z -> Prop) (s : LayoutState) (i : Z) :
    layout_inv down m0 placed s ->
    layout_inv down m0 (fun j => placed j \/ j = i) (csr_step down s i).
  Proof.
    intros Hs.
    replace (csr_step down s i)
      with (mkLS (ls_mfi (AdjustStackOffset down s i)) (ls_Offset (AdjustStackOffset down s i))
                 (ls_MaxAlign s))
      by (destruct down; reflexivity).
    apply li_AdjustStackOffset, Hs.
  Qed.

Lemma li_fold_place (down : bool) (step : LayoutState -> Z -> LayoutState)
    (Hstep : forall placed s i, layout_inv down m0 placed s ->
               layout_inv down m0 (fun j => placed j \/ j = i) (step s i))
    (l : list Z) (placed : Z -> Prop) (s : LayoutState) :
    layout_inv down m0 placed s ->
    layout_inv down m0 (fun j => placed j \/ In j l) (fold_left step l s).
  Proof.
    revert placed s; induction l as [|x l IH]; intros placed s Hs; simpl.
    - apply (li_weaken _ placed); [intros j [Hj|[]]; exact Hj | exact Hs].
    - eapply li_weaken; [|apply IH, Hstep, Hs].
      intros j [Hj | [-> | Hj]]; auto.
  Qed.

Lemma li_main_phase (down : bool) (P : PEIState) (Prot : list Z)
    (placed : Z -> Prop) (s : LayoutState) :
    layout_inv down m0 placed s ->
    layout_inv down m0
      (fun j => placed j \/ (In j (zrange 0 (Z.to_nat (getObjectIndexEnd m0))) /\
                             (skipped_object P m0 j || existsb (Z.eqb j) Prot) = false))
      (main_phase down P Prot s).
  Proof.
    intros Hs. pose proof Hs as [He _]. unfold main_phase.
    rewrite (same_end _ _ He).
    generalize (zrange 0 (Z.to_nat (getObjectIndexEnd m0))) as l.
    intros l; revert placed s Hs He; induction l as [|x l IH]; intros placed s Hs He; simpl.
    - apply (li_weaken _ placed); [intros j [Hj|[[] _]]; exact Hj | exact Hs].
    - unfold main_step at 2. rewrite (same_skipped _ _ He).
      destruct (skipped_object P m0 x || existsb (Z.eqb x) Prot) eqn:Esk.
      + eapply li_weaken; [|apply IH; [exact Hs | exact He]].
        intros j [Hj | [[-> | Hj] Hc]]; auto. congruence.
      + pose proof (li_AdjustStackOffset down placed s x Hs) as Hs'.
        eapply li_weaken; [|apply IH; [exact Hs' | apply Hs']].
        intros j [Hj | [[-> | Hj] Hc]]; auto.
  Qed.

Lemma fold_set_offsets (es : list (Z * Z)) (g : Z * Z -> Z) (m : MachineFrameInfo) (j : Z) :
    erase m = erase m0 -> relevant m0 j ->
    let m' := fold_left (fun m (e : Z * Z) => setObjectOffset m (fst e) (g e)) es m in
    (exists e, In (j, e) es /\ getObjectOffset m' j = g (j, e)) \/
    ((forall e, ~ In (j, e) es) /\ getObjectOffset m' j = getObjectOffset m j).
  Proof.
    intros He Hr. revert m He; induction es as [|[i e] es IH]; intros m He; simpl.
    - right. split; [intros e []|reflexivity].
    - destruct (IH (setObjectOffset m i (g (i, e)))) as [[e' [Hin Ho]] | [Hn Ho]];
        [rewrite erase_setObjectOffset; exact He | left; eauto |].
      rewrite Ho, (off_set_relevant m i _ j He Hr).
      destruct (Z.eq_dec i j) as [<-|Hij].
      + left. exists e. split; [left; reflexivity | reflexivity].
      + right. split; [|reflexivity].
        intros e' [Heq | Hin]; [injection Heq; intros; subst; contradiction | exact (Hn e' Hin)].
  Qed.

Lemma li_local_block (down : bool) (placed : Z -> Prop) (s : LayoutState) :
    local_block_wf down m0 ->
    layout_inv down m0 placed s ->
    layout_inv down m0
      (fun j => placed j \/ (UseLocalStackAllocationBlock m0 = true /\
                             exists e, In (j, e) (LocalFrameObjects m0)))
      (local_block down s).
  Proof.
    intros Hlw Hs. pose proof Hs as [He [HO [Hf Hd]]].
    unfold local_block. cbv zeta.
    rewrite (same_uselocal _ _ He), (same_lfma _ _ He), (same_lfo _ _ He), (same_lfs _ _ He).
    destruct (UseLocalStackAllocationBlock m0) eqn:Eu;
      [|eapply li_weaken; [|exact Hs]; intros j [Hj|[Hc _]]; [exact Hj | discriminate]].
    destruct (Hlw Eu) as [Hla [Hlfs [Hbd [Hdj _]]]].
    set (Ob := align_to (ls_Offset s) (LocalFrameMaxAlign m0)).
    assert (HOb : ls_Offset s <= Ob) by (apply align_to_ge; lia).
    set (g := fun e : Z * Z => (if down then - Ob else Ob) + snd e).
    assert (Hoff : forall j, relevant m0 j ->
      (exists e, In (j, e) (LocalFrameObjects m0) /\
         getObjectOffset (fold_left (fun m (e : Z * Z) => setObjectOffset m (fst e) (g e))
                            (LocalFrameObjects m0) (ls_mfi s)) j = g (j, e)) \/
      ((forall e, ~ In (j, e) (LocalFrameObjects m0)) /\
         getObjectOffset (fold_left (fun m (e : Z * Z) => setObjectOffset m (fst e) (g e))
                            (LocalFrameObjects m0) (ls_mfi s)) j = getObjectOffset (ls_mfi s) j))
      by (intros j Hr; apply fold_set_offsets; assumption).
    split; [simpl; rewrite erase_fold_set; exact He|].
    split; [simpl; lia|]. unfold g in Hoff. simpl.
    split.
    - intros j Hr Hj. unfold frontier.
      destruct (Hoff j Hr) as [[e [Hin ->]] | [Hn ->]].
      + specialize (Hbd j e Hin Hr). destruct down; simpl; lia.
      + destruct Hj as [Hj | [_ [e Hin]]]; [|exfalso; exact (Hn e Hin)].
        specialize (Hf j Hr Hj). unfold frontier in Hf.
        pose proof (objects_wf_size m0 j Hwf). destruct down; lia.
    - intros j k Hjk Hrj Hrk Hj Hk.
      destruct (Hoff j Hrj) as [[e [Hin ->]] | [Hn ->]], (Hoff k Hrk) as [[e' [Hin' ->]] | [Hn' ->]].
      + specialize (Hdj j e k e' Hin Hin' Hjk Hrj Hrk). unfold disjoint in *. destruct down; simpl in *; lia.
      + destruct Hk as [Hk | [_ [e'' Hin'']]]; [|exfalso; exact (Hn' e'' Hin'')].
        specialize (Hf k Hrk Hk). specialize (Hbd j e Hin Hrj).
        unfold frontier, disjoint in *. destruct down; simpl in *; lia.
      + destruct Hj as [Hj | [_ [e'' Hin'']]]; [|exfalso; exact (Hn e'' Hin'')].
        specialize (Hf j Hrj Hj). specialize (Hbd k e' Hin' Hrk).
        unfold frontier, disjoint in *. destruct down; simpl in *; lia.
      + destruct Hj as [Hj | [_ [e'' Hin'']]]; [|exfalso; exact (Hn e'' Hin'')].
        destruct Hk as [Hk | [_ [e''' Hin''']]]; [|exfalso; exact (Hn' e''' Hin''')].
        apply Hd; auto.
  Qed.
End Layout.

Lemma li_protector_phase (m0 : MachineFrameInfo) (Hwf : objects_wf m0) (down : bool)
  (P : PEIState) (SSP : Z -> SSPLayoutKind) (placed : Z -> Prop) (s : LayoutState) :
  layout_inv down m0 placed s ->
  layout_inv down m0
    (fun j => placed j \/ (0 <= StackProtectorIdx m0 /\ j = StackProtectorIdx m0) \/
              In j (snd (protector_phase down P SSP s)))
    (fst (protector_phase down P SSP s)).
Proof.
  intros Hs. pose proof Hs as [He _]. unfold protector_phase. cbv zeta.
  rewrite (same_spi _ _ He).
  destruct (Z.leb_spec 0 (StackProtectorIdx m0)) as [Hp|Hp]; simpl.
  - eapply li_weaken;
      [|apply (li_fold_place m0 down (AdjustStackOffset down)
                (li_AdjustStackOffset m0 Hwf down)), li_AdjustStackOffset, Hs; exact Hwf].
    intros j [Hj | [[_ ->] | Hj]]; auto.
  - eapply li_weaken; [|exact Hs]. intros j [Hj | [[Hc _] | []]]; [exact Hj | lia].
Qed.

Lemma li_scavenging (m0 : MachineFrameInfo) (Hwf : objects_wf m0) (T : TargetInfo)
  (P : PEIState) (early : bool) (placed : Z -> Prop) (s : LayoutState) :
  layout_inv (StackGrowsDown T) m0 placed s ->
  layout_inv (StackGrowsDown T) m0
    (fun j => placed j \/ exists sfis, RS P = Some sfis /\
                Bool.eqb (EarlyScavengingSlots T) early = true /\ In j sfis)
    (scavenging_slots T P early s).
Proof.
  intros Hs. unfold scavenging_slots.
  destruct (RS P) as [sfis|] eqn:Er;
    [|eapply li_weaken; [|exact Hs]; intros j [Hj | [? [Hc _]]]; [exact Hj | discriminate]].
  destruct (Bool.eqb (EarlyScavengingSlots T) early) eqn:Eb.
  - eapply li_weaken;
      [|apply (li_fold_place m0 _ (AdjustStackOffset (StackGrowsDown T))
                (li_AdjustStackOffset m0 Hwf _)), Hs].
    intros j [Hj | [sfis' [Hs' [_ Hin]]]]; [auto|].
    injection Hs' as <-. auto.
  - eapply li_weaken; [|exact Hs]. intros j [Hj | [? [_ [Hc _]]]]; [exact Hj | discriminate].
Qed.

Lemma calc_layout_placed (T : TargetInfo) (P : PEIState) (SSP : Z -> SSPLayoutKind)
  (m0 : MachineFrameInfo) (s : LayoutState) (L : Z) :
  objects_wf m0 -> local_block_wf (StackGrowsDown T) m0 ->
  calc_layout T P SSP m0 = Some (s, L) ->
  layout_inv (StackGrowsDown T) m0 (relevant m0) s.
Proof.
  intros Hwf Hlw Hc. unfold calc_layout in Hc.
  destruct (Z.ltb_spec (if StackGrowsDown T then - OffsetOfLocalArea T else OffsetOfLocalArea T) 0)
    as [|HL]; [discriminate|].
  set (down := StackGrowsDown T) in *.
  set (O0 := fold_left (fixed_step down m0) _ _) in Hc.
  assert (H0 : layout_inv down m0 (fun _ => False) (mkLS m0 O0 0)).
  { split; [reflexivity|]. split; [|split; intros; contradiction].
    simpl. pose proof (fixed_fold_ge down m0 (zrange (getObjectIndexBegin m0) (NumFixedObjects m0))
             (if down then - OffsetOfLocalArea T else OffsetOfLocalArea T)). unfold O0. lia. }
  pose proof (li_fold_place m0 down (csr_step down) (li_csr_step m0 Hwf down)
                (csr_order down P) _ _ H0) as H1.
  set (s1 := fold_left (csr_step down) (csr_order down P) (mkLS m0 O0 0)) in *.
  pose proof (li_scavenging m0 Hwf T P true _ (mkLS (ls_mfi s1) (ls_Offset s1) (MaxAlignment (ls_mfi s1))) H1)
    as H3.
  pose proof (li_local_block m0 Hwf down _ _ Hlw H3) as H4.
  pose proof (li_protector_phase m0 Hwf down P SSP _ _ H4) as H5.
  destruct (protector_phase down P SSP _) as [s5 Prot] eqn:Ep. simpl in H5.
  pose proof (li_main_phase m0 Hwf down P Prot _ _ H5) as H6.
  pose proof (li_scavenging m0 Hwf T P false _ _ H6) as H7.
  injection Hc as <- _.
  eapply li_weaken; [|exact H7].
  intros j Hr. pose proof Hr as [[Hj0 Hjend] [Hdead _]].
  unfold skipped_object in *.
  destruct (isObjectPreAllocated m0 j && UseLocalStackAllocationBlock m0) eqn:E1.
  { apply andb_true_iff in E1 as [Ep1 Eu].
    destruct (Hlw Eu) as [_ [_ [_ [_ Hcov]]]].
    do 3 left. right. split; [exact Eu | apply Hcov; assumption]. }
  destruct ((MinCSFrameIndex P <=? j) && (j <=? MaxCSFrameIndex P)) eqn:E2.
  { apply andb_true_iff in E2 as [Ea Eb]. apply Z.leb_le in Ea. apply Z.leb_le in Eb.
    do 5 left. right. unfold csr_order, csr_indices.
    assert (In j (zrange (MinCSFrameIndex P)
                   (Z.to_nat (MaxCSFrameIndex P - MinCSFrameIndex P + 1))))
      by (apply zrange_In; lia).
    destruct down; [assumption | apply in_rev; rewrite rev_involutive; assumption]. }
  destruct (isScavengingFrameIndex P j) eqn:E3.
  { unfold isScavengingFrameIndex in E3. destruct (RS P) as [sfis|] eqn:Er; [|discriminate].
    apply existsb_exists in E3 as [x [Hx Hjx]]. apply Z.eqb_eq in Hjx. subst x.
    destruct (EarlyScavengingSlots T) eqn:Ee.
    - do 4 left. right. exists sfis. repeat split; auto.
    - right. exists sfis. repeat split; auto. }
  rewrite Hdead.
  destruct (StackProtectorIdx m0 =? j) eqn:E4.
  { apply Z.eqb_eq in E4. do 2 left. right. left. split; lia. }
  destruct (existsb (Z.eqb j) Prot) eqn:E5.
  { apply existsb_exists in E5 as [x [Hx Hjx]]. apply Z.eqb_eq in Hjx. subst x.
    do 2 left. right. right. exact Hx. }
  left. right. split; [apply zrange_In; lia|].
  rewrite ?E1, ?E2, ?E3, ?Hdead, ?E4, ?E5. reflexivity.
Qed.

(** C1: under the frame's size/alignment well-formedness and the contract
    of the local stack block, after offset assignment the byte ranges of
    any two distinct live, non-fixed objects of positive size are
    disjoint, for either growth direction. *)
Theorem calculateFrameObjectOffsets_disjoint (T : TargetInfo) (P : PEIState)
  (SSP : Z -> SSPLayoutKind) (m m' : MachineFrameInfo)
  (Hwf : objects_wf m) (Hlw : local_block_wf (StackGrowsDown T) m)
  (Hrun : calculateFrameObjectOffsets T P SSP m = Some m') :
  forall j k, j <> k -> relevant m' j -> relevant m' k ->
  disjoint (getObjectOffset m' j) (getObjectSize m' j)
           (getObjectOffset m' k) (getObjectSize m' k).
Proof.
  unfold calculateFrameObjectOffsets in Hrun.
  destruct (calc_layout T P SSP m) as [[s L]|] eqn:Ec; [|discriminate].
  injection Hrun as <-.
  pose proof (calc_layout_placed T P SSP m s L Hwf Hlw Ec) as [He [_ [_ Hd]]].
  intros j k Hjk Hrj Hrk.
  assert (He' : erase (setStackSize (ls_mfi s) (final_offset T s - L)) = erase m)
    by (rewrite erase_setStackSize; exact He).
  apply (same_relevant _ _ He') in Hrj, Hrk.
  rewrite !getObjectOffset_setStackSize, !(same_size _ _ He').
  apply Hd; assumption.
Qed.

Lemma calculateFrameObjectOffsets_disjoint_witness :
  exists m', calculateFrameObjectOffsets (down16 0) no_csr (fun _ => SSPLK_None) two_objects
               = Some m' /\
  disjoint (getObjectOffset m' 0) (getObjectSize m' 0)
           (getObjectOffset m' 1) (getObjectSize m' 1).
Proof.
  eexists. split; [reflexivity|].
  apply (calculateFrameObjectOffsets_disjoint (down16 0) no_csr (fun _ => SSPLK_None) two_objects).
  - intros o [<- | [<- | []]]; simpl; lia.
  - discriminate.
  - reflexivity.
  - lia.
  - unfold relevant; vm_compute; repeat split; congruence.
  - unfold relevant; vm_compute; repeat split; congruence.
Defined.

(* ------------------------------------------------------------------ *)
(** ** Stack-pointer adjustment along the depth-first walk *)

Lemma Succs_setBlockInsts (Fn : MachineFunction) (b c : nat) (l : list MachineInstr) :
  Succs (getBlock (setBlockInsts Fn b l) c) = Succs (getBlock Fn c).
Proof.
  destruct (Nat.eq_dec b c) as [<- | Hbc]; [| rewrite getBlock_setBlockInsts_ne; auto].
  unfold getBlock, setBlockInsts. revert b.
  induction Fn as [|bb Fn IH]; intros [|b]; simpl; auto.
Qed.

Lemma existsb_eqb_false (c : nat) (R : list nat) :
  existsb (Nat.eqb c) R = false -> ~ In c R.
Proof.
  intros E Hin. assert (existsb (Nat.eqb c) R = true) as E'.
  { apply existsb_exists. exists c. split; [exact Hin | apply Nat.eqb_refl]. }
  congruence.
Qed.

Lemma existsb_eqb_true (c : nat) (R : list nat) :
  existsb (Nat.eqb c) R = true -> In c R.
Proof.
  intros E. apply existsb_exists in E as [x [Hx Hxe]].
  apply Nat.eqb_eq in Hxe. subst. exact Hx.
Qed.

Lemma dfs_visit_ok_app (Fn0 : MachineFunction) (log l : list BlockVisit) (k : nat)
  (v : BlockVisit) :
  dfs_visit_ok Fn0 log k v -> dfs_visit_ok Fn0 (log ++ l) k v.
Proof.
  intros [pre [Hp [H0 H1]]]. exists pre. split; [exact Hp | split; [exact H0 |]].
  intros pre' p Hpre. destruct (H1 pre' p Hpre) as [k' [w [Hk [Hw Hrest]]]].
  exists k', w. split; [exact Hk | split; [apply lookup_app_l_Some; exact Hw | exact Hrest]].
Qed.

Lemma dfs_inv_pop (Fn0 F : MachineFunction) n cs rest R SP log :
  dfs_inv Fn0 F ((n, cs) :: rest) R SP log -> dfs_inv Fn0 F rest R SP log.
Proof.
  intros (H1 & H2 & H3 & H4 & H5 & H6 & H7).
  refine (conj H1 (conj H2 (conj H3 (conj H4 (conj H5 (conj H6 _)))))).
  intros n' cs' Hin. apply (H7 n' cs'). right. exact Hin.
Qed.

Lemma dfs_inv_skip (Fn0 F : MachineFunction) n c cs rest R SP log :
  dfs_inv Fn0 F ((n, c :: cs) :: rest) R SP log -> dfs_inv Fn0 F ((n, cs) :: rest) R SP log.
Proof.
  intros (H1 & H2 & H3 & H4 & H5 & H6 & H7).
  refine (conj H1 (conj H2 (conj H3 (conj H4 (conj H5 (conj H6 _)))))).
  intros n' cs' [Heq | Hin].
  - injection Heq as <- <-. destruct (H7 n (c :: cs) (or_introl eq_refl)) as [Hn Hc].
    split; [exact Hn | intros c' Hc'; apply Hc; right; exact Hc'].
  - apply H7. right. exact Hin.
Qed.

Lemma dfs_inv_push (H : TargetHooks) (down : bool) (Fn0 F : MachineFunction)
  n c cs rest R SP log :
  dfs_inv Fn0 F ((n, c :: cs) :: rest) R SP log ->
  ~ In c R ->
  let stack' := (c, Succs (getBlock F c)) :: (n, cs) :: rest in
  match visit_block H down F SP stack' c with
  | (F', SP', v) => dfs_inv Fn0 F' stack' (c :: R) SP' (log ++ [v])
  end.
Proof.
  intros (H1 & H2 & H3 & H4 & H5 & H6 & H7) Hc stack'.
  destruct (H7 n (c :: cs) (or_introl eq_refl)) as [Hn Hchild].
  assert (Hedge : In c (Succs (getBlock Fn0 n))) by (apply Hchild; left; reflexivity).
  assert (Hlogblocks : forall w, In w log -> In (v_block w) R).
  { intros w Hw. apply in_rev. rewrite <- H2. apply in_map. exact Hw. }
  unfold visit_block, stack'.
  destruct (replaceFrameIndicesBB H down (Insts (getBlock F c)) (SP n)) as [[l' out] refs].
  set (v := mkVisit c (dfs_path ((c, Succs (getBlock F c)) :: (n, cs) :: rest))
                    (SP n) out refs).
  split; [| split; [| split; [| split; [| split; [| split]]]]].
  - intros c'. rewrite Succs_setBlockInsts. apply H1.
  - rewrite map_app, H2. reflexivity.
  - constructor; assumption.
  - intros w Hw. apply in_app_or in Hw as [Hw | [<- | []]].
    + unfold upd. destruct (Nat.eqb (v_block w) c) eqn:E.
      * apply Nat.eqb_eq in E. exfalso. apply Hc. rewrite <- E. apply Hlogblocks. exact Hw.
      * apply H4. exact Hw.
    + unfold upd. simpl. rewrite Nat.eqb_refl. reflexivity.
  - intros k w Hk. apply lookup_app_Some in Hk as [Hk | [Hle Hk]].
    + apply dfs_visit_ok_app. apply H5. exact Hk.
    + destruct (k - length log)%nat as [|i] eqn:Ei; [| destruct i; discriminate].
      simpl in Hk. injection Hk as <-.
      assert (Hkl : k = length log) by lia. subst k.
      exists (rev (map fst rest) ++ [n]). split; [reflexivity | split].
      * intros Hnil. destruct (rev (map fst rest)); discriminate.
      * intros pre' p Hpre. apply app_inj_tail in Hpre as [_ <-].
        assert (Hn' : In n (map v_block log)) by (rewrite H2, <- in_rev; exact Hn).
        apply in_map_iff in Hn' as [w [Hwn Hw]].
        destruct (list_elem_of_lookup_1 log w (proj2 (list_elem_of_In log w) Hw))
          as [k' Hk'].
        exists k', w. split; [apply (lookup_lt_Some _ _ _ Hk') |].
        split; [apply lookup_app_l_Some; exact Hk' |].
        split; [exact Hwn |]. split; [exact Hedge |].
        simpl. rewrite <- Hwn. apply H4. exact Hw.
  - intros b [<- | Hb].
    + apply (reach_succ Fn0 n c); [apply H6; exact Hn | exact Hedge].
    + apply H6. exact Hb.
  - intros n' cs' [Heq | [Heq | Hin]].
    + injection Heq as <- <-. split; [left; reflexivity |].
      intros c' Hc'. rewrite <- H1. exact Hc'.
    + injection Heq as <- <-. split; [right; exact Hn |].
      intros c' Hc'. apply Hchild. right. exact Hc'.
    + destruct (H7 n' cs' (or_intror Hin)) as [Hn'' Hc''].
      split; [right; exact Hn'' | exact Hc''].
Qed.

Lemma dfs_walk_inv (H : TargetHooks) (down : bool) (Fn0 : MachineFunction) (fuel : nat) :
  forall F stack R SP log, dfs_inv Fn0 F stack R SP log ->
  match dfs_walk H down fuel F stack R SP log with
  | (F', R', log') => exists stack' SP', dfs_inv Fn0 F' stack' R' SP' log'
  end.
Proof.
  induction fuel as [|fuel IH]; intros F stack R SP log Hinv; simpl.
  - exists stack, SP. exact Hinv.
  - destruct stack as [|[n [|c cs]] rest].
    + exists [], SP. exact Hinv.
    + apply IH. apply (dfs_inv_pop _ _ n []). exact Hinv.
    + destruct (existsb (Nat.eqb c) R) eqn:E.
      * apply IH. apply (dfs_inv_skip _ _ n c). exact Hinv.
      * pose proof (dfs_inv_push H down Fn0 F n c cs rest R SP log Hinv
                      (existsb_eqb_false c R E)) as Hp.
        simpl in Hp.
        destruct (visit_block H down F SP ((c, Succs (getBlock F c)) :: (n, cs) :: rest) c)
          as [[F' SP'] v].
        apply IH. exact Hp.
Qed.

Lemma unreachable_step_log (H : TargetHooks) (down : bool) (R : list nat)
  (acc : MachineFunction * list BlockVisit) (b : nat) :
  (forall v, In v (snd acc) -> In v (snd (unreachable_step H down R acc b))) /\
  (forall v, In v (snd (unreachable_step H down R acc b)) ->
     In v (snd acc) \/ v_SPAdjIn v = 0) /\
  (~ In b R -> exists v, In v (snd (unreachable_step H down R acc b)) /\
                 v_block v = b /\ v_SPAdjIn v = 0).
Proof.
  destruct acc as [F lg]. unfold unreachable_step.
  destruct (existsb (Nat.eqb b) R) eqn:E.
  - split; [auto | split; [auto |]].
    intros Hn. exfalso. apply Hn. apply existsb_eqb_true. exact E.
  - destruct (replaceFrameIndicesBB H down (Insts (getBlock F b)) 0) as [[l' out] refs].
    simpl. split; [intros v Hv; apply in_or_app; left; exact Hv | split].
    + intros v Hv. apply in_app_or in Hv as [Hv | [<- | []]]; [left; exact Hv | right; reflexivity].
    + intros _. exists (mkVisit b [] 0 out refs).
      split; [apply in_or_app; right; left; reflexivity | split; reflexivity].
Qed.

Lemma unreachable_fold_log (H : TargetHooks) (down : bool) (R : list nat) (l : list nat) :
  forall acc,
  (forall v, In v (snd acc) -> In v (snd (fold_left (unreachable_step H down R) l acc))) /\
  (forall v, In v (snd (fold_left (unreachable_step H down R) l acc)) ->
     In v (snd acc) \/ v_SPAdjIn v = 0) /\
  (forall b, In b l -> ~ In b R ->
     exists v, In v (snd (fold_left (unreachable_step H down R) l acc)) /\
       v_block v = b /\ v_SPAdjIn v = 0).
Proof.
  induction l as [|x l IH]; intros acc; simpl.
  - split; [auto | split; [auto | intros b []]].
  - destruct (unreachable_step_log H down R acc x) as [S1 [S2 S3]].
    destruct (IH (unreachable_step H down R acc x)) as [I1 [I2 I3]].
    split; [| split].
    + intros v Hv. apply I1, S1, Hv.
    + intros v Hv. destruct (I2 v Hv) as [Hv' | Hz]; [apply S2, Hv' | right; exact Hz].
    + intros b [<- | Hb] HbR.
      * destruct (S3 HbR) as [v [Hv Hrest]]. exists v. split; [apply I1, Hv | exact Hrest].
      * apply I3; assumption.
Qed.

(** C4: during frame-index replacement every block reached by the
    depth-first walk is entered with the exit adjustment recorded for the
    block before it on the current DFS path (a CFG predecessor visited
    earlier), the entry block with 0; the walk reaches each block at most
    once and only reachable ones; every block unreachable from the entry is
    processed afterwards with the adjustment reset to 0. *)
Theorem replaceFrameIndices_SPAdj (H : TargetHooks) (down : bool) (MFI : MachineFrameInfo)
  (Fn : MachineFunction) :
  hasStackObjects MFI = true -> Fn <> [] ->
  match replaceFrameIndices H down MFI Fn with
  | (_, log, log2) =>
    (forall k v, log !! k = Some v -> dfs_visit_ok Fn log k v) /\
    List.NoDup (map v_block log) /\
    (forall v, In v log -> cfg_reachable Fn (v_block v)) /\
    (forall v, In v log2 -> v_SPAdjIn v = 0) /\
    (forall b, (b < length Fn)%nat -> ~ cfg_reachable Fn b ->
       exists v, In v log2 /\ v_block v = b /\ v_SPAdjIn v = 0)
  end.
Proof.
  intros Hobj Hne. unfold replaceFrameIndices. rewrite Hobj. simpl negb. cbv iota.
  destruct Fn as [|bb Fn'] eqn:EFn; [congruence |]. rewrite <- EFn.
  unfold visit_block at 1.
  destruct (replaceFrameIndicesBB H down (Insts (getBlock Fn 0)) 0) as [[l0 out0] refs0].
  set (v0 := mkVisit 0 (dfs_path [(0%nat, Succs (getBlock Fn 0))]) 0 out0 refs0).
  assert (Hinit : dfs_inv Fn (setBlockInsts Fn 0 l0) [(0%nat, Succs (getBlock Fn 0))] [0%nat]
                    (upd (fun _ => 0) 0 out0) [v0]).
  { split; [| split; [| split; [| split; [| split; [| split]]]]].
    - intros c. apply Succs_setBlockInsts.
    - reflexivity.
    - constructor; [intros [] | constructor].
    - intros w [<- | []]. reflexivity.
    - intros k w Hk. destruct k as [|k]; [| destruct k; discriminate].
      injection Hk as <-. exists []. split; [reflexivity | split].
      + intros _. split; reflexivity.
      + intros pre' p Hpre. destruct pre'; discriminate.
    - intros b [<- | []]. constructor.
    - intros n cs [Heq | []]. injection Heq as <- <-.
      split; [left; reflexivity | intros c Hc; exact Hc]. }
  pose proof (dfs_walk_inv H down Fn (dfs_fuel Fn) _ _ _ _ _ Hinit) as Hw.
  destruct (dfs_walk H down (dfs_fuel Fn) (setBlockInsts Fn 0 l0)
              [(0%nat, Succs (getBlock Fn 0))] [0%nat] (upd (fun _ => 0) 0 out0) [v0])
    as [[F2 R] log].
  destruct Hw as [stack' [SP' (H1 & H2 & H3 & H4 & H5 & H6 & H7)]].
  destruct (unreachable_fold_log H down R (seq 0 (length Fn)) (F2, [])) as [_ [U2 U3]].
  destruct (fold_left (unreachable_step H down R) (seq 0 (length Fn)) (F2, []))
    as [F3 log2] eqn:Efold.
  simpl in U2, U3.
  split; [exact H5 | split; [| split; [| split]]].
  - rewrite H2. apply NoDup_rev. exact H3.
  - intros v Hv. apply H6. apply in_rev. rewrite <- H2. apply in_map. exact Hv.
  - intros v Hv. destruct (U2 v Hv) as [[] | Hz]. exact Hz.
  - intros b Hb Hunr. apply U3.
    + apply in_seq. lia.
    + intros HbR. apply Hunr. apply H6. exact HbR.
Qed.

Lemma replaceFrameIndices_SPAdj_witness :
  hasStackObjects (empty_mfi [mk_obj 4 4]) = true /\ two_blocks <> [] /\
  match replaceFrameIndices test_hooks true (empty_mfi [mk_obj 4 4]) two_blocks with
  | (_, log, log2) =>
    (forall k v, log !! k = Some v -> dfs_visit_ok two_blocks log k v) /\
    List.NoDup (map v_block log) /\
    (forall v, In v log -> cfg_reachable two_blocks (v_block v)) /\
    (forall v, In v log2 -> v_SPAdjIn v = 0) /\
    (forall b, (b < length two_blocks)%nat -> ~ cfg_reachable two_blocks b ->
       exists v, In v log2 /\ v_block v = b /\ v_SPAdjIn v = 0)
  end.
Proof.
  split; [reflexivity | split; [discriminate |]].
  apply (replaceFrameIndices_SPAdj test_hooks true (empty_mfi [mk_obj 4 4]) two_blocks).
  - reflexivity.
  - discriminate.
Defined.

Lemma align_to_ge_all (x a : Z) : 1 <= a -> x <= align_to x a.
Proof.
  intros Ha. unfold align_to.
  destruct (Z.le_gt_cases 0 (x + a - 1)) as [Hy|Hy].
  - rewrite Z.quot_div_nonneg by lia. apply round_up_ge. exact Ha.
  - pose proof (Z.mul_quot_ge (x + a - 1) a ltac:(lia) ltac:(lia)). lia.
Qed.

Lemma erase_AdjustStackOffset (down : bool) (s : LayoutState) (i : Z) :
  erase (ls_mfi (AdjustStackOffset down s i)) = erase (ls_mfi s).
Proof. unfold AdjustStackOffset. destruct down; apply erase_setObjectOffset. Qed.

Lemma erase_AdjustStackOffsets (down : bool) (l : list Z) :
  forall s, erase (ls_mfi (AdjustStackOffsets down s l)) = erase (ls_mfi s).
Proof.
  unfold AdjustStackOffsets. induction l as [|i l IH]; intros s; simpl; [reflexivity|].
  rewrite IH. apply erase_AdjustStackOffset.
Qed.

Lemma erase_csr_steps (down : bool) (l : list Z) :
  forall s, erase (ls_mfi (fold_left (csr_step down) l s)) = erase (ls_mfi s).
Proof.
  induction l as [|i l IH]; intros s; simpl; [reflexivity|].
  rewrite IH. unfold csr_step. destruct down; apply erase_setObjectOffset.
Qed.

Lemma erase_scavenging (T : TargetInfo) (P : PEIState) (early : bool) (s : LayoutState) :
  erase (ls_mfi (scavenging_slots T P early s)) = erase (ls_mfi s).
Proof.
  unfold scavenging_slots. destruct (RS P); [destruct (Bool.eqb _ _)|];
    auto using erase_AdjustStackOffsets.
Qed.

Lemma erase_local_block (down : bool) (s : LayoutState) :
  erase (ls_mfi (local_block down s)) = erase (ls_mfi s).
Proof.
  unfold local_block. destruct (UseLocalStackAllocationBlock (ls_mfi s)); [|reflexivity].
  apply erase_fold_set.
Qed.

Lemma mask_round_ge (x msk : Z) : 0 <= msk -> x <= Z.land (x + msk) (Z.lnot msk).
Proof.
  intros Hm. rewrite <- Z.sub_land_same_l.
  assert (Z.land (x + msk) msk <= msk).
  { rewrite Z.land_comm. pose proof (Z.sub_land_same_l msk (x + msk)).
    pose proof (proj2 (Z.land_nonneg msk (Z.lnot (x + msk))) (or_introl Hm)). lia. }
  lia.
Qed.

Lemma final_offset_ge (T : TargetInfo) (s : LayoutState) :
  0 <= MaxCallFrameSizeVal (ls_mfi s) ->
  ls_Offset s <= final_offset T s /\
  (targetHandlesStackFrameRounding T = false ->
   AdjustsStackFlag (ls_mfi s) && hasReservedCallFrame T = true ->
   ls_Offset s + MaxCallFrameSizeVal (ls_mfi s) <= final_offset T s).
Proof.
  intros Hmc. unfold final_offset.
  destruct (targetHandlesStackFrameRounding T); [split; [lia | discriminate]|].
  set (msk := (resolved_stack_align T s - 1) mod 2 ^ 32).
  assert (Hm : 0 <= msk) by (apply Z.mod_pos_bound; lia).
  set (Off := if AdjustsStackFlag (ls_mfi s) && hasReservedCallFrame T
              then ls_Offset s + MaxCallFrameSizeVal (ls_mfi s) else ls_Offset s).
  pose proof (mask_round_ge Off msk Hm).
  assert (ls_Offset s <= Off) by (unfold Off; destruct (_ && _); lia).
  split; [lia|]. intros _ Hadj. unfold Off in *. rewrite Hadj in *. lia.
Qed.

Lemma erase_main_phase (down : bool) (P : PEIState) (Prot : list Z) (s : LayoutState) :
  erase (ls_mfi (main_phase down P Prot s)) = erase (ls_mfi s).
Proof.
  unfold main_phase. apply (fold_left_inv (fun t => erase (ls_mfi t) = erase (ls_mfi s)));
    [|reflexivity].
  intros a x _ Ha. unfold main_step. destruct (_ || _); [exact Ha|].
  rewrite erase_AdjustStackOffset. exact Ha.
Qed.

Lemma erase_protector_phase (down : bool) (P : PEIState) (SSP : Z -> SSPLayoutKind)
  (s : LayoutState) :
  erase (ls_mfi (fst (protector_phase down P SSP s))) = erase (ls_mfi s).
Proof.
  unfold protector_phase. destruct (0 <=? _); [|reflexivity]. simpl.
  rewrite erase_AdjustStackOffsets. apply erase_AdjustStackOffset.
Qed.

(** Whatever the frame holds, offset assignment only sets offsets. *)
Lemma calc_layout_erase (T : TargetInfo) (P : PEIState) (SSP : Z -> SSPLayoutKind)
  (m : MachineFrameInfo) (s : LayoutState) (L : Z) :
  calc_layout T P SSP m = Some (s, L) -> erase (ls_mfi s) = erase m.
Proof.
  intros Hc. unfold calc_layout in Hc.
  destruct (_ <? 0); [discriminate|].
  destruct (protector_phase _ _ _ _) as [s5 Prot] eqn:Ep.
  injection Hc as <- _.
  rewrite erase_scavenging, erase_main_phase.
  match type of Ep with protector_phase ?d ?P ?S ?t = _ =>
    pose proof (erase_protector_phase d P S t) as E5 end.
  rewrite Ep in E5. simpl in E5. rewrite E5, erase_local_block, erase_scavenging. simpl.
  apply erase_csr_steps.
Qed.

Section Grows.
Variable m0 : MachineFrameInfo.
Hypothesis Hr : ranges_wf m0.
Variable L : Z.

Lemma grow_AdjustStackOffset (down : bool) (s : LayoutState) (i : Z) :
    grow_inv m0 L s -> grow_inv m0 L (AdjustStackOffset down s i).
  Proof.
    intros [He Ho]. split; [rewrite erase_AdjustStackOffset; exact He|].
    pose proof (objects_wf_size m0 i (proj1 Hr)).
    pose proof (objects_wf_alignment m0 i (proj1 Hr)).
    unfold AdjustStackOffset. rewrite (same_size _ _ He), (same_alignment _ _ He).
    destruct down; simpl.
    - pose proof (align_to_ge_all (ls_Offset s + getObjectSize m0 i)
                    (getObjectAlignment m0 i) ltac:(lia)). lia.
    - pose proof (align_to_ge_all (ls_Offset s) (getObjectAlignment m0 i) ltac:(lia)). lia.
  Qed.

Lemma grow_csr_step (down : bool) (s : LayoutState) (i : Z) :
    grow_inv m0 L s -> grow_inv m0 L (csr_step down s i).
  Proof.
    intros [He Ho].
    pose proof (objects_wf_size m0 i (proj1 Hr)).
    pose proof (objects_wf_alignment m0 i (proj1 Hr)).
    unfold csr_step. rewrite (same_size _ _ He), (same_alignment _ _ He).
    destruct down; (split; [simpl; rewrite erase_setObjectOffset; exact He|]); simpl.
    - pose proof (align_to_ge_all (ls_Offset s + getObjectSize m0 i)
                    (getObjectAlignment m0 i) ltac:(lia)). lia.
    - pose proof (align_to_ge_all (ls_Offset s) (getObjectAlignment m0 i) ltac:(lia)). lia.
  Qed.

Lemma grow_AdjustStackOffsets (down : bool) (s : LayoutState) (l : list Z) :
    grow_inv m0 L s -> grow_inv m0 L (AdjustStackOffsets down s l).
  Proof.
    apply fold_left_inv. intros a x _. apply grow_AdjustStackOffset.
  Qed.

Lemma grow_local_block (down : bool) (s : LayoutState) :
    grow_inv m0 L s -> grow_inv m0 L (local_block down s).
  Proof.
    intros [He Ho]. split; [rewrite erase_local_block; exact He|].
    unfold local_block.
    destruct (UseLocalStackAllocationBlock (ls_mfi s)) eqn:Eu; [|exact Ho].
    rewrite (same_uselocal _ _ He) in Eu.
    destruct (proj1 (proj2 Hr) Eu) as [Ha Hs].
    rewrite (same_lfs _ _ He), (same_lfma _ _ He). simpl.
    pose proof (align_to_ge_all (ls_Offset s) (LocalFrameMaxAlign m0) Ha). lia.
  Qed.

Lemma grow_main_phase (down : bool) (P : PEIState) (Prot : list Z) (s : LayoutState) :
    grow_inv m0 L s -> grow_inv m0 L (main_phase down P Prot s).
  Proof.
    unfold main_phase. apply fold_left_inv. intros a x _ Ha. unfold main_step.
    destruct (_ || _); [exact Ha | apply grow_AdjustStackOffset; exact Ha].
  Qed.

Lemma grow_protector_phase (down : bool) (P : PEIState) (SSP : Z -> SSPLayoutKind)
    (s : LayoutState) :
    grow_inv m0 L s -> grow_inv m0 L (fst (protector_phase down P SSP s)).
  Proof.
    intros Hs. unfold protector_phase. destruct (0 <=? _); simpl; [|exact Hs].
    apply grow_AdjustStackOffsets, grow_AdjustStackOffset, Hs.
  Qed.

Lemma grow_scavenging (T : TargetInfo) (P : PEIState) (early : bool) (s : LayoutState) :
    grow_inv m0 L s -> grow_inv m0 L (scavenging_slots T P early s).
  Proof.
    intros Hs. unfold scavenging_slots.
    destruct (RS P); [destruct (Bool.eqb _ _)|]; auto using grow_AdjustStackOffsets.
  Qed.
End Grows.

Lemma calc_layout_grows (T : TargetInfo) (P : PEIState) (SSP : Z -> SSPLayoutKind)
  (m0 : MachineFrameInfo) (s : LayoutState) (L : Z) :
  ranges_wf m0 -> calc_layout T P SSP m0 = Some (s, L) ->
  L = local_area_offset T /\ 0 <= L /\ grow_inv m0 L s.
Proof.
  intros Hr Hc. unfold calc_layout in Hc.
  destruct (Z.ltb_spec (if StackGrowsDown T then - OffsetOfLocalArea T else OffsetOfLocalArea T) 0)
    as [|HL]; [discriminate|].
  set (L0 := if StackGrowsDown T then - OffsetOfLocalArea T else OffsetOfLocalArea T) in *.
  set (O0 := fold_left _ _ L0) in Hc.
  set (s1 := fold_left (csr_step (StackGrowsDown T)) (csr_order (StackGrowsDown T) P)
               (mkLS m0 O0 0)) in Hc.
  assert (H1 : grow_inv m0 L0 s1).
  { apply fold_left_inv; [intros a x _; apply (grow_csr_step m0 Hr)|].
    split; [reflexivity | apply fixed_fold_ge]. }
  set (s2 := mkLS (ls_mfi s1) (ls_Offset s1) (MaxAlignment (ls_mfi s1))) in Hc.
  assert (H2 : grow_inv m0 L0 s2) by exact H1.
  destruct (protector_phase _ _ _ _) as [s5 Prot] eqn:Ep.
  injection Hc as <- <-.
  split; [reflexivity|]. split; [exact HL|].
  apply (grow_scavenging m0 Hr), (grow_main_phase m0 Hr).
  replace s5 with (fst (protector_phase (StackGrowsDown T) P SSP
                          (local_block (StackGrowsDown T) (scavenging_slots T P true s2))))
    by (rewrite Ep; reflexivity).
  apply (grow_protector_phase m0 Hr), (grow_local_block m0 Hr), (grow_scavenging m0 Hr), H2.
Qed.

(** C3 (amended): with non-negative sizes and positive alignments, a
    non-negative local block and an unsigned maximum call-frame size, the
    stack size is never negative; when moreover every alignment is a power
    of two below 2^32 (the frame's recorded maximum may still be 0) and the
    target leaves the rounding to this pass, it is the stack size plus the
    local-area offset (the distance from the incoming stack pointer), not
    the stack size itself, that is a multiple of the resolved stack
    alignment. *)
Theorem calculateFrameObjectOffsets_stack_size (T : TargetInfo) (P : PEIState)
  (SSP : Z -> SSPLayoutKind) (m m' : MachineFrameInfo)
  (Hr : ranges_wf m)
  (Hrun : calculateFrameObjectOffsets T P SSP m = Some m') :
  0 <= StackSizeVal m' /\
  (align_wf T m -> targetHandlesStackFrameRounding T = false ->
   (StackSizeVal m' + local_area_offset T) mod resolved_alignment T P SSP m = 0).
Proof.
  unfold calculateFrameObjectOffsets in Hrun.
  destruct (calc_layout T P SSP m) as [[s L]|] eqn:Ec; [|discriminate].
  injection Hrun as <-. simpl.
  split.
  - destruct (calc_layout_grows T P SSP m s L Hr Ec) as [_ [_ [He Ho]]].
    assert (Hmc : 0 <= MaxCallFrameSizeVal (ls_mfi s))
      by (rewrite (same_mcfs _ _ He); apply Hr).
    pose proof (proj1 (final_offset_ge T s Hmc)). lia.
  - intros Hw Hround.
    destruct (calc_layout_mono T P SSP m s L Hw Ec) as [-> [HL [He [Ho Ha]]]].
    unfold resolved_alignment. rewrite Ec.
    assert (HA : good_align (resolved_stack_align T s)).
    { unfold resolved_stack_align. apply good_align_max; [|exact Ha].
      destruct (_ || _); apply Hw. }
    destruct HA as [k [Hk HA]].
    unfold final_offset. rewrite Hround, HA.
    set (Off := if AdjustsStackFlag (ls_mfi s) && hasReservedCallFrame T
                then ls_Offset s + MaxCallFrameSizeVal (ls_mfi s) else ls_Offset s).
    assert (Hmc : 0 <= MaxCallFrameSizeVal (ls_mfi s))
      by (rewrite (same_mcfs _ _ He); apply Hw).
    assert (HOff : 0 <= Off) by (unfold Off; destruct (_ && _); lia).
    rewrite round_mask_pow2 by lia.
    replace ((Off + 2 ^ k - 1) / 2 ^ k * 2 ^ k - local_area_offset T + local_area_offset T)
      with ((Off + 2 ^ k - 1) / 2 ^ k * 2 ^ k) by lia.
    apply Z_mod_mult.
Qed.

Lemma calculateFrameObjectOffsets_stack_size_witness :
  ranges_wf bare_mfi /\ align_wf (down16 (-8)) bare_mfi /\
  (exists m', calculateFrameObjectOffsets (down16 (-8)) no_csr (fun _ => SSPLK_None)
                bare_mfi = Some m' /\
   0 <= StackSizeVal m' /\
   (StackSizeVal m' + local_area_offset (down16 (-8)))
     mod resolved_alignment (down16 (-8)) no_csr (fun _ => SSPLK_None) bare_mfi = 0).
Proof.
  assert (Hr : ranges_wf bare_mfi).
  { split; [intros o []|]. split; [discriminate | simpl; lia]. }
  assert (Hw : align_wf (down16 (-8)) bare_mfi).
  { split; [intros o []|].
    split; [left; reflexivity|].
    split; [exists 4; split; [lia | reflexivity]|].
    split; [exists 4; split; [lia | reflexivity]|].
    split; [discriminate | simpl; lia]. }
  split; [exact Hr | split; [exact Hw|]].
  eexists. split; [reflexivity|].
  destruct (calculateFrameObjectOffsets_stack_size (down16 (-8)) no_csr (fun _ => SSPLK_None)
              bare_mfi _ Hr eq_refl) as [H1 H2].
  split; [exact H1 | exact (H2 Hw eq_refl)].
Defined.

(** C3 counterexample: an x86-64-like target (local area offset -8, stack
    growing down, 16-byte alignment) and a frame with no objects: the stack
    size comes out as 8, which is not a multiple of the resolved 16. *)
Lemma calculateFrameObjectOffsets_stack_size_counterexample :
  exists m', calculateFrameObjectOffsets (down16 (-8)) no_csr (fun _ => SSPLK_None)
               (empty_mfi []) = Some m' /\
  StackSizeVal m' = 8 /\
  resolved_alignment (down16 (-8)) no_csr (fun _ => SSPLK_None) (empty_mfi []) = 16 /\
  StackSizeVal m' mod
    resolved_alignment (down16 (-8)) no_csr (fun _ => SSPLK_None) (empty_mfi []) <> 0.
Proof.
  eexists. split; [reflexivity|]. split; [reflexivity|]. split; [reflexivity|].
  vm_compute. discriminate.
Qed.

(* ------------------------------------------------------------------ *)
(** ** C9: the faults of offset assignment *)

Lemma fold_checked_sound {A B} (flt : A -> B -> option PEIFault) (g : A -> B -> A)
  (l : list B) :
  forall a a', fold_checked flt g l a = inr a' -> a' = fold_left g l a.
Proof.
  induction l as [|x l IH]; intros a a' E; simpl in E |- *.
  - injection E as <-. reflexivity.
  - destruct (flt a x); [discriminate | exact (IH _ _ E)].
Qed.

Lemma fold_checked_ok {A B} (Q : A -> Prop) (flt : A -> B -> option PEIFault)
  (g : A -> B -> A) (l : list B) :
  (forall a x, In x l -> Q a -> Q (g a x)) ->
  (forall a x, In x l -> Q a -> flt a x = None) ->
  forall a, Q a -> fold_checked flt g l a = inr (fold_left g l a).
Proof.
  induction l as [|x l IH]; intros Hg Hf a Ha; simpl; [reflexivity|].
  rewrite (Hf a x (or_introl eq_refl) Ha).
  apply IH; [intros; apply Hg; simpl; auto | intros; apply Hf; simpl; auto
            | apply Hg; simpl; auto].
Qed.

Lemma fold_checked_fault {A B} (flt : A -> B -> option PEIFault) (g : A -> B -> A)
  (l : list B) :
  forall a e, fold_checked flt g l a = inl e -> exists a' x, flt a' x = Some e.
Proof.
  induction l as [|x l IH]; intros a e E; simpl in E; [discriminate|].
  destruct (flt a x) eqn:Ef; [injection E as <-; eauto | eauto].
Qed.

Lemma bind_fault_inr {A B} (r : PEIFault + A) (k : A -> PEIFault + B) (b : B) :
  bind_fault r k = inr b -> exists a, r = inr a /\ k a = inr b.
Proof. destruct r; simpl; [discriminate | eauto]. Qed.

Lemma bind_fault_not_lao {A B} (r : PEIFault + A) (k : A -> PEIFault + B) :
  r <> inl LocalAreaOffsetFault -> (forall a, k a <> inl LocalAreaOffsetFault) ->
  bind_fault r k <> inl LocalAreaOffsetFault.
Proof. destruct r as [e|a]; simpl; [congruence | auto]. Qed.

Lemma fold_checked_not_lao {A B} (flt : A -> B -> option PEIFault) (g : A -> B -> A)
  (l : list B) (a : A) :
  (forall a x, flt a x <> Some LocalAreaOffsetFault) ->
  fold_checked flt g l a <> inl LocalAreaOffsetFault.
Proof.
  intros Hf E. destruct (fold_checked_fault _ _ _ _ _ E) as [a' [x Ex]]. exact (Hf a' x Ex).
Qed.

Lemma place_fault_not_lao (m : MachineFrameInfo) (i : Z) :
  place_fault m i <> Some LocalAreaOffsetFault.
Proof.
  unfold place_fault. destruct (getObject m i); [|discriminate].
  destruct (_ =? 0); [discriminate|]. destruct (isDead s); discriminate.
Qed.

Lemma adjust_fault_not_lao (s : LayoutState) (i : Z) :
  adjust_fault s i <> Some LocalAreaOffsetFault.
Proof. apply place_fault_not_lao. Qed.

Lemma offset_fault_not_lao (m : MachineFrameInfo) (i : Z) :
  offset_fault m i <> Some LocalAreaOffsetFault.
Proof.
  unfold offset_fault. destruct (getObject m i); [|discriminate].
  destruct (isDead s); discriminate.
Qed.

Lemma main_fault_not_lao (P : PEIState) (Prot : list Z) (s : LayoutState) (i : Z) :
  main_fault P Prot s i <> Some LocalAreaOffsetFault.
Proof. unfold main_fault. destruct (_ || _); [discriminate | apply adjust_fault_not_lao]. Qed.

Lemma scavenging_checked_not_lao (T : TargetInfo) (P : PEIState) (early : bool)
  (s : LayoutState) :
  scavenging_slots_checked T P early s <> inl LocalAreaOffsetFault.
Proof.
  unfold scavenging_slots_checked. destruct (RS P); [destruct (Bool.eqb _ _)|];
    try discriminate.
  apply fold_checked_not_lao, adjust_fault_not_lao.
Qed.

Lemma local_block_checked_not_lao (down : bool) (s : LayoutState) :
  local_block_checked down s <> inl LocalAreaOffsetFault.
Proof.
  unfold local_block_checked. destruct (UseLocalStackAllocationBlock _); [|discriminate].
  destruct (_ =? 0); [discriminate|].
  apply bind_fault_not_lao; [|discriminate].
  apply fold_checked_not_lao. intros; apply offset_fault_not_lao.
Qed.

Lemma protector_checked_not_lao (down : bool) (P : PEIState) (SSP : Z -> SSPLayoutKind)
  (s : LayoutState) :
  protector_phase_checked down P SSP s <> inl LocalAreaOffsetFault.
Proof.
  unfold protector_phase_checked. destruct (0 <=? _); [|discriminate].
  destruct (adjust_fault _ _) eqn:Ea.
  - intros [= Ep]. subst p. exact (adjust_fault_not_lao _ _ Ea).
  - apply bind_fault_not_lao; [|discriminate].
    apply fold_checked_not_lao, adjust_fault_not_lao.
Qed.

Lemma main_checked_not_lao (down : bool) (P : PEIState) (Prot : list Z) (s : LayoutState) :
  main_phase_checked down P Prot s <> inl LocalAreaOffsetFault.
Proof. apply fold_checked_not_lao, main_fault_not_lao. Qed.

Lemma scavenging_checked_sound (T : TargetInfo) (P : PEIState) (early : bool)
  (s s' : LayoutState) :
  scavenging_slots_checked T P early s = inr s' -> s' = scavenging_slots T P early s.
Proof.
  unfold scavenging_slots_checked, scavenging_slots, AdjustStackOffsets.
  destruct (RS P); [destruct (Bool.eqb _ _)|];
    [apply fold_checked_sound | congruence | congruence].
Qed.

Lemma local_block_checked_sound (down : bool) (s s' : LayoutState) :
  local_block_checked down s = inr s' -> s' = local_block down s.
Proof.
  unfold local_block_checked, local_block.
  destruct (UseLocalStackAllocationBlock _); [|congruence].
  destruct (_ =? 0); [discriminate|].
  intros E. apply bind_fault_inr in E as [MFI' [E1 E2]].
  apply fold_checked_sound in E1. subst MFI'. injection E2 as <-. reflexivity.
Qed.

Lemma protector_checked_sound (down : bool) (P : PEIState) (SSP : Z -> SSPLayoutKind)
  (s : LayoutState) (r : LayoutState * list Z) :
  protector_phase_checked down P SSP s = inr r -> r = protector_phase down P SSP s.
Proof.
  unfold protector_phase_checked, protector_phase.
  destruct (0 <=? _); [|congruence].
  destruct (adjust_fault _ _); [discriminate|].
  intros E. apply bind_fault_inr in E as [s2 [E1 E2]].
  apply fold_checked_sound in E1. subst s2. injection E2 as <-. reflexivity.
Qed.

Lemma main_checked_sound (down : bool) (P : PEIState) (Prot : list Z) (s s' : LayoutState) :
  main_phase_checked down P Prot s = inr s' -> s' = main_phase down P Prot s.
Proof. apply fold_checked_sound. Qed.

Lemma calc_layout_checked_sound (T : TargetInfo) (P : PEIState) (SSP : Z -> SSPLayoutKind)
  (m : MachineFrameInfo) (r : LayoutState * Z) :
  calc_layout_checked T P SSP m = inr r -> calc_layout T P SSP m = Some r.
Proof.
  unfold calc_layout_checked, calc_layout. cbv zeta.
  destruct (_ && _); [discriminate|].
  destruct (_ <? 0); [discriminate|].
  intros E.
  apply bind_fault_inr in E as [O0 [E0 E]]. apply fold_checked_sound in E0. subst O0.
  apply bind_fault_inr in E as [s1 [E1 E]]. apply fold_checked_sound in E1. subst s1.
  apply bind_fault_inr in E as [s3 [E3 E]]. apply scavenging_checked_sound in E3. subst s3.
  apply bind_fault_inr in E as [s4 [E4 E]]. apply local_block_checked_sound in E4. subst s4.
  apply bind_fault_inr in E as [r5 [E5 E]]. apply protector_checked_sound in E5. subst r5.
  apply bind_fault_inr in E as [s6 [E6 E]]. apply main_checked_sound in E6. subst s6.
  apply bind_fault_inr in E as [s7 [E7 E]]. apply scavenging_checked_sound in E7. subst s7.
  injection E as <-. destruct (protector_phase _ _ _ _). reflexivity.
Qed.

Lemma place_fault_erase (m1 m2 : MachineFrameInfo) (i : Z) :
  erase m1 = erase m2 -> place_fault m1 i = place_fault m2 i.
Proof.
  intros He. pose proof (f_equal (fun m => getObject m i) He) as E. cbv beta in E.
  rewrite !getObject_erase in E. unfold place_fault.
  destruct (getObject m1 i) as [o1|], (getObject m2 i) as [o2|]; simpl in E;
    try discriminate; [|reflexivity].
  injection E as _ Ea _ _ _ Ed. rewrite Ea, Ed. reflexivity.
Qed.

Lemma offset_fault_erase (m1 m2 : MachineFrameInfo) (i : Z) :
  erase m1 = erase m2 -> offset_fault m1 i = offset_fault m2 i.
Proof.
  intros He. pose proof (f_equal (fun m => getObject m i) He) as E. cbv beta in E.
  rewrite !getObject_erase in E. unfold offset_fault.
  destruct (getObject m1 i) as [o1|], (getObject m2 i) as [o2|]; simpl in E;
    try discriminate; [|reflexivity].
  injection E as _ _ _ _ _ Ed. rewrite Ed. reflexivity.
Qed.

Lemma placeable_fault (m : MachineFrameInfo) (i : Z) : placeable m i -> place_fault m i = None.
Proof.
  intros [o [Eg [Ed Ea]]]. unfold place_fault. rewrite Eg, Ed.
  apply Z.eqb_neq in Ea. rewrite Ea. reflexivity.
Qed.

Lemma live_index_fault (m : MachineFrameInfo) (i : Z) : live_index m i -> offset_fault m i = None.
Proof. intros [o [Eg Ed]]. unfold offset_fault. rewrite Eg, Ed. reflexivity. Qed.

Lemma getObject_in_range (m : MachineFrameInfo) (i : Z) :
  0 <= i < getObjectIndexEnd m -> exists o, getObject m i = Some o.
Proof.
  unfold getObject, obj_pos, getObjectIndexEnd. intros Hi.
  destruct (0 <=? _) eqn:E; [|apply Z.leb_nle in E; lia].
  apply lookup_lt_is_Some_2. lia.
Qed.

Section NoFault.
Variable m0 : MachineFrameInfo.
Hypothesis Halign :
  forall i o, 0 <= i -> getObject m0 i = Some o -> isDead o = false -> Alignment o <> 0.

Let Q (s : LayoutState) : Prop := erase (ls_mfi s) = erase m0.

Lemma unskipped_placeable (P : PEIState) (m : MachineFrameInfo) (i : Z) :
  erase m = erase m0 -> In i (zrange 0 (Z.to_nat (getObjectIndexEnd m))) ->
  skipped_object P m i = false -> placeable m0 i.
Proof.
  intros He Hi Hs. apply zrange_In in Hi.
  rewrite (same_end _ _ He) in Hi.
  destruct (getObject_in_range m0 i ltac:(lia)) as [o Eo].
  assert (Hd : isDeadObjectIndex m i = false).
  { unfold skipped_object in Hs. repeat rewrite orb_false_iff in Hs. tauto. }
  rewrite (same_dead _ _ He) in Hd. unfold isDeadObjectIndex in Hd. rewrite Eo in Hd.
  exists o. split; [exact Eo|]. split; [exact Hd|]. apply (Halign i); auto; lia.
Qed.

Lemma csr_checked_ok (down : bool) (l : list Z) (s : LayoutState) :
  (forall i, In i l -> placeable m0 i) -> Q s ->
  fold_checked adjust_fault (csr_step down) l s = inr (fold_left (csr_step down) l s).
Proof.
  intros Hp. apply fold_checked_ok.
  - intros a x _ Ha. unfold Q. rewrite <- Ha. apply (erase_csr_steps down [x]).
  - intros a x Hx Ha. unfold adjust_fault. rewrite (place_fault_erase _ _ x Ha).
    exact (placeable_fault _ _ (Hp x Hx)).
Qed.

Lemma scavenging_checked_ok (T : TargetInfo) (P : PEIState) (early : bool) (s : LayoutState) :
  (forall sfis, RS P = Some sfis -> forall i, In i sfis -> placeable m0 i) -> Q s ->
  scavenging_slots_checked T P early s = inr (scavenging_slots T P early s).
Proof.
  intros Hp Hs. unfold scavenging_slots_checked, scavenging_slots, AdjustStackOffsets.
  destruct (RS P) as [sfis|] eqn:Er; [|reflexivity].
  destruct (Bool.eqb _ _); [|reflexivity].
  apply (fold_checked_ok Q); [| |exact Hs].
  - intros a x _ Ha. unfold Q. rewrite <- Ha. apply erase_AdjustStackOffset.
  - intros a x Hx Ha. unfold adjust_fault. rewrite (place_fault_erase _ _ x Ha).
    exact (placeable_fault _ _ (Hp sfis eq_refl x Hx)).
Qed.

Lemma local_block_checked_ok (down : bool) (s : LayoutState) :
  (UseLocalStackAllocationBlock m0 = true ->
     LocalFrameMaxAlign m0 <> 0 /\
     forall e, In e (LocalFrameObjects m0) -> live_index m0 (fst e)) -> Q s ->
  local_block_checked down s = inr (local_block down s).
Proof.
  intros Hl Hs. unfold local_block_checked, local_block.
  destruct (UseLocalStackAllocationBlock (ls_mfi s)) eqn:Eu; [|reflexivity].
  rewrite (same_uselocal _ _ Hs) in Eu. destruct (Hl Eu) as [Ha He].
  rewrite <- (same_lfma _ _ Hs) in Ha. apply Z.eqb_neq in Ha. rewrite Ha.
  rewrite (fold_checked_ok (fun m => erase m = erase m0)); [reflexivity | | | exact Hs].
  - intros a x _ Ha'. rewrite <- Ha'. apply erase_setObjectOffset.
  - intros a x Hx Ha'. rewrite (offset_fault_erase _ _ _ Ha').
    rewrite (same_lfo _ _ Hs) in Hx. exact (live_index_fault _ _ (He x Hx)).
Qed.

Lemma protector_checked_ok (down : bool) (P : PEIState) (SSP : Z -> SSPLayoutKind)
  (s : LayoutState) :
  (0 <= StackProtectorIdx m0 -> placeable m0 (StackProtectorIdx m0)) -> Q s ->
  protector_phase_checked down P SSP s = inr (protector_phase down P SSP s).
Proof.
  intros Hp Hs. unfold protector_phase_checked, protector_phase.
  rewrite (same_spi _ _ Hs).
  destruct (0 <=? StackProtectorIdx m0) eqn:E0; [|reflexivity].
  apply Z.leb_le in E0.
  unfold adjust_fault at 1. rewrite (place_fault_erase _ _ _ Hs), (placeable_fault _ _ (Hp E0)).
  set (s1 := AdjustStackOffset down s (StackProtectorIdx m0)).
  assert (H1 : Q s1) by (unfold Q, s1; rewrite erase_AdjustStackOffset; exact Hs).
  unfold AdjustStackOffsets.
  rewrite (fold_checked_ok Q); [reflexivity | | | exact H1].
  - intros a x _ Ha. unfold Q. rewrite <- Ha. apply erase_AdjustStackOffset.
  - intros a x Hx Ha. apply List.filter_In in Hx as [Hx Hk].
    apply andb_true_iff in Hk as [Hk _]. apply negb_true_iff in Hk.
    unfold adjust_fault. rewrite (place_fault_erase _ _ x Ha).
    exact (placeable_fault _ _ (unskipped_placeable P _ x H1 Hx Hk)).
Qed.

Lemma main_checked_ok (down : bool) (P : PEIState) (Prot : list Z) (s : LayoutState) :
  Q s -> main_phase_checked down P Prot s = inr (main_phase down P Prot s).
Proof.
  intros Hs. apply (fold_checked_ok Q); [| |exact Hs].
  - intros a x _ Ha. unfold Q, main_step. destruct (_ || _); [exact Ha|].
    rewrite erase_AdjustStackOffset. exact Ha.
  - intros a x Hx Ha. unfold main_fault.
    destruct (skipped_object P (ls_mfi a) x) eqn:Ek; [reflexivity|].
    destruct (existsb _ _); [reflexivity|]. cbn [orb].
    unfold adjust_fault. rewrite (place_fault_erase _ _ x Ha).
    apply placeable_fault. apply (unskipped_placeable P (ls_mfi a) x Ha); [|exact Ek].
    rewrite (same_end _ _ Ha), <- (same_end _ _ Hs). exact Hx.
Qed.

End NoFault.

Lemma calc_layout_checked_ok (T : TargetInfo) (P : PEIState) (SSP : Z -> SSPLayoutKind)
  (m : MachineFrameInfo) :
  0 <= local_area_offset T -> layout_inputs_ok T P m ->
  exists r, calc_layout_checked T P SSP m = inr r.
Proof.
  intros HL [Hneg [Hfix [Hcsr [Hscav [Hspi [Hloc Hal]]]]]].
  unfold calc_layout_checked. unfold local_area_offset in HL.
  assert (Hn : StackGrowsDown T && (OffsetOfLocalArea T =? - 2 ^ 31) = false).
  { destruct (StackGrowsDown T); [|reflexivity]. apply Z.eqb_neq. auto. }
  rewrite Hn. cbv zeta.
  destruct (_ <? 0) eqn:El; [apply Z.ltb_lt in El; lia|].
  rewrite (fold_checked_ok (fun _ => True)); [cbn [bind_fault] | auto | | exact I].
  2: { intros _ i Hi _. exact (live_index_fault _ _ (Hfix i Hi)). }
  rewrite (csr_checked_ok m); [cbn [bind_fault] | exact Hcsr | reflexivity].
  pose proof (erase_csr_steps (StackGrowsDown T) (csr_order (StackGrowsDown T) P)
                (mkLS m (fold_left (fixed_step (StackGrowsDown T) m)
                   (zrange (getObjectIndexBegin m) (NumFixedObjects m))
                   (if StackGrowsDown T then - OffsetOfLocalArea T else OffsetOfLocalArea T)) 0))
    as E1. simpl in E1.
  rewrite (scavenging_checked_ok m); [cbn [bind_fault] | exact Hscav | exact E1].
  rewrite (local_block_checked_ok m); [cbn [bind_fault] | exact Hloc |].
  2: { cbv beta. rewrite erase_scavenging. exact E1. }
  rewrite (protector_checked_ok m Hal); [cbn [bind_fault] | exact Hspi |].
  2: { cbv beta. rewrite erase_local_block, erase_scavenging. exact E1. }
  rewrite (main_checked_ok m Hal); [cbn [bind_fault] |].
  2: { cbv beta. rewrite erase_protector_phase, erase_local_block, erase_scavenging. exact E1. }
  rewrite (scavenging_checked_ok m); [cbn [bind_fault] | exact Hscav |].
  2: { cbv beta. rewrite erase_main_phase, erase_protector_phase, erase_local_block,
         erase_scavenging. exact E1. }
  eauto.
Qed.

(** C9 (amended): with the faults of its assertions and of its division
    made explicit, offset assignment fails on the local area assertion
    exactly when the local area offset, negated for a downward-growing
    stack, is negative; a run without a fault computes the frame of the
    model without faults; and when the local area offset agrees in sign
    with the growth direction, it runs without a fault provided the frame
    indices it reads are valid and live and the alignments it divides by
    are not 0 (layout_inputs_ok). *)
Theorem calculateFrameObjectOffsets_faults (T : TargetInfo) (P : PEIState)
  (SSPLayout : Z -> SSPLayoutKind) (MFI : MachineFrameInfo) :
  (calculateFrameObjectOffsets_checked T P SSPLayout MFI = inl LocalAreaOffsetFault <->
   local_area_offset T < 0) /\
  (forall m', calculateFrameObjectOffsets_checked T P SSPLayout MFI = inr m' ->
   calculateFrameObjectOffsets T P SSPLayout MFI = Some m') /\
  ((if StackGrowsDown T then OffsetOfLocalArea T <= 0 else 0 <= OffsetOfLocalArea T) ->
   layout_inputs_ok T P MFI ->
   exists m', calculateFrameObjectOffsets_checked T P SSPLayout MFI = inr m').
Proof.
  split; [|split].
  - unfold calculateFrameObjectOffsets_checked. split.
    + intros E. destruct (Z_lt_ge_dec (local_area_offset T) 0) as [Hlt|Hge]; [exact Hlt|].
      exfalso. revert E. apply bind_fault_not_lao; [|discriminate].
      unfold calc_layout_checked. cbv zeta.
      destruct (_ && _); [discriminate|].
      unfold local_area_offset in Hge.
      destruct (_ <? 0) eqn:El; [apply Z.ltb_lt in El; lia|].
      repeat (first
        [ apply bind_fault_not_lao
        | apply fold_checked_not_lao; intros; first [apply offset_fault_not_lao
                                                     | apply adjust_fault_not_lao]
        | apply scavenging_checked_not_lao | apply local_block_checked_not_lao
        | apply protector_checked_not_lao | apply main_checked_not_lao
        | discriminate | intro ]).
    + intros HL. unfold calc_layout_checked. unfold local_area_offset in HL.
      assert (Hn : StackGrowsDown T && (OffsetOfLocalArea T =? - 2 ^ 31) = false).
      { destruct (StackGrowsDown T); [|reflexivity]. apply Z.eqb_neq. lia. }
      rewrite Hn. cbv zeta. apply Z.ltb_lt in HL. rewrite HL. reflexivity.
  - intros m' E. unfold calculateFrameObjectOffsets_checked in E.
    unfold calculateFrameObjectOffsets.
    apply bind_fault_inr in E as [[s L] [E1 E2]].
    rewrite (calc_layout_checked_sound _ _ _ _ _ E1). injection E2 as <-. reflexivity.
  - intros Hs Hok.
    assert (HL : 0 <= local_area_offset T)
      by (unfold local_area_offset; destruct (StackGrowsDown T); lia).
    destruct (calc_layout_checked_ok T P SSPLayout MFI HL Hok) as [r Er].
    unfold calculateFrameObjectOffsets_checked. rewrite Er. eauto.
Qed.

Lemma calculateFrameObjectOffsets_faults_witness :
  (if StackGrowsDown (down16 (-8)) then OffsetOfLocalArea (down16 (-8)) <= 0
   else 0 <= OffsetOfLocalArea (down16 (-8))) /\
  layout_inputs_ok (down16 (-8)) no_csr two_objects /\
  exists m', calculateFrameObjectOffsets_checked (down16 (-8)) no_csr (fun _ => SSPLK_None)
               two_objects = inr m' /\
             calculateFrameObjectOffsets (down16 (-8)) no_csr (fun _ => SSPLK_None)
               two_objects = Some m'.
Proof.
  assert (Hs : if StackGrowsDown (down16 (-8)) then OffsetOfLocalArea (down16 (-8)) <= 0
               else 0 <= OffsetOfLocalArea (down16 (-8))) by (simpl; lia).
  assert (Hok : layout_inputs_ok (down16 (-8)) no_csr two_objects).
  { split; [simpl; lia|]. split; [intros i []|]. split; [intros i Hi; vm_compute in Hi; destruct Hi|].
    split; [discriminate|]. split; [simpl; lia|]. split; [discriminate|].
    intros i o _ Ho _. apply getObject_in in Ho. destruct Ho as [<-|[<-|[]]]; discriminate. }
  split; [exact Hs|]. split; [exact Hok|].
  destruct (proj2 (proj2 (calculateFrameObjectOffsets_faults (down16 (-8)) no_csr
              (fun _ => SSPLK_None) two_objects)) Hs Hok) as [m' Hm'].
  exists m'. split; [exact Hm'|].
  exact (proj1 (proj2 (calculateFrameObjectOffsets_faults (down16 (-8)) no_csr
           (fun _ => SSPLK_None) two_objects)) m' Hm').
Defined.

(** C9 counterexample: on an x86-64-like target, whose local area offset
    (-8, stack growing down) agrees with the growth direction, a frame
    holding one object of alignment 0 faults: placing it divides by 0. *)
Lemma calculateFrameObjectOffsets_faults_counterexample :
  (if StackGrowsDown (down16 (-8)) then OffsetOfLocalArea (down16 (-8)) <= 0
   else 0 <= OffsetOfLocalArea (down16 (-8))) /\
  calculateFrameObjectOffsets_checked (down16 (-8)) no_csr (fun _ => SSPLK_None)
    (empty_mfi [mk_obj 4 0]) = inl DivisionByZero.
Proof. split; [simpl; lia | reflexivity]. Qed.

(* ------------------------------------------------------------------ *)
(** ** Further properties of the frame layout *)

Lemma final_offset_bounds (T : TargetInfo) (s : LayoutState) :
  good_align (resolved_stack_align T s) -> 0 <= ls_Offset s ->
  0 <= MaxCallFrameSizeVal (ls_mfi s) ->
  ls_Offset s <= final_offset T s /\
  (targetHandlesStackFrameRounding T = false ->
   AdjustsStackFlag (ls_mfi s) && hasReservedCallFrame T = true ->
   ls_Offset s + MaxCallFrameSizeVal (ls_mfi s) <= final_offset T s).
Proof.
  intros [k [Hk HA]] HO Hmc. unfold final_offset.
  destruct (targetHandlesStackFrameRounding T); [split; [lia | discriminate]|].
  rewrite HA.
  set (Off := if AdjustsStackFlag (ls_mfi s) && hasReservedCallFrame T
              then ls_Offset s + MaxCallFrameSizeVal (ls_mfi s) else ls_Offset s).
  assert (HOff : ls_Offset s <= Off) by (unfold Off; destruct (_ && _); lia).
  rewrite round_mask_pow2 by lia.
  pose proof (round_up_ge Off (2 ^ k)) as Hr.
  assert (1 <= 2 ^ k) by (pose proof (Z.pow_pos_nonneg 2 k); lia).
  split; [lia|]. intros _ Hadj. unfold Off in *. rewrite Hadj in *. lia.
Qed.

Lemma calc_layout_final_bounds (T : TargetInfo) (P : PEIState) (SSP : Z -> SSPLayoutKind)
  (m : MachineFrameInfo) (s : LayoutState) (L : Z) :
  align_wf T m -> calc_layout T P SSP m = Some (s, L) ->
  L = local_area_offset T /\ L <= ls_Offset s /\ erase (ls_mfi s) = erase m /\
  ls_Offset s <= final_offset T s /\
  (targetHandlesStackFrameRounding T = false ->
   AdjustsStackFlag m && hasReservedCallFrame T = true ->
   ls_Offset s + MaxCallFrameSizeVal m <= final_offset T s).
Proof.
  intros Hw Ec.
  destruct (calc_layout_mono T P SSP m s L Hw Ec) as [HL [HL0 [He [Ho Ha]]]].
  assert (HA : good_align (resolved_stack_align T s)).
  { unfold resolved_stack_align. apply good_align_max; [|exact Ha].
    destruct (_ || _); apply Hw. }
  assert (Hmc : 0 <= MaxCallFrameSizeVal (ls_mfi s))
    by (rewrite (same_mcfs _ _ He); apply Hw).
  destruct (final_offset_bounds T s HA ltac:(lia) Hmc) as [F1 F2].
  split; [exact HL | split; [exact Ho | split; [exact He | split; [exact F1 |]]]].
  intros Ht Hadj. rewrite <- (same_mcfs _ _ He). apply F2; [exact Ht |].
  rewrite (same_adjusts _ _ He). exact Hadj.
Qed.

Lemma align_wf_objects_wf (T : TargetInfo) (m : MachineFrameInfo) :
  align_wf T m -> objects_wf m.
Proof.
  intros Hw o Ho. destruct (proj1 Hw o Ho) as [Hs Ha].
  split; [exact Hs | apply good_align_pos, Ha].
Qed.

(** Every live, non-fixed object of positive size lies inside the frame:
    its far end from the incoming stack pointer is at most
    StackSize + LocalAreaOffset away from it. *)
Theorem calculateFrameObjectOffsets_within_frame (T : TargetInfo) (P : PEIState)
  (SSP : Z -> SSPLayoutKind) (m m' : MachineFrameInfo)
  (Hw : align_wf T m) (Hlw : local_block_wf (StackGrowsDown T) m)
  (Hrun : calculateFrameObjectOffsets T P SSP m = Some m') :
  forall j, relevant m' j ->
  if StackGrowsDown T
  then - (StackSizeVal m' + local_area_offset T) <= getObjectOffset m' j
  else getObjectOffset m' j + getObjectSize m' j <= StackSizeVal m' + local_area_offset T.
Proof.
  unfold calculateFrameObjectOffsets in Hrun.
  destruct (calc_layout T P SSP m) as [[s L]|] eqn:Ec; [|discriminate].
  injection Hrun as <-.
  destruct (calc_layout_final_bounds T P SSP m s L Hw Ec) as [HL [_ [He [Hf _]]]].
  pose proof (calc_layout_placed T P SSP m s L (align_wf_objects_wf T m Hw) Hlw Ec)
    as [_ [_ [Hfr _]]].
  intros j Hr.
  assert (He' : erase (setStackSize (ls_mfi s) (final_offset T s - L)) = erase m)
    by (rewrite erase_setStackSize; exact He).
  apply (same_relevant _ _ He') in Hr.
  specialize (Hfr j Hr Hr). unfold frontier in Hfr.
  rewrite getObjectOffset_setStackSize, (same_size _ _ He'). simpl. subst L.
  destruct (StackGrowsDown T); lia.
Qed.

Lemma calculateFrameObjectOffsets_within_frame_witness :
  align_wf (down16 0) two_objects /\ local_block_wf true two_objects /\
  exists m', calculateFrameObjectOffsets (down16 0) no_csr (fun _ => SSPLK_None) two_objects
               = Some m' /\
  - (StackSizeVal m' + local_area_offset (down16 0)) <= getObjectOffset m' 1.
Proof.
  assert (Hw : align_wf (down16 0) two_objects).
  { split; [intros o [<- | [<- | []]]; simpl; split;
            [lia | exists 2; split; [lia | reflexivity] | lia | exists 3; split; [lia | reflexivity]]|].
    split; [right; exists 0; split; [lia | reflexivity]|].
    split; [exists 4; split; [lia | reflexivity]|].
    split; [exists 4; split; [lia | reflexivity]|].
    split; [discriminate | simpl; lia]. }
  assert (Hlw : local_block_wf true two_objects) by discriminate.
  split; [exact Hw | split; [exact Hlw |]].
  eexists. split; [reflexivity|].
  apply (calculateFrameObjectOffsets_within_frame (down16 0) no_csr (fun _ => SSPLK_None)
           two_objects _ Hw Hlw eq_refl 1).
  unfold relevant; vm_compute; repeat split; congruence.
Defined.

(** When the pass rounds the frame and the function has calls on a target
    with a reserved call frame, the stack size includes the largest
    outgoing call frame: StackSize >= MaxCallFrameSize.  This holds for
    any frame whose sizes and alignments are in MachineFrameInfo's ranges;
    no alignment need be a power of two. *)
Theorem calculateFrameObjectOffsets_reserved_call_frame (T : TargetInfo) (P : PEIState)
  (SSP : Z -> SSPLayoutKind) (m m' : MachineFrameInfo)
  (Hr : ranges_wf m)
  (Hround : targetHandlesStackFrameRounding T = false)
  (Hadj : AdjustsStackFlag m = true) (Hres : hasReservedCallFrame T = true)
  (Hrun : calculateFrameObjectOffsets T P SSP m = Some m') :
  MaxCallFrameSizeVal m <= StackSizeVal m'.
Proof.
  unfold calculateFrameObjectOffsets in Hrun.
  destruct (calc_layout T P SSP m) as [[s L]|] eqn:Ec; [|discriminate].
  injection Hrun as <-. simpl.
  destruct (calc_layout_grows T P SSP m s L Hr Ec) as [_ [_ [He Ho]]].
  assert (Hmc : 0 <= MaxCallFrameSizeVal (ls_mfi s))
    by (rewrite (same_mcfs _ _ He); apply Hr).
  destruct (final_offset_ge T s Hmc) as [_ Hc].
  rewrite (same_adjusts _ _ He), (same_mcfs _ _ He) in Hc.
  specialize (Hc Hround ltac:(rewrite Hadj, Hres; reflexivity)). lia.
Qed.

(** A function with calls whose only object is a fixed one: the frame
    has recorded no alignment (MaxAlignment 0). *)
Lemma calculateFrameObjectOffsets_reserved_call_frame_witness :
  let m := mkMFI [mkStackObject 8 8 8 true false false false] 1 0 (-1) false 0 [] 0
             true 24 false 0 [] in
  ranges_wf m /\
  exists m', calculateFrameObjectOffsets (down16 0) no_csr (fun _ => SSPLK_None) m
               = Some m' /\ MaxCallFrameSizeVal m <= StackSizeVal m'.
Proof.
  intros m.
  assert (Hr : ranges_wf m).
  { split; [intros o [<-|[]]; simpl; lia|]. split; [discriminate | simpl; lia]. }
  split; [exact Hr|]. eexists. split; [reflexivity|].
  apply (calculateFrameObjectOffsets_reserved_call_frame (down16 0) no_csr
           (fun _ => SSPLK_None) m _ Hr eq_refl eq_refl eq_refl eq_refl).
Defined.

(** Offset assignment changes nothing but object offsets and the stack
    size: the objects, their sizes, alignments and flags, and every other
    field of the frame are those of the input. *)
Theorem calculateFrameObjectOffsets_shape (T : TargetInfo) (P : PEIState)
  (SSP : Z -> SSPLayoutKind) (m m' : MachineFrameInfo)
  (Hrun : calculateFrameObjectOffsets T P SSP m = Some m') :
  erase m' = erase m.
Proof.
  unfold calculateFrameObjectOffsets in Hrun.
  destruct (calc_layout T P SSP m) as [[s L]|] eqn:Ec; [|discriminate].
  injection Hrun as <-.
  rewrite erase_setStackSize. exact (calc_layout_erase T P SSP m s L Ec).
Qed.

Lemma calculateFrameObjectOffsets_shape_witness :
  let m := mkMFI [mkStackObject 8 8 8 true false false false; mk_obj 4 0] 1 0 (-1) false 0 []
             0 true 24 false 0 [] in
  exists m', calculateFrameObjectOffsets (down16 0) no_csr (fun _ => SSPLK_None) m
               = Some m' /\ erase m' = erase m.
Proof.
  intros m. eexists. split; [reflexivity|].
  apply (calculateFrameObjectOffsets_shape (down16 0) no_csr (fun _ => SSPLK_None) m _ eq_refl).
Defined.

(** Fixed objects keep the offsets the target gave them, as long as the
    callee-saved range, the scavenging slots and the local-block entries
    name non-fixed objects. *)
Theorem calculateFrameObjectOffsets_fixed_untouched (T : TargetInfo) (P : PEIState)
  (SSP : Z -> SSPLayoutKind) (m m' : MachineFrameInfo)
  (HCS : 0 <= MinCSFrameIndex P)
  (HRS : forall sfis, RS P = Some sfis -> forall i, In i sfis -> 0 <= i)
  (HLoc : forall j e, In (j, e) (LocalFrameObjects m) -> 0 <= j)
  (Hrun : calculateFrameObjectOffsets T P SSP m = Some m') :
  forall i, i < 0 -> getObjectOffset m' i = getObjectOffset m i.
Proof.
  unfold calculateFrameObjectOffsets in Hrun.
  destruct (calc_layout T P SSP m) as [[s L]|] eqn:Ec; [|discriminate].
  injection Hrun as <-.
  destruct (calc_layout_sim T P SSP m m s L HCS HRS HLoc eq_refl (fun _ _ => eq_refl) Ec)
    as [s' [_ [_ [_ [_ [_ [_ Hfix]]]]]]].
  intros i Hi. rewrite getObjectOffset_setStackSize. apply Hfix, Hi.
Qed.

Lemma calculateFrameObjectOffsets_fixed_untouched_witness :
  exists m', calculateFrameObjectOffsets (down16 0) no_csr (fun _ => SSPLK_None) fixed_mfi
               = Some m' /\ getObjectOffset m' (-1) = getObjectOffset fixed_mfi (-1).
Proof.
  eexists. split; [reflexivity|].
  apply (calculateFrameObjectOffsets_fixed_untouched (down16 0) no_csr (fun _ => SSPLK_None)
           fixed_mfi).
  - unfold no_csr, INT_MAX. simpl. lia.
  - discriminate.
  - intros j e [].
  - reflexivity.
  - lia.
Defined.

(* ------------------------------------------------------------------ *)
(** ** Callee-saved slot creation *)

Lemma getObject_CreateStackObject (m : MachineFrameInfo) (sz al : Z) (ss : bool) (i : Z) :
  getObject (fst (CreateStackObject m sz al ss)) i =
  if i =? getObjectIndexEnd m then Some (mkStackObject 0 sz al false ss false false)
  else getObject m i.
Proof.
  unfold getObject, obj_pos, CreateStackObject, getObjectIndexEnd, set_Objects. simpl.
  destruct (Z.eqb_spec i (Z.of_nat (length (Objects m)) - Z.of_nat (NumFixedObjects m))) as [->|Hne].
  - replace (Z.of_nat (length (Objects m)) - Z.of_nat (NumFixedObjects m)
             + Z.of_nat (NumFixedObjects m)) with (Z.of_nat (length (Objects m))) by lia.
    assert (E : (0 <=? Z.of_nat (length (Objects m))) = true) by (apply Z.leb_le; lia).
    rewrite E, Nat2Z.id, lookup_app_r, Nat.sub_diag by lia. reflexivity.
  - destruct (0 <=? i + Z.of_nat (NumFixedObjects m)) eqn:E; [|reflexivity].
    apply Z.leb_le in E.
    destruct (decide (Z.to_nat (i + Z.of_nat (NumFixedObjects m)) < length (Objects m))%nat).
    + rewrite lookup_app_l by lia. reflexivity.
    + rewrite lookup_app_r by lia.
      rewrite (lookup_ge_None_2 (Objects m)) by lia.
      apply lookup_ge_None_2. simpl. lia.
Qed.

Lemma getObject_CreateFixedObject (m : MachineFrameInfo) (sz off : Z) (imm : bool) (sa i : Z) :
  getObject (fst (CreateFixedObject m sz off imm sa)) i =
  if i =? - Z.of_nat (S (NumFixedObjects m))
  then Some (mkStackObject off sz (MinAlign (off mod 2 ^ 64) sa mod 2 ^ 32) imm false false false)
  else getObject m i.
Proof.
  unfold getObject, obj_pos, CreateFixedObject, set_Objects. simpl.
  destruct (Z.eqb_spec i (- Z.of_nat (S (NumFixedObjects m)))) as [->|Hne].
  - replace (- Z.of_nat (S (NumFixedObjects m)) + Z.of_nat (S (NumFixedObjects m))) with 0 by lia.
    reflexivity.
  - destruct (0 <=? i + Z.of_nat (NumFixedObjects m)) eqn:E.
    + apply Z.leb_le in E.
      assert (E' : (0 <=? i + Z.of_nat (S (NumFixedObjects m))) = true) by (apply Z.leb_le; lia).
      rewrite E'.
      replace (Z.to_nat (i + Z.of_nat (S (NumFixedObjects m))))
        with (S (Z.to_nat (i + Z.of_nat (NumFixedObjects m)))) by lia.
      reflexivity.
    + apply Z.leb_gt in E.
      assert (E' : (0 <=? i + Z.of_nat (S (NumFixedObjects m))) = false) by (apply Z.leb_gt; lia).
      rewrite E'. reflexivity.
Qed.

Lemma end_CreateStackObject (m : MachineFrameInfo) (sz al : Z) (ss : bool) :
  getObjectIndexEnd (fst (CreateStackObject m sz al ss)) = getObjectIndexEnd m + 1.
Proof.
  unfold getObjectIndexEnd, CreateStackObject, set_Objects. simpl.
  rewrite length_app. simpl. lia.
Qed.

Lemma end_CreateFixedObject (m : MachineFrameInfo) (sz off : Z) (imm : bool) (sa : Z) :
  getObjectIndexEnd (fst (CreateFixedObject m sz off imm sa)) = getObjectIndexEnd m.
Proof. unfold getObjectIndexEnd, CreateFixedObject, set_Objects. simpl. lia. Qed.

Lemma getObject_nonneg_lt_end (m : MachineFrameInfo) (i : Z) (o : StackObject) :
  getObject m i = Some o -> - Z.of_nat (NumFixedObjects m) <= i < getObjectIndexEnd m.
Proof.
  unfold getObject, obj_pos, getObjectIndexEnd.
  destruct (0 <=? i + Z.of_nat (NumFixedObjects m)) eqn:E; [|discriminate].
  apply Z.leb_le in E. intros Hl. apply lookup_lt_Some in Hl. lia.
Qed.

Lemma csr_slot_ok_mono (C : CSRTarget) (m m' : MachineFrameInfo) (ci : CalleeSavedInfo) :
  (forall i o, getObject m i = Some o -> getObject m' i = Some o) ->
  csr_slot_ok C m ci -> csr_slot_ok C m' ci.
Proof.
  intros Hst. unfold csr_slot_ok.
  destruct (hasReservedSpillSlot C (CSReg ci)); [auto|].
  destruct (find _ _); [intros [Hn Ho]; split; [exact Hn | apply Hst, Ho] | apply Hst].
Qed.

Lemma assign_slot_spec (C : CSRTarget) (m : MachineFrameInfo) (mn mx : Z) (r : Z) :
  let '((m', mn', mx'), ci) := assign_slot C (m, mn, mx) r in
  CSReg ci = r /\
  (forall i o, getObject m i = Some o -> getObject m' i = Some o) /\
  csr_slot_ok C m' ci /\
  (forall E0, 0 <= E0 < INT_MAX -> cs_range E0 m mn mx ->
     cs_range E0 m' mn' mx' /\
     (forall i, getObjectIndexEnd m <= i < getObjectIndexEnd m' -> i = CSFrameIdx ci)).
Proof.
  unfold assign_slot, csr_slot_ok.
  destruct (hasReservedSpillSlot C r) as [fi|] eqn:Eres.
  - simpl. rewrite Eres. split; [reflexivity | split; [auto | split; [reflexivity|]]].
    intros E0 _ Hr. split; [exact Hr | intros i Hi; lia].
  - destruct (find (fun fs => fst fs =? r) (FixedSpillSlots C)) as [fs|] eqn:Ef.
    + destruct (CreateFixedObject m (RegClassSize C r) (snd fs) true (CSRStackAlignment C))
        as [m' fi] eqn:Ec.
      pose proof (getObject_CreateFixedObject m (RegClassSize C r) (snd fs) true
                    (CSRStackAlignment C)) as Hg.
      pose proof (end_CreateFixedObject m (RegClassSize C r) (snd fs) true
                    (CSRStackAlignment C)) as Hend.
      rewrite Ec in Hg, Hend. simpl in Hg, Hend.
      assert (Hfi : fi = - Z.of_nat (S (NumFixedObjects m)))
        by (unfold CreateFixedObject in Ec; injection Ec as _ <-; reflexivity).
      simpl. rewrite Eres, Ef.
      assert (Hstab : forall i o, getObject m i = Some o -> getObject m' i = Some o).
      { intros i o Ho. rewrite Hg.
        apply getObject_nonneg_lt_end in Ho as Hb.
        destruct (Z.eqb_spec i (- Z.of_nat (S (NumFixedObjects m)))); [lia | exact Ho]. }
      split; [reflexivity | split; [exact Hstab | split]].
      * split; [lia|]. rewrite Hg, Hfi, Z.eqb_refl. reflexivity.
      * intros E0 HE0 [Hle [Hc Hsp]]. split; [| intros i Hi; lia].
        split; [lia | split; [rewrite Hend; exact Hc |]].
        intros i Hi. rewrite Hend in Hi. destruct (Hsp i Hi) as [o [Ho Hs]].
        exists o. split; [apply Hstab, Ho | exact Hs].
    + destruct (CreateStackObject m (RegClassSize C r)
                  (Z.min (RegClassAlignment C r) (CSRStackAlignment C)) true) as [m' fi] eqn:Ec.
      pose proof (getObject_CreateStackObject m (RegClassSize C r)
                    (Z.min (RegClassAlignment C r) (CSRStackAlignment C)) true) as Hg.
      pose proof (end_CreateStackObject m (RegClassSize C r)
                    (Z.min (RegClassAlignment C r) (CSRStackAlignment C)) true) as Hend.
      rewrite Ec in Hg, Hend. simpl in Hg, Hend.
      assert (Hfi : fi = getObjectIndexEnd m)
        by (unfold CreateStackObject in Ec; injection Ec as _ <-; reflexivity).
      simpl. rewrite Eres, Ef.
      assert (Hstab : forall i o, getObject m i = Some o -> getObject m' i = Some o).
      { intros i o Ho. rewrite Hg.
        apply getObject_nonneg_lt_end in Ho as Hb.
        destruct (Z.eqb_spec i (getObjectIndexEnd m)); [lia | exact Ho]. }
      split; [reflexivity | split; [exact Hstab | split]].
      * rewrite Hg, Hfi, Z.eqb_refl. reflexivity.
      * intros E0 HE0 [Hle [Hc Hsp]]. subst fi.
        split; [| intros i Hi; lia].
        split; [lia | split].
        -- right. rewrite Hend. unfold INT_MAX in *.
           destruct Hc as [[He [-> ->]] | [Hlt [-> ->]]].
           ++ rewrite He. destruct (Z.ltb_spec E0 2147483647); [|lia].
              destruct (Z.ltb_spec 0 E0); lia.
           ++ destruct (Z.ltb_spec (getObjectIndexEnd m) E0); [lia|].
              destruct (Z.ltb_spec (getObjectIndexEnd m - 1) (getObjectIndexEnd m)); lia.
        -- intros i Hi. rewrite Hend in Hi.
           destruct (Z.eqb_spec i (getObjectIndexEnd m)) as [->|Hne].
           ++ exists (mkStackObject 0 (RegClassSize C r)
                        (Z.min (RegClassAlignment C r) (CSRStackAlignment C)) false true false false).
              rewrite Hg, Z.eqb_refl. split; reflexivity.
           ++ destruct (Hsp i ltac:(lia)) as [o [Ho Hs]].
              exists o. split; [apply Hstab, Ho | exact Hs].
Qed.

Lemma assign_slots_spec (C : CSRTarget) (regs : list Z) :
  forall m mn mx,
  let '((m', mn', mx'), cis) := assign_slots C (m, mn, mx) regs in
  (forall i o, getObject m i = Some o -> getObject m' i = Some o) /\
  (forall ci, In ci cis -> csr_slot_ok C m' ci) /\
  (forall E0, 0 <= E0 < INT_MAX -> cs_range E0 m mn mx ->
     cs_range E0 m' mn' mx' /\
     (forall i, getObjectIndexEnd m <= i < getObjectIndexEnd m' -> In i (map CSFrameIdx cis))).
Proof.
  induction regs as [|r rs IH]; intros m mn mx; cbn [assign_slots].
  - split; [auto | split; [intros _ [] | intros E0 _ Hr; split; [exact Hr | intros i Hi; lia]]].
  - pose proof (assign_slot_spec C m mn mx r) as Hs.
    destruct (assign_slot C (m, mn, mx) r) as [[[m1 mn1] mx1] ci] eqn:E1.
    specialize (IH m1 mn1 mx1).
    destruct (assign_slots C (m1, mn1, mx1) rs) as [[[m2 mn2] mx2] cis] eqn:E2.
    simpl in Hs, IH |- *.
    destruct Hs as [_ [Hst1 [Hok1 Hr1]]]. destruct IH as [Hst2 [Hok2 Hr2]].
    split; [intros i o Ho; apply Hst2, Hst1, Ho | split].
    + intros c [<- | Hc]; [apply (csr_slot_ok_mono C m1 m2); assumption | apply Hok2, Hc].
    + intros E0 HE0 Hr. destruct (Hr1 E0 HE0 Hr) as [Hr1' Hi1].
      destruct (Hr2 E0 HE0 Hr1') as [Hr2' Hi2].
      split; [exact Hr2'|]. intros i Hi.
      destruct (Z.ltb_spec i (getObjectIndexEnd m1)).
      * left. symmetry. apply Hi1. lia.
      * right. apply Hi2. destruct Hr1' as [Hle1 _]. destruct Hr2' as [Hle2 _].
        destruct Hr as [Hle0 _]. lia.
Qed.

Lemma calculateCalleeSavedRegisters_cases (C : CSRTarget) (m : MachineFrameInfo) :
  calculateCalleeSavedRegisters C m = (m, INT_MAX, 0) \/
  exists regs m1 infos mn mx,
    assign_slots C (m, INT_MAX, 0) regs = ((m1, mn, mx), infos) /\
    calculateCalleeSavedRegisters C m = (setCalleeSavedInfo m1 infos, mn, mx).
Proof.
  unfold calculateCalleeSavedRegisters.
  destruct (CSRegs C) as [|r0 rs]; [left; reflexivity|].
  destruct (isNaked C); [left; reflexivity|].
  destruct (List.filter (csr_selected C) (r0 :: rs)) as [|c cs]; [left; reflexivity|].
  destruct (assign_slots C (m, INT_MAX, 0) (c :: cs)) as [[[m1 mn] mx] infos] eqn:Ea.
  right. exists (c :: cs), m1, infos, mn, mx. split; [exact Ea | reflexivity].
Qed.

Lemma getObject_setCalleeSavedInfo (m : MachineFrameInfo) (csi : list CalleeSavedInfo) (i : Z) :
  getObject (setCalleeSavedInfo m csi) i = getObject m i.
Proof. reflexivity. Qed.

Lemma end_setCalleeSavedInfo (m : MachineFrameInfo) (csi : list CalleeSavedInfo) :
  getObjectIndexEnd (setCalleeSavedInfo m csi) = getObjectIndexEnd m.
Proof. reflexivity. Qed.

Lemma cs_range_ext (E0 : Z) (m m' : MachineFrameInfo) (mn mx : Z) :
  (forall i, getObject m' i = getObject m i) ->
  getObjectIndexEnd m' = getObjectIndexEnd m ->
  cs_range E0 m mn mx -> cs_range E0 m' mn mx.
Proof.
  intros Hg He [H1 [H2 H3]]. rewrite <- He in H1, H2.
  split; [exact H1 | split; [exact H2 |]].
  intros i Hi. rewrite He in Hi. rewrite Hg. apply H3, Hi.
Qed.

(** Creating the callee-saved slots never moves an existing object: every
    frame index that named an object still names the same object. *)
Theorem calculateCalleeSavedRegisters_stable (C : CSRTarget) (m m' : MachineFrameInfo)
  (MinCS MaxCS : Z) :
  calculateCalleeSavedRegisters C m = (m', MinCS, MaxCS) ->
  forall i o, getObject m i = Some o -> getObject m' i = Some o.
Proof.
  intros Hc i o Ho.
  destruct (calculateCalleeSavedRegisters_cases C m) as [E | [regs [m1 [infos [mn [mx [Ea E]]]]]]];
    rewrite E in Hc; injection Hc as <- _ _; [exact Ho|].
  pose proof (assign_slots_spec C regs m INT_MAX 0) as Hs. rewrite Ea in Hs.
  rewrite getObject_setCalleeSavedInfo. apply (proj1 Hs), Ho.
Qed.

Lemma calculateCalleeSavedRegisters_stable_witness :
  exists m' MinCS MaxCS,
    calculateCalleeSavedRegisters csr_target two_objects = (m', MinCS, MaxCS) /\
    getObject m' 1 = Some (mk_obj 8 8).
Proof.
  do 3 eexists. split; [reflexivity|].
  apply (calculateCalleeSavedRegisters_stable csr_target two_objects _ _ _ eq_refl).
  reflexivity.
Defined.

(** The callee-saved range handed to frame layout: with no fresh slot it
    is empty (MinCSFrameIndex = INT_MAX, MaxCSFrameIndex = 0); otherwise
    it is exactly the indices of the new non-fixed objects, contiguous from
    the old end of the object table, each a spill slot named by a
    callee-saved record. *)
Theorem calculateCalleeSavedRegisters_cs_range (C : CSRTarget) (m m' : MachineFrameInfo)
  (MinCS MaxCS : Z)
  (Hend : 0 <= getObjectIndexEnd m < INT_MAX)
  (Hc : calculateCalleeSavedRegisters C m = (m', MinCS, MaxCS)) :
  cs_range (getObjectIndexEnd m) m' MinCS MaxCS /\
  (forall i, getObjectIndexEnd m <= i < getObjectIndexEnd m' ->
     In i (map CSFrameIdx (CSInfo m'))).
Proof.
  assert (Hr0 : cs_range (getObjectIndexEnd m) m INT_MAX 0).
  { split; [lia | split; [left; split; [reflexivity | split; reflexivity] | intros i Hi; lia]]. }
  destruct (calculateCalleeSavedRegisters_cases C m) as [E | [regs [m1 [infos [mn [mx [Ea E]]]]]]];
    rewrite E in Hc; injection Hc as <- <- <-.
  - split; [exact Hr0 | intros i Hi; lia].
  - pose proof (assign_slots_spec C regs m INT_MAX 0) as Hs. rewrite Ea in Hs.
    destruct Hs as [_ [_ Hr]]. destruct (Hr _ Hend Hr0) as [Hr1 Hi1].
    split.
    + apply (cs_range_ext _ m1); [intros i; apply getObject_setCalleeSavedInfo |
                                  apply end_setCalleeSavedInfo | exact Hr1].
    + intros i Hi. rewrite end_setCalleeSavedInfo in Hi. simpl. apply Hi1, Hi.
Qed.

Lemma calculateCalleeSavedRegisters_cs_range_witness :
  exists m' MinCS MaxCS,
    calculateCalleeSavedRegisters csr_target two_objects = (m', MinCS, MaxCS) /\
    0 <= getObjectIndexEnd two_objects < INT_MAX /\
    cs_range (getObjectIndexEnd two_objects) m' MinCS MaxCS /\
    (forall i, getObjectIndexEnd two_objects <= i < getObjectIndexEnd m' ->
       In i (map CSFrameIdx (CSInfo m'))).
Proof.
  do 3 eexists. split; [reflexivity|].
  assert (Hend : 0 <= getObjectIndexEnd two_objects < INT_MAX)
    by (vm_compute; split; congruence).
  split; [exact Hend|].
  apply (calculateCalleeSavedRegisters_cs_range csr_target two_objects _ _ _ Hend eq_refl).
Defined.

(** Every callee-saved record that the pass creates names its slot: the
    reserved slot when the target has one, the target's fixed slot for the
    register (a fixed object at the slot's offset, immutable, aligned to
    MinAlign of the offset and the stack alignment), or a fresh
    spill slot of the register class's size and alignment capped by the
    stack alignment.  Otherwise the pass left the frame unchanged. *)
Theorem calculateCalleeSavedRegisters_slots (C : CSRTarget) (m m' : MachineFrameInfo)
  (MinCS MaxCS : Z) :
  calculateCalleeSavedRegisters C m = (m', MinCS, MaxCS) ->
  m' = m \/ forall ci, In ci (CSInfo m') -> csr_slot_ok C m' ci.
Proof.
  intros Hc.
  destruct (calculateCalleeSavedRegisters_cases C m) as [E | [regs [m1 [infos [mn [mx [Ea E]]]]]]];
    rewrite E in Hc; injection Hc as <- _ _; [left; reflexivity|].
  right. pose proof (assign_slots_spec C regs m INT_MAX 0) as Hs. rewrite Ea in Hs.
  destruct Hs as [_ [Hok _]]. intros ci Hci. simpl in Hci.
  apply (csr_slot_ok_mono C m1); [intros i o Ho; rewrite getObject_setCalleeSavedInfo; exact Ho|].
  apply Hok, Hci.
Qed.

Lemma calculateCalleeSavedRegisters_slots_witness :
  exists m' MinCS MaxCS,
    calculateCalleeSavedRegisters csr_target two_objects = (m', MinCS, MaxCS) /\
    (m' = two_objects \/ forall ci, In ci (CSInfo m') -> csr_slot_ok csr_target m' ci).
Proof.
  do 3 eexists. split; [reflexivity|].
  apply (calculateCalleeSavedRegisters_slots csr_target two_objects _ _ _ eq_refl).
Defined.

(* ------------------------------------------------------------------ *)
(** ** Spill and restore insertion *)

Lemma spill_block_code (R : CSRHooks) (CSI : list CalleeSavedInfo) (l : list MachineInstr) :
  spill_block R CSI l =
  match spillCalleeSavedRegisters R with
  | Some code => code
  | None => concat (map (fun ci => storeRegToStackSlot R (CSReg ci) (CSFrameIdx ci)) CSI)
  end ++ l.
Proof.
  unfold spill_block. destruct (spillCalleeSavedRegisters R) as [code|]; [reflexivity|].
  assert (Hgen : forall pre,
    fst (fold_left (fun (st : list MachineInstr * nat) ci =>
             let '(l', Ip) := st in
             let code := storeRegToStackSlot R (CSReg ci) (CSFrameIdx ci) in
             (insert_before Ip code l', (Ip + length code)%nat)) CSI (pre ++ l, length pre))
    = pre ++ concat (map (fun ci => storeRegToStackSlot R (CSReg ci) (CSFrameIdx ci)) CSI) ++ l).
  { induction CSI as [|ci rest IH]; intros pre; simpl; [reflexivity|].
    set (code := storeRegToStackSlot R (CSReg ci) (CSFrameIdx ci)).
    replace (insert_before (length pre) code (pre ++ l)) with ((pre ++ code) ++ l)
      by (unfold insert_before; rewrite take_app_length, drop_app_length, app_assoc;
          reflexivity).
    rewrite <- length_app, IH, <- !app_assoc. reflexivity. }
  apply (Hgen []).
Qed.

Lemma sweep_shape (g : MachineFunction -> nat -> list MachineInstr) (L : list nat) :
  forall F,
  length (fold_left (fun F c => setBlockInsts F c (g F c)) L F) = length F /\
  (forall b, Succs (getBlock (fold_left (fun F c => setBlockInsts F c (g F c)) L F) b)
             = Succs (getBlock F b)) /\
  (forall b, ~ In b L ->
     getBlock (fold_left (fun F c => setBlockInsts F c (g F c)) L F) b = getBlock F b).
Proof.
  induction L as [|c L IH]; intros F; simpl; [split; [reflexivity | split; reflexivity]|].
  destruct (IH (setBlockInsts F c (g F c))) as [H1 [H2 H3]].
  split; [rewrite H1; apply length_setBlockInsts|].
  split; [intros b; rewrite H2; apply Succs_setBlockInsts|].
  intros b Hb. rewrite H3 by tauto. apply getBlock_setBlockInsts_ne. intros ->. tauto.
Qed.

(** Spill and restore insertion keeps the control-flow graph (the number
    of blocks and every successor list) and leaves every block that is
    neither the entry block nor a return block as it was. *)
Theorem insertCSRSpillsAndRestores_shape (R : CSRHooks) (m : MachineFrameInfo)
  (Fn : MachineFunction) :
  let Fn' := insertCSRSpillsAndRestores R m Fn in
  length Fn' = length Fn /\
  (forall b, Succs (getBlock Fn' b) = Succs (getBlock Fn b)) /\
  (forall b, b <> 0%nat -> isReturnBlock (getBlock Fn b) = false ->
     getBlock Fn' b = getBlock Fn b).
Proof.
  unfold insertCSRSpillsAndRestores.
  destruct (CSInfo m) as [|c cs]; [split; [reflexivity | split; reflexivity]|].
  set (Fn1 := setBlockInsts Fn 0 (spill_block R (c :: cs) (Insts (getBlock Fn 0)))).
  destruct (sweep_shape (fun F b => restore_block R (c :: cs) (Insts (getBlock F b)))
              (ReturnBlocks Fn) Fn1) as [H1 [H2 H3]].
  split; [rewrite H1; apply length_setBlockInsts|].
  split; [intros b; rewrite H2; apply Succs_setBlockInsts|].
  intros b Hb0 Hr. rewrite H3.
  - apply getBlock_setBlockInsts_ne. lia.
  - unfold ReturnBlocks. rewrite List.filter_In. rewrite Hr. intros [_ ?]. discriminate.
Qed.

(** When the entry block is not a return block, it ends up as the spill
    code (the target's bulk spill code, or one store per callee-saved
    register in the order of the callee-saved list) followed by its
    original instructions. *)
Theorem insertCSRSpillsAndRestores_entry (R : CSRHooks) (m : MachineFrameInfo)
  (Fn : MachineFunction)
  (Hcsi : CSInfo m <> []) (Hne : Fn <> [])
  (Hnr : isReturnBlock (getBlock Fn 0) = false) :
  Insts (getBlock (insertCSRSpillsAndRestores R m Fn) 0) =
  match spillCalleeSavedRegisters R with
  | Some code => code
  | None => concat (map (fun ci => storeRegToStackSlot R (CSReg ci) (CSFrameIdx ci)) (CSInfo m))
  end ++ Insts (getBlock Fn 0).
Proof.
  unfold insertCSRSpillsAndRestores.
  destruct (CSInfo m) as [|c cs] eqn:Ec; [contradiction|].
  set (Fn1 := setBlockInsts Fn 0 (spill_block R (c :: cs) (Insts (getBlock Fn 0)))).
  destruct (sweep_shape (fun F b => restore_block R (c :: cs) (Insts (getBlock F b)))
              (ReturnBlocks Fn) Fn1) as [_ [_ H3]].
  rewrite H3.
  - unfold Fn1. rewrite getBlock_setBlockInsts_eq by (destruct Fn; [contradiction | simpl; lia]).
    apply spill_block_code.
  - unfold ReturnBlocks. rewrite List.filter_In. rewrite Hnr. intros [_ ?]. discriminate.
Qed.

Lemma insertCSRSpillsAndRestores_entry_witness :
  Insts (getBlock (insertCSRSpillsAndRestores csr_test_hooks csr_test_mfi two_blocks) 0) =
  [mkMI 50 [MO_Register 5] false false; mkMI 50 [MO_Register 6] false false;
   mkMI 100 [MO_Immediate 16] false false; mkMI 9 [] true false] /\
  Insts (getBlock (insertCSRSpillsAndRestores csr_test_hooks csr_test_mfi two_blocks) 0) =
  match spillCalleeSavedRegisters csr_test_hooks with
  | Some code => code
  | None => concat (map (fun ci => storeRegToStackSlot csr_test_hooks (CSReg ci) (CSFrameIdx ci))
                        (CSInfo csr_test_mfi))
  end ++ Insts (getBlock two_blocks 0).
Proof.
  split; [reflexivity|].
  apply (insertCSRSpillsAndRestores_entry csr_test_hooks csr_test_mfi two_blocks).
  - discriminate.
  - discriminate.
  - reflexivity.
Defined.

(** When the target's bulk restore hook handles the registers, its code
    goes into every return block immediately before the block's trailing
    terminators (in the entry block, after the spill code). *)
Theorem insertCSRSpillsAndRestores_bulk_restore (R : CSRHooks) (m : MachineFrameInfo)
  (Fn : MachineFunction) (b : nat) (code : list MachineInstr)
  (Hcsi : CSInfo m <> [])
  (Hbulk : restoreCalleeSavedRegisters R = Some code)
  (Hb : (b < length Fn)%nat)
  (Hret : isReturnBlock (getBlock Fn b) = true)
  (Hterm : forall mi, last (Insts (getBlock Fn b)) = Some mi -> isTerminator mi = true) :
  let l := if Nat.eqb b 0 then spill_block R (CSInfo m) (Insts (getBlock Fn 0))
           else Insts (getBlock Fn b) in
  let k := (length l - trailing_terminators l)%nat in
  Insts (getBlock (insertCSRSpillsAndRestores R m Fn) b) = take k l ++ code ++ drop k l.
Proof.
  intros l k.
  destruct (last (Insts (getBlock Fn b))) as [mi|] eqn:Hlast;
    [|unfold isReturnBlock in Hret; rewrite Hlast in Hret; discriminate].
  assert (Hl : last l = Some mi /\
               Insts (getBlock (setBlockInsts Fn 0 (spill_block R (CSInfo m)
                                  (Insts (getBlock Fn 0)))) b) = l).
  { unfold l. destruct (Nat.eqb_spec b 0) as [->|Hne].
    - split; [|apply getBlock_setBlockInsts_eq; exact Hb].
      rewrite spill_block_code, last_app, Hlast. reflexivity.
    - split; [exact Hlast|]. rewrite getBlock_setBlockInsts_ne by lia. reflexivity. }
  destruct Hl as [Hll HFn1].
  specialize (Hterm mi eq_refl).
  destruct (restore_point_trailing l mi Hll Hterm) as [Hp _].
  unfold insertCSRSpillsAndRestores.
  destruct (CSInfo m) as [|c cs] eqn:Ec; [contradiction|].
  rewrite <- Ec in *.
  rewrite restore_sweep.
  - rewrite HFn1. unfold restore_block. rewrite Hbulk, Hp. reflexivity.
  - apply ReturnBlocks_NoDup.
  - apply ReturnBlocks_In; assumption.
  - rewrite length_setBlockInsts. exact Hb.
Qed.

Lemma insertCSRSpillsAndRestores_bulk_restore_witness :
  let R := mkCSRHooks None (Some [mkMI 70 [] false false])
             (storeRegToStackSlot csr_test_hooks) (loadRegFromStackSlot csr_test_hooks) in
  Insts (getBlock (insertCSRSpillsAndRestores R csr_test_mfi two_blocks) 1) =
  [mkMI 20 [MO_FrameIndex 0] false false; mkMI 101 [MO_Immediate 16] false false;
   mkMI 70 [] false false; mkMI 30 [] true true] /\
  (let l := Insts (getBlock two_blocks 1) in
   let k := (length l - trailing_terminators l)%nat in
   Insts (getBlock (insertCSRSpillsAndRestores R csr_test_mfi two_blocks) 1) =
   take k l ++ [mkMI 70 [] false false] ++ drop k l).
Proof.
  intros R. split; [reflexivity|].
  apply (insertCSRSpillsAndRestores_bulk_restore R csr_test_mfi two_blocks 1).
  - discriminate.
  - reflexivity.
  - simpl; lia.
  - reflexivity.
  - intros mi Hmi. vm_compute in Hmi. injection Hmi as <-. reflexivity.
Defined.

(* ------------------------------------------------------------------ *)
(** ** calculateCallsInformation: frame info and pseudo elimination *)

Lemma calls_step_inv (H : TargetHooks) (l : list MachineInstr) :
  forall mx adj, 0 <= mx < 2 ^ 32 ->
  let r := fold_left (calls_step H) l (mx, adj) in
  0 <= fst r < 2 ^ 32 /\ (adj = true -> snd r = true).
Proof.
  induction l as [|mi l IH]; intros mx adj Hmx; simpl; [tauto|].
  unfold calls_step at 2.
  destruct (is_frame_pseudo H mi).
  - destruct (IH (if mx <? to_unsigned32 (getImm mi 0) then to_unsigned32 (getImm mi 0) else mx)
                 true) as [H1 H2].
    + unfold to_unsigned32.
      pose proof (Z.mod_pos_bound (getImm mi 0) (2 ^ 32) ltac:(lia)).
      destruct (Z.ltb_spec mx ((getImm mi 0) mod 2 ^ 32)); lia.
    + split; [exact H1 | intros _; apply H2; reflexivity].
  - destruct (isInlineAsm mi).
    + destruct (IH mx (if negb (Z.land (to_unsigned32 (getImm mi MIOp_ExtraInfo))
                                    Extra_IsAlignStack =? 0) then true else adj)) as [H1 H2];
        [exact Hmx|].
      split; [exact H1|]. intros ->. apply H2.
      destruct (negb _); reflexivity.
    + apply IH; exact Hmx.
Qed.

(** calculateCallsInformation changes only the AdjustsStack flag and the
    maximum call frame size of the frame info; it never clears a set
    AdjustsStack flag; and when the target has call-frame pseudos the
    recorded maximum is an unsigned 32-bit value, whatever the pseudos'
    immediates are. *)
Theorem calculateCallsInformation_frame_info (H : TargetHooks) (Fn : MachineFunction)
  (MFI : MachineFrameInfo) :
  let MFI' := snd (calculateCallsInformation H Fn MFI) in
  MFI' = setCallsInfo MFI (AdjustsStackFlag MFI') (MaxCallFrameSizeVal MFI') /\
  (AdjustsStackFlag MFI = true -> AdjustsStackFlag MFI' = true) /\
  ((FrameSetupOpcode H <> -1 \/ FrameDestroyOpcode H <> -1) ->
   0 <= MaxCallFrameSizeVal MFI' < 2 ^ 32).
Proof.
  unfold calculateCallsInformation.
  destruct ((FrameSetupOpcode H =? -1) && (FrameDestroyOpcode H =? -1)) eqn:Eop.
  - simpl. split; [destruct MFI; reflexivity|]. split; [tauto|].
    intros [E|E]; apply andb_true_iff in Eop; destruct Eop as [E1 E2];
      apply Z.eqb_eq in E1; apply Z.eqb_eq in E2; contradiction.
  - destruct (calls_step_inv H (concat (map Insts Fn)) 0 (AdjustsStackFlag MFI)
                ltac:(lia)) as [H1 H2].
    destruct (fold_left (calls_step H) (concat (map Insts Fn)) (0, AdjustsStackFlag MFI))
      as [mx adj].
    simpl in *. split; [reflexivity|]. split; [exact H2 | intros _; exact H1].
Qed.

Lemma getBlock_map (f : MachineBasicBlock -> MachineBasicBlock) (Fn : MachineFunction)
  (b : nat) : (b < length Fn)%nat -> getBlock (map f Fn) b = f (getBlock Fn b).
Proof.
  revert b; induction Fn as [|bb Fn IH]; intros b Hb; simpl in Hb; [lia|].
  destruct b as [|b]; [reflexivity|]. apply (IH b). lia.
Qed.

Lemma getBlock_out (Fn : MachineFunction) (b : nat) :
  (length Fn <= b)%nat -> getBlock Fn b = mkMBB [] [].
Proof.
  revert b; induction Fn as [|bb Fn IH]; intros b Hb; [reflexivity|].
  destruct b as [|b]; simpl in Hb; [lia|]. apply (IH b). lia.
Qed.

(** calculateCallsInformation keeps the control-flow graph (the number
    of blocks and their successor lists); it rewrites no instruction
    unless the target can simplify call-frame pseudos; and when it does,
    and the target's replacement code contains no call-frame pseudo, no
    call-frame pseudo is left in the function. *)
Theorem calculateCallsInformation_pseudos (H : TargetHooks) (Fn : MachineFunction)
  (MFI : MachineFrameInfo) :
  let Fn' := fst (calculateCallsInformation H Fn MFI) in
  length Fn' = length Fn /\
  (forall b, Succs (getBlock Fn' b) = Succs (getBlock Fn b)) /\
  (canSimplifyCallFramePseudos H = false -> Fn' = Fn) /\
  ((FrameSetupOpcode H <> -1 \/ FrameDestroyOpcode H <> -1) ->
   canSimplifyCallFramePseudos H = true ->
   (forall mi mi', is_frame_pseudo H mi = true -> In mi' (eliminateCallFramePseudoInstr H mi) ->
                   is_frame_pseudo H mi' = false) ->
   forall mi, In mi (all_insts Fn') -> is_frame_pseudo H mi = false).
Proof.
  unfold calculateCallsInformation.
  destruct ((FrameSetupOpcode H =? -1) && (FrameDestroyOpcode H =? -1)) eqn:Eop.
  - simpl. split; [reflexivity|]. split; [reflexivity|]. split; [reflexivity|].
    intros [E|E]; apply andb_true_iff in Eop; destruct Eop as [E1 E2];
      apply Z.eqb_eq in E1; apply Z.eqb_eq in E2; contradiction.
  - destruct (fold_left (calls_step H) (concat (map Insts Fn)) (0, AdjustsStackFlag MFI))
      as [mx adj].
    simpl. destruct (canSimplifyCallFramePseudos H) eqn:Ecs.
    + set (g := fun bb : MachineBasicBlock =>
                  mkMBB (flat_map (fun mi => if is_frame_pseudo H mi
                                             then eliminateCallFramePseudoInstr H mi
                                             else [mi]) (Insts bb)) (Succs bb)).
      split; [apply length_map|].
      split.
      { intros b. destruct (Nat.lt_ge_cases b (length Fn)) as [Hb|Hb].
        - rewrite getBlock_map by exact Hb. reflexivity.
        - rewrite !getBlock_out by (rewrite ?length_map; exact Hb). reflexivity. }
      split; [discriminate|].
      intros _ _ Hhook mi Hmi. unfold all_insts in Hmi.
      rewrite map_map in Hmi. apply in_concat in Hmi.
      destruct Hmi as [l [Hl Hmi]]. apply in_map_iff in Hl.
      destruct Hl as [bb [<- _]]. simpl in Hmi.
      apply in_flat_map in Hmi. destruct Hmi as [mi0 [_ Hmi]].
      destruct (is_frame_pseudo H mi0) eqn:Ep.
      * exact (Hhook mi0 mi Ep Hmi).
      * destruct Hmi as [<-|[]]. exact Ep.
    + split; [reflexivity|]. split; [reflexivity|]. split; [reflexivity|]. discriminate.
Qed.

Lemma calculateCallsInformation_frame_info_witness :
  MaxCallFrameSizeVal (snd (calculateCallsInformation test_hooks calls_test_fn calls_mfi)) = 32 /\
  (AdjustsStackFlag (snd (calculateCallsInformation test_hooks calls_test_fn calls_mfi)) = true /\
   0 <= MaxCallFrameSizeVal (snd (calculateCallsInformation test_hooks calls_test_fn calls_mfi))
     < 2 ^ 32).
Proof.
  split; [reflexivity|].
  destruct (calculateCallsInformation_frame_info test_hooks calls_test_fn calls_mfi)
    as [_ [H2 H3]].
  split; [apply H2; reflexivity | apply H3; left; discriminate].
Defined.

Lemma calculateCallsInformation_pseudos_witness :
  let H := mkHooks 100 101 true (fun _ => [mkMI 7 [] false false]) (fun mi _ => [mi]) (fun fi => (8 * fi, 6)) in
  all_insts (fst (calculateCallsInformation H calls_test_fn calls_mfi)) =
    [mkMI 7 [] false false; mkMI 7 [] false false; mkMI 7 [] false false] /\
  (forall mi, In mi (all_insts (fst (calculateCallsInformation H calls_test_fn calls_mfi))) ->
              is_frame_pseudo H mi = false).
Proof.
  intros H. split; [reflexivity|].
  destruct (calculateCallsInformation_pseudos H calls_test_fn calls_mfi) as [_ [_ [_ H4]]].
  apply H4.
  - left; discriminate.
  - reflexivity.
  - intros mi mi' _ Hin. destruct Hin as [<-|[]]. reflexivity.
Defined.

Lemma insertCSRSpillsAndRestores_shape_witness :
  length (insertCSRSpillsAndRestores csr_test_hooks csr_test_mfi three_blocks) = 3%nat /\
  getBlock (insertCSRSpillsAndRestores csr_test_hooks csr_test_mfi three_blocks) 1
    = getBlock three_blocks 1.
Proof.
  destruct (insertCSRSpillsAndRestores_shape csr_test_hooks csr_test_mfi three_blocks)
    as [H1 [_ H3]].
  split; [exact H1 | apply H3; [discriminate | reflexivity]].
Defined.

(* ------------------------------------------------------------------ *)
(** ** replaceFrameIndices: every block rewritten once *)

Lemma rewrite_inv_visit (H : TargetHooks) (down : bool) (Fn0 F : MachineFunction)
  (vs : list BlockVisit) (c : nat) (p : list nat) (SPAdj : Z)
  (l' : list MachineInstr) (out : Z) (refs : list (Z * Z)) :
  rewrite_inv H down Fn0 F vs -> ~ In c (map v_block vs) -> (c < length Fn0)%nat ->
  replaceFrameIndicesBB H down (Insts (getBlock F c)) SPAdj = (l', out, refs) ->
  rewrite_inv H down Fn0 (setBlockInsts F c l') (vs ++ [mkVisit c p SPAdj out refs]).
Proof.
  intros (H1 & H0 & H2 & H3 & H4) Hc Hlt Hrb.
  split; [| split; [| split; [| split]]].
  - rewrite length_setBlockInsts. exact H1.
  - intros b. rewrite Succs_setBlockInsts. apply H0.
  - rewrite map_app. simpl.
    apply (Permutation_NoDup (Permutation_cons_append (map v_block vs) c)).
    constructor; assumption.
  - intros b Hb. rewrite map_app, in_app_iff in Hb. simpl in Hb.
    rewrite getBlock_setBlockInsts_ne by tauto. apply H3. tauto.
  - intros v Hv. apply in_app_or in Hv as [Hv | [<- | []]].
    + destruct (H4 v Hv) as [Hvl Hveq]. split; [exact Hvl|].
      rewrite getBlock_setBlockInsts_ne; [exact Hveq|].
      intros E. apply Hc. rewrite E. apply in_map. exact Hv.
    + simpl. split; [exact Hlt|].
      rewrite getBlock_setBlockInsts_eq by lia.
      rewrite <- (H3 c Hc). exact Hrb.
Qed.

Lemma dfs_walk_rewrite (H : TargetHooks) (down : bool) (Fn0 : MachineFunction)
  (Hsucc : forall b c, (b < length Fn0)%nat -> In c (Succs (getBlock Fn0 b)) ->
                       (c < length Fn0)%nat) (fuel : nat) :
  forall F stack R SP log, dfs_inv Fn0 F stack R SP log -> rewrite_inv H down Fn0 F log ->
  match dfs_walk H down fuel F stack R SP log with
  | (F', R', log') => rewrite_inv H down Fn0 F' log' /\ map v_block log' = rev R'
  end.
Proof.
  induction fuel as [|fuel IH]; intros F stack R SP log Hinv Hrw; simpl.
  - split; [exact Hrw | apply Hinv].
  - destruct stack as [|[n [|c cs]] rest].
    + split; [exact Hrw | apply Hinv].
    + apply IH; [apply (dfs_inv_pop _ _ n []); exact Hinv | exact Hrw].
    + destruct (existsb (Nat.eqb c) R) eqn:E.
      * apply IH; [apply (dfs_inv_skip _ _ n c); exact Hinv | exact Hrw].
      * pose proof (existsb_eqb_false c R E) as HcR.
        pose proof (dfs_inv_push H down Fn0 F n c cs rest R SP log Hinv HcR) as Hp.
        simpl in Hp.
        destruct Hinv as (_ & H2 & _ & _ & _ & _ & H7).
        destruct (H7 n (c :: cs) (or_introl eq_refl)) as [Hn Hch].
        assert (Hin : forall b, In b R <-> In b (map v_block log)).
        { intros b. rewrite H2, <- in_rev. reflexivity. }
        assert (Hnl : (n < length Fn0)%nat).
        { apply Hin in Hn. apply in_map_iff in Hn as [w [<- Hw]].
          destruct Hrw as (_ & _ & _ & _ & H4). apply H4. exact Hw. }
        assert (Hcl : (c < length Fn0)%nat).
        { apply (Hsucc n c Hnl). apply Hch. left. reflexivity. }
        unfold visit_block in Hp |- *.
        destruct (replaceFrameIndicesBB H down (Insts (getBlock F c)) (SP n))
          as [[l' out] refs] eqn:Erb.
        apply IH; [exact Hp|].
        apply rewrite_inv_visit; [exact Hrw | rewrite <- Hin; exact HcR | exact Hcl | exact Erb].
Qed.

Lemma unreachable_fold_rewrite (H : TargetHooks) (down : bool) (Fn0 : MachineFunction)
  (R : list nat) (log : list BlockVisit) (l : list nat) :
  List.NoDup l -> (forall b, In b l -> (b < length Fn0)%nat) ->
  forall F lg,
  (forall b, In b l -> ~ In b R -> ~ In b (map v_block (log ++ lg))) ->
  rewrite_inv H down Fn0 F (log ++ lg) ->
  match fold_left (unreachable_step H down R) l (F, lg) with
  | (F', lg') => rewrite_inv H down Fn0 F' (log ++ lg') /\
      map v_block lg' = map v_block lg ++ List.filter (fun b => negb (existsb (Nat.eqb b) R)) l
  end.
Proof.
  induction l as [|x l IH]; intros Hnd Hl F lg Hfresh Hrw; cbn [fold_left].
  - split; [exact Hrw | rewrite app_nil_r; reflexivity].
  - inversion Hnd as [|? ? Hx Hnd']; subst.
    unfold unreachable_step at 2. cbv beta iota. cbn [List.filter].
    destruct (existsb (Nat.eqb x) R) eqn:E; cbn [negb].
    + apply IH; [exact Hnd' | intros b Hb; apply Hl; right; exact Hb | | exact Hrw].
      intros b Hb. apply Hfresh. right. exact Hb.
    + destruct (replaceFrameIndicesBB H down (Insts (getBlock F x)) 0) as [[l' out] refs]
        eqn:Erb.
      pose proof (IH Hnd' (fun b Hb => Hl b (or_intror Hb)) (setBlockInsts F x l')
                    (lg ++ [mkVisit x [] 0 out refs])) as IH'.
      destruct (fold_left (unreachable_step H down R) l
                  (setBlockInsts F x l', lg ++ [mkVisit x [] 0 out refs])) as [F' lg'].
      destruct IH' as [IH1 IH2].
      * intros b Hb HbR. rewrite app_assoc, map_app, in_app_iff. simpl.
        intros [Hb' | [Hbx | []]]; [exact (Hfresh b (or_intror Hb) HbR Hb') |].
        subst. contradiction.
      * rewrite app_assoc. apply rewrite_inv_visit;
          [exact Hrw | apply Hfresh; [left; reflexivity | apply existsb_eqb_false; exact E]
          | apply Hl; left; reflexivity | exact Erb].
      * split; [exact IH1|]. rewrite IH2, map_app, <- app_assoc. reflexivity.
Qed.

(** When the function has stack objects and every successor a block
    names is a block of the function, frame-index replacement processes
    every block exactly once (the depth-first visits and the visits of
    the unreachable blocks together list each block number once); the
    function keeps its blocks and successor lists; and each processed
    block ends up holding the per-block rewrite of its original
    instructions started from the visit's adjustment, the same run that
    gave the visit's exit adjustment and frame references. *)
Theorem replaceFrameIndices_each_block_once (H : TargetHooks) (down : bool)
  (MFI : MachineFrameInfo) (Fn : MachineFunction)
  (Hobj : hasStackObjects MFI = true) (Hne : Fn <> [])
  (Hsucc : forall b c, (b < length Fn)%nat -> In c (Succs (getBlock Fn b)) ->
                       (c < length Fn)%nat) :
  match replaceFrameIndices H down MFI Fn with
  | (Fn', log, log2) =>
    Permutation (map v_block (log ++ log2)) (seq 0 (length Fn)) /\
    length Fn' = length Fn /\
    (forall b, Succs (getBlock Fn' b) = Succs (getBlock Fn b)) /\
    (forall v, In v (log ++ log2) ->
       replaceFrameIndicesBB H down (Insts (getBlock Fn (v_block v))) (v_SPAdjIn v)
       = (Insts (getBlock Fn' (v_block v)), v_SPAdjOut v, v_frameRefs v))
  end.
Proof.
  unfold replaceFrameIndices. rewrite Hobj. simpl negb. cbv iota.
  destruct Fn as [|bb Fn'] eqn:EFn; [congruence |]. rewrite <- EFn in Hsucc |- *.
  assert (H0l : (0 < length Fn)%nat) by (rewrite EFn; simpl; lia).
  unfold visit_block at 1.
  destruct (replaceFrameIndicesBB H down (Insts (getBlock Fn 0)) 0) as [[l0 out0] refs0]
    eqn:Erb0.
  set (v0 := mkVisit 0 (dfs_path [(0%nat, Succs (getBlock Fn 0))]) 0 out0 refs0).
  assert (Hinit : dfs_inv Fn (setBlockInsts Fn 0 l0) [(0%nat, Succs (getBlock Fn 0))] [0%nat]
                    (upd (fun _ => 0) 0 out0) [v0]).
  { split; [| split; [| split; [| split; [| split; [| split]]]]].
    - intros c. apply Succs_setBlockInsts.
    - reflexivity.
    - constructor; [intros [] | constructor].
    - intros w [<- | []]. reflexivity.
    - intros k w Hk. destruct k as [|k]; [| destruct k; discriminate].
      injection Hk as <-. exists []. split; [reflexivity | split].
      + intros _. split; reflexivity.
      + intros pre' p Hpre. destruct pre'; discriminate.
    - intros b [<- | []]. constructor.
    - intros n cs [Heq | []]. injection Heq as <- <-.
      split; [left; reflexivity | intros c Hc; exact Hc]. }
  assert (Hrw0 : rewrite_inv H down Fn (setBlockInsts Fn 0 l0) [v0]).
  { change [v0] with ([] ++ [v0]). apply rewrite_inv_visit; [| intros [] | exact H0l | exact Erb0].
    split; [reflexivity | split; [reflexivity | split; [constructor |
      split; [reflexivity | intros v []]]]]. }
  pose proof (dfs_walk_inv H down Fn (dfs_fuel Fn) _ _ _ _ _ Hinit) as Hw.
  pose proof (dfs_walk_rewrite H down Fn Hsucc (dfs_fuel Fn) _ _ _ _ _ Hinit Hrw0) as Hw2.
  destruct (dfs_walk H down (dfs_fuel Fn) (setBlockInsts Fn 0 l0)
              [(0%nat, Succs (getBlock Fn 0))] [0%nat] (upd (fun _ => 0) 0 out0) [v0])
    as [[F2 R] log].
  destruct Hw as [stack' [SP' (H1 & H2 & H3 & H4 & H5 & H6 & H7)]].
  destruct Hw2 as [Hrw2 _].
  assert (Hin : forall b, In b R <-> In b (map v_block log)).
  { intros b. rewrite H2, <- in_rev. reflexivity. }
  pose proof (unreachable_fold_rewrite H down Fn R log (seq 0 (length Fn)) (seq_NoDup _ _)
                (fun b Hb => proj2 (proj1 (in_seq _ _ _) Hb)) F2 []) as Hu.
  destruct (fold_left (unreachable_step H down R) (seq 0 (length Fn)) (F2, []))
    as [F3 log2] eqn:Efold.
  destruct Hu as [Hrw3 Hlog2].
  - intros b _ HbR. rewrite app_nil_r, <- Hin. exact HbR.
  - rewrite app_nil_r. exact Hrw2.
  - destruct Hrw3 as (R1 & R0 & R2 & R3 & R4).
    split; [| split; [exact R1 | split; [exact R0 |]]].
    + apply Stdlib.Sorting.Permutation.NoDup_Permutation; [exact R2 | apply seq_NoDup |].
      intros b. split.
      * intros Hb. apply in_map_iff in Hb as [v [<- Hv]].
        apply in_seq. split; [lia | apply (R4 v Hv)].
      * intros Hb. rewrite map_app, in_app_iff.
        destruct (existsb (Nat.eqb b) R) eqn:E.
        -- left. apply Hin. apply existsb_eqb_true. exact E.
        -- right. simpl in Hlog2. rewrite Hlog2. apply List.filter_In.
           split; [exact Hb | rewrite E; reflexivity].
    + intros v Hv. apply (R4 v Hv).
Qed.

Lemma replaceFrameIndices_each_block_once_witness :
  (let '(_, log, log2) := replaceFrameIndices test_hooks true (empty_mfi [mk_obj 4 4])
                            three_blocks in
   map v_block (log ++ log2)) = [0%nat; 1%nat; 2%nat] /\
  match replaceFrameIndices test_hooks true (empty_mfi [mk_obj 4 4]) three_blocks with
  | (Fn', log, log2) =>
    Permutation (map v_block (log ++ log2)) (seq 0 (length three_blocks)) /\
    length Fn' = length three_blocks /\
    (forall b, Succs (getBlock Fn' b) = Succs (getBlock three_blocks b)) /\
    (forall v, In v (log ++ log2) ->
       replaceFrameIndicesBB test_hooks true (Insts (getBlock three_blocks (v_block v)))
         (v_SPAdjIn v)
       = (Insts (getBlock Fn' (v_block v)), v_SPAdjOut v, v_frameRefs v))
  end.
Proof.
  split; [reflexivity|].
  apply (replaceFrameIndices_each_block_once test_hooks true (empty_mfi [mk_obj 4 4])
           three_blocks).
  - reflexivity.
  - discriminate.
  - intros b c Hb Hc. destruct b as [|[|[|b]]]; simpl in Hc, Hb |- *;
      [destruct Hc as [<-|[]] | destruct Hc as [<-|[]] | destruct Hc | ]; lia.
Defined.

(* ------------------------------------------------------------------ *)
(** ** replaceFrameIndices on one block *)

Lemma bb_fold (H : TargetHooks) (down : bool) (l : list MachineInstr) :
  forall out0 A refs0,
  let '(_, A', refs') := fold_left (bb_step H down) l (out0, A, refs0) in
  A' = A + fold_right Z.add 0 (map (pseudo_adjust H down) (List.filter (is_frame_pseudo H) l)) /\
  map fst refs' = map fst refs0 ++
    concat (map fi_operands (List.filter (fun mi => negb (is_frame_pseudo H mi) &&
                                                  negb (resolves_fi_directly mi)) l)).
Proof.
  induction l as [|mi l IH]; intros out0 A refs0; cbn [fold_left List.filter].
  - split; [simpl; lia | rewrite app_nil_r; reflexivity].
  - unfold bb_step at 2. cbv beta iota.
    destruct (is_frame_pseudo H mi) eqn:Ep; cbn [negb map fold_right concat].
    + pose proof (IH (out0 ++ eliminateCallFramePseudoInstr H mi) (A + pseudo_adjust H down mi)
                    refs0) as IH'.
      unfold pseudo_adjust in IH' |- *.
      destruct (fold_left (bb_step H down) l _) as [[o A'] r].
      destruct IH' as [IH1 IH2]. split; [rewrite IH1; lia | exact IH2].
    + destruct (fi_operands mi) as [|fi fis] eqn:Efi.
      * pose proof (IH (out0 ++ [mi]) A refs0) as IH'.
        destruct (fold_left (bb_step H down) l _) as [[o A'] r].
        destruct IH' as [IH1 IH2]. split; [exact IH1|].
        destruct (resolves_fi_directly mi); cbn [negb andb map concat];
          [exact IH2 | rewrite Efi; exact IH2].
      * destruct (resolves_fi_directly mi) eqn:Ed; cbn [negb andb].
        { pose proof (IH (out0 ++ [resolve_frame_indices H mi]) A refs0) as IH'.
          destruct (fold_left (bb_step H down) l _) as [[o A'] r].
          exact IH'. }
        cbn [map concat]. rewrite Efi.
        pose proof (IH (out0 ++ eliminateFrameIndex H mi A) A
                      (refs0 ++ map (fun fi0 => (fi0, A)) (fi :: fis))) as IH'.
        destruct (fold_left (bb_step H down) l _) as [[o A'] r].
        destruct IH' as [IH1 IH2]. split; [exact IH1|].
        rewrite IH2, map_app, map_map, <- app_assoc. simpl. rewrite map_id. reflexivity.
Qed.


(** A call sequence bracketed by a setup and a destroy pseudo of the same
    size, with no other call-frame pseudo in between, leaves the
    block's stack-pointer adjustment where it was, whichever way the
    stack grows. *)
Theorem replaceFrameIndicesBB_balanced (H : TargetHooks) (down : bool)
  (setup destroy : MachineInstr) (body : list MachineInstr) (SPAdj : Z)
  (Hops : FrameSetupOpcode H <> FrameDestroyOpcode H)
  (Hs : opcode setup = FrameSetupOpcode H)
  (Hd : opcode destroy = FrameDestroyOpcode H)
  (Hsize : getImm setup 0 = getImm destroy 0)
  (Hbody : forall mi, In mi body -> is_frame_pseudo H mi = false) :
  snd (fst (replaceFrameIndicesBB H down ([setup] ++ body ++ [destroy]) SPAdj)) = SPAdj.
Proof.
  assert (Eps : is_frame_pseudo H setup = true)
    by (unfold is_frame_pseudo; rewrite Hs, Z.eqb_refl; reflexivity).
  assert (Epd : is_frame_pseudo H destroy = true)
    by (unfold is_frame_pseudo; rewrite Hd, Z.eqb_refl, orb_true_r; reflexivity).
  assert (Hf : List.filter (is_frame_pseudo H) ([setup] ++ body ++ [destroy])
               = [setup; destroy]).
  { simpl. rewrite Eps. f_equal.
    induction body as [|mi body IHb]; simpl; [rewrite Epd; reflexivity|].
    rewrite (Hbody mi (or_introl eq_refl)). apply IHb.
    intros mi' Hmi'. apply Hbody. right. exact Hmi'. }
  pose proof (bb_fold H down ([setup] ++ body ++ [destroy]) [] SPAdj []) as Hsum.
  unfold replaceFrameIndicesBB.
  destruct (fold_left (bb_step H down) ([setup] ++ body ++ [destroy]) ([], SPAdj, []))
    as [[o A'] r].
  destruct Hsum as [H1 _]. cbn [snd fst]. rewrite H1, Hf. cbn [map fold_right].
  assert (Hne1 : (FrameSetupOpcode H =? FrameDestroyOpcode H) = false)
    by (apply Z.eqb_neq; exact Hops).
  assert (Hne2 : (FrameDestroyOpcode H =? FrameSetupOpcode H) = false)
    by (apply Z.eqb_neq; auto).
  unfold pseudo_adjust. rewrite Hs, Hd, Hsize, Z.eqb_refl, Z.eqb_refl, Hne1, Hne2.
  destruct down; simpl; lia.
Qed.

Lemma replaceFrameIndicesBB_balanced_witness :
  let body := [mkMI 20 [MO_FrameIndex 0] false false; mkMI 40 [] false false] in
  snd (fst (replaceFrameIndicesBB test_hooks true
              ([mkMI 100 [MO_Immediate 16] false false] ++ body ++
               [mkMI 101 [MO_Immediate 16] false false]) 8)) = 8.
Proof.
  intros body.
  apply (replaceFrameIndicesBB_balanced test_hooks true _ _ body 8).
  - discriminate.
  - reflexivity.
  - reflexivity.
  - reflexivity.
  - intros mi [<-|[<-|[]]]; reflexivity.
Defined.

(* ------------------------------------------------------------------ *)
(** ** The stack protector slot comes first *)

Lemma existsb_Zeqb_false (i : Z) (l : list Z) : existsb (Z.eqb i) l = false -> ~ In i l.
Proof.
  intros E Hin. assert (existsb (Z.eqb i) l = true) as E'
    by (apply existsb_exists; exists i; split; [exact Hin | apply Z.eqb_refl]).
  congruence.
Qed.

Section ProtectorFirst.
Variable down : bool.
Variable m0 : MachineFrameInfo.
Hypothesis Hwf : objects_wf m0.
Variable vsp : Z.

Lemma prot_weaken (B B' : Z -> Prop) (s : LayoutState) :
  (forall j, B' j -> B j) -> prot_inv down m0 vsp B s -> prot_inv down m0 vsp B' s.
Proof.
  intros HB (H1 & H2 & H3 & H4).
  refine (conj H1 (conj H2 (conj H3 _))). intros j Hj. apply H4, HB, Hj.
Qed.

Lemma prot_step (B : Z -> Prop) (s : LayoutState) (i : Z) :
  prot_inv down m0 vsp B s -> i <> StackProtectorIdx m0 ->
  prot_inv down m0 vsp (fun j => B j \/ j = i) (AdjustStackOffset down s i).
Proof.
  intros (He & Hsp & Hf & Hb) Hi.
  pose proof (objects_wf_size m0 i Hwf) as Hsi.
  pose proof (objects_wf_alignment m0 i Hwf) as Hai.
  rewrite <- (same_size _ _ He) in Hsi. rewrite <- (same_alignment _ _ He) in Hai.
  assert (Hrange : forall j, 0 <= j + Z.of_nat (NumFixedObjects m0) < Z.of_nat (length (Objects m0)) ->
     0 <= j + Z.of_nat (NumFixedObjects (ls_mfi s)) < Z.of_nat (length (Objects (ls_mfi s)))).
  { intros j Hj. pose proof (same_end _ _ He) as HE. pose proof (same_nfixed _ _ He) as HN.
    unfold getObjectIndexEnd in HE. lia. }
  unfold prot_inv, AdjustStackOffset, below_protector in *.
  destruct down; cbn [ls_mfi ls_Offset].
  - pose proof (align_to_ge_all (ls_Offset s + getObjectSize (ls_mfi s) i)
                  (getObjectAlignment (ls_mfi s) i) Hai).
    split; [rewrite erase_setObjectOffset; exact He|].
    split; [rewrite getObjectOffset_set_ne by auto; exact Hsp|].
    split; [lia|].
    intros j [Hj | ->] Hjs Hjr.
    + destruct (Z.eq_dec i j) as [->|Hij].
      * rewrite getObjectOffset_set_eq by (apply Hrange; exact Hjr).
        rewrite <- (same_size _ _ He). lia.
      * rewrite getObjectOffset_set_ne by exact Hij. apply Hb; assumption.
    + rewrite getObjectOffset_set_eq by (apply Hrange; exact Hjr).
      rewrite <- (same_size _ _ He). lia.
  - pose proof (align_to_ge_all (ls_Offset s) (getObjectAlignment (ls_mfi s) i) Hai).
    split; [rewrite erase_setObjectOffset; exact He|].
    split; [rewrite getObjectOffset_set_ne by auto; exact Hsp|].
    split; [lia|].
    intros j [Hj | ->] Hjs Hjr.
    + destruct (Z.eq_dec i j) as [->|Hij].
      * rewrite getObjectOffset_set_eq by (apply Hrange; exact Hjr). lia.
      * rewrite getObjectOffset_set_ne by exact Hij. apply Hb; assumption.
    + rewrite getObjectOffset_set_eq by (apply Hrange; exact Hjr). lia.
Qed.

Lemma prot_steps (l : list Z) :
  (forall i, In i l -> i <> StackProtectorIdx m0) ->
  forall B s, prot_inv down m0 vsp B s ->
  prot_inv down m0 vsp (fun j => B j \/ In j l) (AdjustStackOffsets down s l).
Proof.
  unfold AdjustStackOffsets.
  induction l as [|i l IH]; intros Hl B s Hs; simpl.
  - apply (prot_weaken B); [intros j [Hj|[]]; exact Hj | exact Hs].
  - pose proof (prot_step B s i Hs (Hl i (or_introl eq_refl))) as Hs'.
    pose proof (IH (fun k Hk => Hl k (or_intror Hk)) _ _ Hs') as Hr.
    apply (prot_weaken _ _ _ (fun j Hj => match Hj with
                                        | or_introl Hb => or_introl (or_introl Hb)
                                        | or_intror (or_introl Heq) => or_introl (or_intror (eq_sym Heq))
                                        | or_intror (or_intror Hin) => or_intror Hin
                                        end) Hr).
Qed.

Lemma prot_main (P : PEIState) (Prot l : list Z) :
  forall B s, prot_inv down m0 vsp B s ->
  prot_inv down m0 vsp
    (fun j => B j \/ (In j l /\ skipped_object P m0 j = false /\ ~ In j Prot))
    (fold_left (main_step down P Prot) l s).
Proof.
  induction l as [|i l IH]; intros B s Hs; simpl.
  - apply (prot_weaken B); [intros j [Hj|[[] _]]; exact Hj | exact Hs].
  - assert (Hs' : prot_inv down m0 vsp
                    (fun j => B j \/ (j = i /\ skipped_object P m0 j = false /\ ~ In j Prot))
                    (main_step down P Prot s i)).
    { unfold main_step. destruct Hs as [He Hrest] eqn:Hsd.
      rewrite (same_skipped _ _ He).
      destruct (skipped_object P m0 i) eqn:Ek; simpl.
      - apply (prot_weaken B); [intros j [Hj | [-> [Hk _]]]; [exact Hj | congruence] | exact Hs].
      - destruct (existsb (Z.eqb i) Prot) eqn:Ep.
        + apply (prot_weaken B); [|exact Hs].
          intros j [Hj | [-> [_ Hn]]]; [exact Hj|].
          exfalso. apply Hn. apply existsb_exists in Ep as [x [Hx Hxe]].
          apply Z.eqb_eq in Hxe. subst. exact Hx.
        + pose proof (existsb_Zeqb_false i Prot Ep).
          assert (Hi : i <> StackProtectorIdx m0).
          { intros Heq. unfold skipped_object in Ek. rewrite <- Heq, Z.eqb_refl in Ek.
            rewrite !orb_true_r in Ek. discriminate. }
          apply (prot_weaken _ _ _ (fun j Hj => match Hj with
                                              | or_introl Hb => or_introl Hb
                                              | or_intror (conj Heq _) => or_intror Heq
                                              end)).
          apply prot_step; [exact Hs | exact Hi]. }
    pose proof (IH _ _ Hs') as Hr.
    apply (prot_weaken _ _ _ (fun j Hj => match Hj with
      | or_introl Hb => or_introl (or_introl Hb)
      | or_intror (conj (or_introl Heq) (conj Hk Hn)) =>
          or_introl (or_intror (conj (eq_sym Heq) (conj Hk Hn)))
      | or_intror (conj (or_intror Hin) Hrest) => or_intror (conj Hin Hrest)
      end) Hr).
Qed.
End ProtectorFirst.

(** With non-negative sizes and positive alignments, and a stack
    protector slot that is a frame object and not a scavenging slot,
    every object the main loops lay out (live, not pre-allocated in the
    local block, not a callee-saved or scavenging slot) ends up on the
    far side of the protector slot from the incoming stack pointer:
    entirely below it when the stack grows down, entirely above it when
    it grows up. *)
Theorem calculateFrameObjectOffsets_protector_first (T : TargetInfo) (P : PEIState)
  (SSP : Z -> SSPLayoutKind) (m m' : MachineFrameInfo)
  (Hwf : objects_wf m)
  (Hsp : 0 <= StackProtectorIdx m < getObjectIndexEnd m)
  (Hrs : isScavengingFrameIndex P (StackProtectorIdx m) = false)
  (Hrun : calculateFrameObjectOffsets T P SSP m = Some m') :
  forall j, 0 <= j < getObjectIndexEnd m -> skipped_object P m j = false ->
  below_protector (StackGrowsDown T) m (getObjectOffset m' (StackProtectorIdx m))
    (getObjectOffset m' j) j.
Proof.
  intros j Hj Hk.
  unfold calculateFrameObjectOffsets, calc_layout in Hrun.
  destruct (_ <? 0); [discriminate|].
  set (down := StackGrowsDown T) in *.
  set (s2 := mkLS _ _ _) in Hrun.
  set (s4 := local_block down (scavenging_slots T P true s2)) in Hrun.
  assert (He4 : erase (ls_mfi s4) = erase m).
  { unfold s4. rewrite erase_local_block, erase_scavenging. unfold s2. simpl.
    rewrite erase_csr_steps. reflexivity. }
  unfold protector_phase in Hrun. fold s4 in Hrun.
  rewrite (same_spi _ _ He4) in Hrun.
  destruct (Z.leb_spec 0 (StackProtectorIdx m)) as [_|]; [|lia].
  set (sp := StackProtectorIdx m) in *.
  set (s1 := AdjustStackOffset down s4 sp) in Hrun.
  set (LA := List.filter _ _) in Hrun.
  cbv zeta in Hrun. injection Hrun as <-.
  rewrite !getObjectOffset_setStackSize.
  assert (He1 : erase (ls_mfi s1) = erase m) by (unfold s1; rewrite erase_AdjustStackOffset; exact He4).
  assert (Hspr : 0 <= sp + Z.of_nat (NumFixedObjects (ls_mfi s4)) < Z.of_nat (length (Objects (ls_mfi s4)))).
  { pose proof (same_end _ _ He4) as HE. pose proof (same_nfixed _ _ He4) as HN.
    unfold getObjectIndexEnd in HE, Hsp. lia. }
  assert (H1 : prot_inv down m (getObjectOffset (ls_mfi s1) sp) (fun _ => False) s1).
  { split; [exact He1 | split; [reflexivity | split; [| intros _ []]]].
    unfold s1, AdjustStackOffset. fold sp.
    destruct down; cbn [ls_mfi ls_Offset]; rewrite getObjectOffset_set_eq by exact Hspr.
    - lia.
    - rewrite (same_size _ _ He4). lia. }
  assert (HLA : forall i, In i LA -> i <> sp).
  { intros i Hi Heq. unfold LA in Hi. apply List.filter_In in Hi as [_ Hi].
    unfold skipped_object in Hi. rewrite (same_spi _ _ He1) in Hi. fold sp in Hi.
    rewrite Heq, Z.eqb_refl, !orb_true_r in Hi. discriminate. }
  pose proof (prot_steps down m Hwf _ LA HLA _ _ H1) as H5.
  pose proof (prot_main down m Hwf _ P LA
                (zrange 0 (Z.to_nat (getObjectIndexEnd (ls_mfi (AdjustStackOffsets down s1 LA)))))
                _ _ H5) as H6.
  fold (main_phase down P LA (AdjustStackOffsets down s1 LA)) in H6.
  set (s6 := main_phase down P LA (AdjustStackOffsets down s1 LA)) in *.
  assert (H7 : exists B, prot_inv down m (getObjectOffset (ls_mfi s1) sp)
                 (fun j => ((False \/ In j LA) \/
                    (In j (zrange 0 (Z.to_nat (getObjectIndexEnd
                              (ls_mfi (AdjustStackOffsets down s1 LA))))) /\
                     skipped_object P m j = false /\ ~ In j LA)) \/ B j)
                 (scavenging_slots T P false s6)).
  { unfold scavenging_slots. destruct (RS P) as [sfis|] eqn:Ers.
    2: { exists (fun _ => False). apply (prot_weaken down m _ _ _ _ (fun j Hj => match Hj with
           | or_introl Hb => Hb | or_intror Hf => False_ind _ Hf end) H6). }
    destruct (Bool.eqb _ false).
    2: { exists (fun _ => False). apply (prot_weaken down m _ _ _ _ (fun j Hj => match Hj with
           | or_introl Hb => Hb | or_intror Hf => False_ind _ Hf end) H6). }
    exists (fun j => In j sfis).
    assert (Hs : forall i, In i sfis -> i <> sp).
    { intros i Hi ->. unfold isScavengingFrameIndex in Hrs. rewrite Ers in Hrs.
      apply (existsb_Zeqb_false sp sfis Hrs Hi). }
    pose proof (prot_steps down m Hwf _ sfis Hs _ _ H6) as H7.
    apply (prot_weaken down m _ _ _ _ (fun j Hj => match Hj with
           | or_introl Hb => or_introl Hb | or_intror Hb => or_intror Hb end) H7). }
  destruct H7 as [B7 (_ & H7a & _ & H7b)].
  fold sp in H7a, H7b. rewrite H7a. apply H7b.
  - pose proof (same_end _ _ (eq_trans (erase_AdjustStackOffsets down LA s1) He1)) as HE.
    destruct (in_dec Z.eq_dec j LA) as [HjL|HjL]; [left; left; right; exact HjL|].
    left; right. split; [| split; [exact Hk | exact HjL]].
    apply zrange_In. rewrite HE. lia.
  - intros ->. unfold skipped_object in Hk. fold sp in Hk. rewrite Z.eqb_refl, !orb_true_r in Hk.
    discriminate.
  - unfold getObjectIndexEnd in Hj. lia.
Qed.

Lemma calculateFrameObjectOffsets_protector_first_witness :
  exists m', calculateFrameObjectOffsets (down16 0) no_csr (fun _ => SSPLK_None) protected_mfi
               = Some m' /\
  getObjectOffset m' 0 = -8 /\ getObjectOffset m' 1 = -24 /\
  below_protector (StackGrowsDown (down16 0)) protected_mfi (getObjectOffset m' 0)
    (getObjectOffset m' 1) 1.
Proof.
  eexists. split; [reflexivity|]. split; [reflexivity|]. split; [reflexivity|].
  apply (calculateFrameObjectOffsets_protector_first (down16 0) no_csr (fun _ => SSPLK_None)
           protected_mfi _).
  - intros o [<- | [<- | []]]; simpl; lia.
  - vm_compute. split; congruence.
  - reflexivity.
  - reflexivity.
  - vm_compute. split; congruence.
  - reflexivity.
Defined.

(* ------------------------------------------------------------------ *)
(** ** Offsets of the objects the main loops lay out are aligned *)

Lemma align_to_mod_all (x a : Z) : align_to x a mod a = 0 /\ (- align_to x a) mod a = 0.
Proof.
  unfold align_to. destruct (Z.eq_dec a 0) as [->|Ha].
  - rewrite Z.mul_0_r. split; reflexivity.
  - split; [apply Z.mod_mul; exact Ha|].
    rewrite <- Z.mul_opp_l. apply Z.mod_mul. exact Ha.
Qed.

Lemma aligned_weaken (m0 : MachineFrameInfo) (B B' : Z -> Prop) (s : LayoutState) :
  (forall j, B' j -> B j) -> aligned_inv m0 B s -> aligned_inv m0 B' s.
Proof. intros HB [H1 H2]. split; [exact H1 | intros j Hj; apply H2, HB, Hj]. Qed.

Lemma aligned_step (m0 : MachineFrameInfo) (down : bool) (B : Z -> Prop) (s : LayoutState)
  (i : Z) :
  aligned_inv m0 B s -> aligned_inv m0 (fun j => B j \/ j = i) (AdjustStackOffset down s i).
Proof.
  intros [He Hb].
  assert (Hrange : forall j, 0 <= j + Z.of_nat (NumFixedObjects m0) < Z.of_nat (length (Objects m0)) ->
     0 <= j + Z.of_nat (NumFixedObjects (ls_mfi s)) < Z.of_nat (length (Objects (ls_mfi s)))).
  { intros j Hj. pose proof (same_end _ _ He) as HE. pose proof (same_nfixed _ _ He) as HN.
    unfold getObjectIndexEnd in HE. lia. }
  split; [rewrite erase_AdjustStackOffset; exact He|].
  intros j Hj Hjr.
  destruct (Z.eq_dec i j) as [->|Hij].
  - rewrite <- (same_alignment _ _ He).
    unfold AdjustStackOffset. destruct down; cbn [ls_mfi];
      rewrite getObjectOffset_set_eq by (apply Hrange; exact Hjr); apply align_to_mod_all.
  - destruct Hj as [Hj | ->]; [|congruence].
    unfold AdjustStackOffset. destruct down; cbn [ls_mfi];
      rewrite getObjectOffset_set_ne by exact Hij; apply Hb; assumption.
Qed.

Lemma aligned_steps (m0 : MachineFrameInfo) (down : bool) (l : list Z) :
  forall B s, aligned_inv m0 B s ->
  aligned_inv m0 (fun j => B j \/ In j l) (AdjustStackOffsets down s l).
Proof.
  unfold AdjustStackOffsets.
  induction l as [|i l IH]; intros B s Hs; simpl.
  - apply (aligned_weaken m0 B); [intros j [Hj|[]]; exact Hj | exact Hs].
  - pose proof (IH _ _ (aligned_step m0 down B s i Hs)) as Hr.
    apply (aligned_weaken _ _ _ _ (fun j Hj => match Hj with
                                        | or_introl Hb => or_introl (or_introl Hb)
                                        | or_intror (or_introl Heq) => or_introl (or_intror (eq_sym Heq))
                                        | or_intror (or_intror Hin) => or_intror Hin
                                        end) Hr).
Qed.

Lemma aligned_main (m0 : MachineFrameInfo) (down : bool) (P : PEIState) (Prot l : list Z) :
  forall B s, aligned_inv m0 B s ->
  aligned_inv m0
    (fun j => B j \/ (In j l /\ skipped_object P m0 j = false /\ ~ In j Prot))
    (fold_left (main_step down P Prot) l s).
Proof.
  induction l as [|i l IH]; intros B s Hs; simpl.
  - apply (aligned_weaken m0 B); [intros j [Hj|[[] _]]; exact Hj | exact Hs].
  - assert (Hs' : aligned_inv m0
                    (fun j => B j \/ (j = i /\ skipped_object P m0 j = false /\ ~ In j Prot))
                    (main_step down P Prot s i)).
    { unfold main_step. destruct Hs as [He Hrest] eqn:Hsd.
      rewrite (same_skipped _ _ He).
      destruct (skipped_object P m0 i) eqn:Ek; simpl.
      - apply (aligned_weaken m0 B); [intros j [Hj | [-> [Hk _]]]; [exact Hj | congruence] | exact Hs].
      - destruct (existsb (Z.eqb i) Prot) eqn:Ep.
        + apply (aligned_weaken m0 B); [|exact Hs].
          intros j [Hj | [-> [_ Hn]]]; [exact Hj|].
          exfalso. apply Hn. apply existsb_exists in Ep as [x [Hx Hxe]].
          apply Z.eqb_eq in Hxe. subst. exact Hx.
        + apply (aligned_weaken _ _ _ _ (fun j Hj => match Hj with
                                              | or_introl Hb => or_introl Hb
                                              | or_intror (conj Heq _) => or_intror Heq
                                              end)).
          apply aligned_step. exact Hs. }
    pose proof (IH _ _ Hs') as Hr.
    apply (aligned_weaken _ _ _ _ (fun j Hj => match Hj with
      | or_introl Hb => or_introl (or_introl Hb)
      | or_intror (conj (or_introl Heq) (conj Hk Hn)) =>
          or_introl (or_intror (conj (eq_sym Heq) (conj Hk Hn)))
      | or_intror (conj (or_intror Hin) Hrest) => or_intror (conj Hin Hrest)
      end) Hr).
Qed.

(** Every object the main loops lay out (a live frame object that is not
    pre-allocated in the local block and not a callee-saved, scavenging
    or stack protector slot) gets an offset from the incoming stack
    pointer that is a multiple of its alignment. *)
Theorem calculateFrameObjectOffsets_aligned (T : TargetInfo) (P : PEIState)
  (SSP : Z -> SSPLayoutKind) (m m' : MachineFrameInfo)
  (Hrun : calculateFrameObjectOffsets T P SSP m = Some m') :
  forall j, 0 <= j < getObjectIndexEnd m -> skipped_object P m j = false ->
  getObjectOffset m' j mod getObjectAlignment m j = 0.
Proof.
  intros j Hj Hk.
  unfold calculateFrameObjectOffsets, calc_layout in Hrun.
  destruct (_ <? 0); [discriminate|].
  set (down := StackGrowsDown T) in *.
  set (s2 := mkLS _ _ _) in Hrun.
  set (s4 := local_block down (scavenging_slots T P true s2)) in Hrun.
  assert (He4 : erase (ls_mfi s4) = erase m).
  { unfold s4. rewrite erase_local_block, erase_scavenging. unfold s2. simpl.
    rewrite erase_csr_steps. reflexivity. }
  assert (H4 : aligned_inv m (fun _ => False) s4) by (split; [exact He4 | intros _ []]).
  assert (H5 : exists Prot, aligned_inv m (fun j => In j Prot)
                 (fst (protector_phase down P SSP s4)) /\
               snd (protector_phase down P SSP s4) = Prot).
  { unfold protector_phase. destruct (0 <=? _).
    - eexists. split; [|reflexivity]. simpl.
      eapply aligned_weaken; [| apply aligned_steps, aligned_step, H4].
      cbv beta. intros k Hk0. right. exact Hk0.
    - exists []. split; [|reflexivity]. simpl.
      apply (aligned_weaken m (fun _ => False)); [intros _ [] | exact H4]. }
  destruct H5 as [Prot [H5 HP]].
  destruct (protector_phase down P SSP s4) as [s5 Prot'] eqn:Ep. simpl in H5, HP. subst Prot'.
  cbv zeta in Hrun. injection Hrun as <-.
  rewrite getObjectOffset_setStackSize.
  pose proof (aligned_main m down P Prot
                (zrange 0 (Z.to_nat (getObjectIndexEnd (ls_mfi s5)))) _ _ H5) as H6.
  fold (main_phase down P Prot s5) in H6.
  set (s6 := main_phase down P Prot s5) in *.
  assert (H7 : exists B, aligned_inv m
                 (fun j => (In j Prot \/
                    (In j (zrange 0 (Z.to_nat (getObjectIndexEnd (ls_mfi s5)))) /\
                     skipped_object P m j = false /\ ~ In j Prot)) \/ B j)
                 (scavenging_slots T P false s6)).
  { unfold scavenging_slots. destruct (RS P) as [sfis|].
    - destruct (Bool.eqb _ false).
      + exists (fun j => In j sfis). apply aligned_steps. exact H6.
      + exists (fun _ => False). apply (aligned_weaken _ _ _ _ (fun j Hj => match Hj with
           | or_introl Hb => Hb | or_intror Hf => False_ind _ Hf end) H6).
    - exists (fun _ => False). apply (aligned_weaken _ _ _ _ (fun j Hj => match Hj with
           | or_introl Hb => Hb | or_intror Hf => False_ind _ Hf end) H6). }
  destruct H7 as [B7 [_ H7]]. apply H7.
  - destruct (in_dec Z.eq_dec j Prot) as [HjP|HjP]; [left; left; exact HjP|].
    left; right. split; [| split; [exact Hk | exact HjP]].
    apply zrange_In.
    destruct H5 as [He5 _]. rewrite (same_end _ _ He5). lia.
  - unfold getObjectIndexEnd in Hj. lia.
Qed.

Lemma calculateFrameObjectOffsets_aligned_witness :
  exists m', calculateFrameObjectOffsets (down16 0) no_csr (fun _ => SSPLK_None) two_objects
               = Some m' /\
  getObjectOffset m' 1 = -16 /\ getObjectOffset m' 1 mod getObjectAlignment two_objects 1 = 0.
Proof.
  eexists. split; [reflexivity|]. split; [reflexivity|].
  apply (calculateFrameObjectOffsets_aligned (down16 0) no_csr (fun _ => SSPLK_None)
           two_objects _ eq_refl).
  - vm_compute. split; congruence.
  - reflexivity.
Defined.
